(** * NodeServer: the stock feed servers, embedded and verified

    The repository holds several generations of one server that polls the
    IDLC upstream for stock records and pushes changes to connected clients.
    These are embedded here:

    - the WebSocket server that keeps [latestStockMap] ([Module WsServer]):
      [getIDLCAuthToken], [getAllStockCompanies],
      [fetchAndBroadcastStockData], the [wss] connection handlers, the cron
      tick, the start-up timer and the two fetching routes;
    - the socket.io server ([Module IoServer]): [getAuthToken],
      [fetchStockData] and the [io] connection handler.

    What the routes answer is in [Module WsRoutes] and [Module IoRoutes];
    the earlier WebSocket server of the same file, which keeps
    [latestStockData] and broadcasts it whole, is [Module Legacy].

    JavaScript's [async] functions are embedded as trees of interactions
    over the server's variables: a program runs synchronously up to its next
    [await], where it is suspended until the event loop resumes it. *)

From Stdlib Require Import ZArith String Ascii List Bool Lia.
From stdpp Require Import gmap strings pretty.
Import ListNotations.

Local Open Scope string_scope.
Local Open Scope list_scope.
Local Open Scope Z_scope.

(** ** JavaScript values *)

Module Js.

(** The primitive values a parsed JSON field can hold. Numbers are modelled
    by integers: the servers only compare them with [===] / [!==] and test
    [>= 0]. A string is the sequence of its code units, each taken below
    256. *)
Inductive value : Type :=
| VUndefined
| VNull
| VBool (b : bool)
| VNum (n : Z)
| VStr (s : string).

#[global] Instance value_eq_dec : EqDecision value.
Proof. solve_decision. Defined.

(** [!!v] *)
Definition truthy (v : value) : bool :=
  match v with
  | VUndefined | VNull => false
  | VBool b => b
  | VNum n => negb (n =? 0)
  | VStr s => negb (String.eqb s "")
  end.

(** [a === b] and [a !== b] on primitives. *)
Definition strict_eq (a b : value) : bool := bool_decide (a = b).
Definition strict_neq (a b : value) : bool := negb (strict_eq a b).

(** [a || b] *)
Definition or_else (a b : value) : value := if truthy a then a else b.

(** *** [s >= 0] for a string [s]

    The string is read as a StringNumericLiteral: white space around an
    optional literal, which is [Infinity] or a decimal literal with an
    optional sign, or an unsigned binary, octal or hexadecimal integer.
    Anything else is NaN, which is not [>= 0]. *)

(** TAB, LF, VT, FF, CR, SP and NBSP. *)
Definition is_space (c : ascii) : bool :=
  let n := nat_of_ascii c in
  ((9 <=? n) && (n <=? 13) || (n =? 32) || (n =? 160))%nat.

Fixpoint drop_spaces (cs : list ascii) : list ascii :=
  match cs with
  | c :: cs' => if is_space c then drop_spaces cs' else cs
  | [] => []
  end.

Definition trimmed (s : string) : list ascii :=
  rev (drop_spaces (rev (drop_spaces (list_ascii_of_string s)))).

(** The value of a digit in base [base] (digits, then letters of either
    case). *)
Definition digit_in (base : nat) (c : ascii) : option Z :=
  let n := nat_of_ascii c in
  let d := if ((48 <=? n) && (n <=? 57))%nat then Some (n - 48)%nat
           else if ((97 <=? n) && (n <=? 102))%nat then Some (n - 87)%nat
           else if ((65 <=? n) && (n <=? 70))%nat then Some (n - 55)%nat
           else None in
  match d with
  | Some d => if (d <? base)%nat then Some (Z.of_nat d) else None
  | None => None
  end.

(** The decimal digits at the head of [cs]: how many there are, the number
    they continue [acc] to, and what follows them. *)
Fixpoint digits (cs : list ascii) (count : nat) (acc : Z)
    : nat * Z * list ascii :=
  match cs with
  | c :: cs' =>
      match digit_in 10 c with
      | Some d => digits cs' (S count) (10 * acc + d)
      | None => (count, acc, cs)
      end
  | [] => (count, acc, [])
  end.

(** An ExponentPart, or nothing, up to the end of the string. *)
Definition exponent (cs : list ascii) : option Z :=
  match cs with
  | [] => Some 0
  | c :: cs' =>
      if Ascii.eqb c "e" || Ascii.eqb c "E" then
        let '(negative, ds) :=
          match cs' with
          | s :: ds =>
              if Ascii.eqb s "-" then (true, ds)
              else if Ascii.eqb s "+" then (false, ds)
              else (false, cs')
          | [] => (false, cs')
          end in
        match digits ds 0 0 with
        | (S _, e, []) => Some (if negative then - e else e)
        | _ => None
        end
      else None
  end.

(** A StrUnsignedDecimalLiteral other than [Infinity], as [(d, e)] for the
    number [d * 10 ^ e]. *)
Definition unsigned_decimal (cs : list ascii) : option (Z * Z) :=
  let '(n1, v1, r1) := digits cs 0 0 in
  let '(n2, v2, r2) :=
    match r1 with
    | c :: r1' => if Ascii.eqb c "." then digits r1' 0 v1 else (O, v1, r1)
    | [] => (O, v1, r1)
    end in
  match (n1 + n2)%nat with
  | O => None
  | S _ =>
      match exponent r2 with
      | Some e => Some (v2, e - Z.of_nat n2)
      | None => None
      end
  end.

(** [0b], [0o] or [0x] and at least one digit of that base, and no more. *)
Definition non_decimal (cs : list ascii) : bool :=
  match cs with
  | z :: b :: d :: ds =>
      Ascii.eqb z "0"
      && let base :=
           if Ascii.eqb b "x" || Ascii.eqb b "X" then 16%nat
           else if Ascii.eqb b "o" || Ascii.eqb b "O" then 8%nat
           else if Ascii.eqb b "b" || Ascii.eqb b "B" then 2%nat
           else O in
         forallb (fun c => bool_decide (is_Some (digit_in base c))) (d :: ds)
  | _ => false
  end.

(** [d * 10 ^ e] is rounded to zero as a double: it is zero, or at most
    [2 ^ -1075], half of the least positive double. *)
Definition rounds_to_zero (d e : Z) : bool :=
  (d =? 0) || ((e <? 0) && (d * 2 ^ 1075 <=? 10 ^ (- e))).

Definition string_ge_zero (s : string) : bool :=
  match trimmed s with
  | [] => true
  | c :: cs =>
      non_decimal (c :: cs)
      || let '(negative, literal) :=
           if Ascii.eqb c "-" then (true, cs)
           else if Ascii.eqb c "+" then (false, cs)
           else (false, c :: cs) in
         if String.eqb (string_of_list_ascii literal) "Infinity"
         then negb negative
         else match unsigned_decimal literal with
              | Some (d, e) => negb negative || rounds_to_zero d e
              | None => false
              end
  end.

(** [v >= 0]: [undefined] is NaN, [null] is 0, [true] is 1 and [false]
    is 0. *)
Definition ge_zero (v : value) : bool :=
  match v with
  | VUndefined => false
  | VNull => true
  | VBool _ => true
  | VNum n => 0 <=? n
  | VStr s => string_ge_zero s
  end.

(** ToPropertyKey: the string under which [o[v]] looks up. *)
Definition to_property_key (v : value) : string :=
  match v with
  | VUndefined => "undefined"
  | VNull => "null"
  | VBool b => if b then "true" else "false"
  | VNum n => pretty n
  | VStr s => s
  end.

(** A parsed JSON object with primitive fields; an absent field reads as
    [undefined]. *)
Abbreviation obj := (gmap string value).

Definition prop (o : obj) (name : string) : value :=
  default VUndefined (o !! name).

(** A JavaScript [Map] keyed by primitives: an association list in insertion
    order. [set] on a present key keeps the key's position. *)
Definition jsmap (V : Type) : Type := list (value * V).

Fixpoint map_get {V} (k : value) (m : jsmap V) : option V :=
  match m with
  | [] => None
  | (k', v) :: m' => if strict_eq k' k then Some v else map_get k m'
  end.

Fixpoint map_set {V} (k : value) (v : V) (m : jsmap V) : jsmap V :=
  match m with
  | [] => [(k, v)]
  | (k', v') :: m' =>
      if strict_eq k' k then (k, v) :: m' else (k', v') :: map_set k v m'
  end.

(** [Array.from(m.values())] and [m.size] *)
Definition map_values {V} (m : jsmap V) : list V := map snd m.
Definition map_size {V} (m : jsmap V) : nat := length m.

End Js.

(** ** The upstream API as the servers see it *)

Module Upstream.
Import Js.

(** What axios rejects with: [error.code], [error.response?.status] and
    [error.message]. *)
Record js_error : Type := {
  err_code : option string;
  err_status : option Z;
  err_message : string
}.

(** The outcome of an awaited request: a response, or a thrown error. *)
Inductive outcome (A : Type) : Type :=
| Resolved (a : A)
| Rejected (e : js_error).
Arguments Resolved {A} a.
Arguments Rejected {A} e.

(** The body shapes the authentication request is tried with. *)
Inductive payload : Type :=
| PlainCredentials      (* { EmailID, Password } *)
| WrappedCredentials    (* { data: { EmailID, Password } } *)
| EmailPassword         (* { email, password } *)
| UsernamePassword.     (* { username, password } *)

(** The parts of an authentication response the servers read. *)
Record auth_response : Type := {
  auth_status : Z;                  (* response.status *)
  result_code : option value;       (* response.data.result.resultCode;
                                       None: response.data.result is missing *)
  result_token : option value;      (* response.data.result.data.authToken;
                                       None: response.data.result.data is missing *)
  data_token : value;               (* response.data?.data?.authToken *)
  top_token : value;                (* response.data?.authToken *)
  plain_token : value               (* response.data?.token *)
}.

(** A JSON array as the servers' loops read it. The loops read fields of
    each element: an element that is a primitive other than null reads as a
    record without fields, and on a null element the loop throws, so that
    nothing past the first null element is ever read. *)
Inductive array : Type :=
| Records (items : list obj)            (* no element is null *)
| RecordsThenNull (before : list obj).  (* the elements before the first
                                           null one *)

(** [response.data] of the stock request. *)
Inductive body : Type :=
| BNone                                 (* null *)
| BPrimitive (v : value)                (* a primitive other than null; an
                                           empty body is the empty string *)
| BArray (a : array)                    (* a raw array *)
| BObject (o : obj) (result : option array).
                                        (* one object; [result] is its
                                           [result] field when that is an
                                           array *)

Record stock_response : Type := {
  stock_status : Z;
  stock_data : body
}.

(** The suspension points of the servers, indexed by what the awaited promise
    resolves to. *)
Inductive asyncE : Type -> Type :=
| AuthPost (p : payload) : asyncE (outcome auth_response)
| StockGet (token : value) : asyncE (outcome stock_response)
| Sleep (ms : Z) : asyncE unit.

(** The same, as an entry of the log of issued requests. *)
Inductive request : Type :=
| ReqAuth (p : payload)
| ReqStock (token : value)
| ReqSleep (ms : Z).

Definition request_of {X} (e : asyncE X) : request :=
  match e with
  | AuthPost p => ReqAuth p
  | StockGet t => ReqStock t
  | Sleep ms => ReqSleep ms
  end.

Definition is_auth (r : request) : bool :=
  match r with ReqAuth _ => true | _ => false end.
Definition is_stock (r : request) : bool :=
  match r with ReqStock _ => true | _ => false end.
Definition is_sleep (r : request) : bool :=
  match r with ReqSleep _ => true | _ => false end.

(** The upstream's behaviour: its answer to the request issued when [n]
    requests were issued before it. *)
Record world : Type := {
  auth_reply : nat -> payload -> outcome auth_response;
  stock_reply : nat -> value -> outcome stock_response
}.

Definition answer (w : world) (n : nat) {X} (e : asyncE X) : X :=
  match e in asyncE X return X with
  | AuthPost p => auth_reply w n p
  | StockGet t => stock_reply w n t
  | Sleep _ => tt
  end.

End Upstream.

(** ** Async programs *)

Module Async.
Import Upstream.

Section Prog.
Context {St Out : Type}.

(** An async function body over server variables [St], sending outputs [Out]. *)
Inductive prog (A : Type) : Type :=
| Ret (a : A)
| Read (k : St -> prog A)
| Write (s : St) (k : prog A)
| Now (k : Z -> prog A)
| Emit (o : Out) (k : prog A)
| Await (X : Type) (e : asyncE X) (k : X -> prog A).
#[global] Arguments Ret {A} a.
#[global] Arguments Read {A} k.
#[global] Arguments Write {A} s k.
#[global] Arguments Now {A} k.
#[global] Arguments Emit {A} o k.
#[global] Arguments Await {A X} e k.

Fixpoint bind {A B} (p : prog A) (f : A -> prog B) : prog B :=
  match p with
  | Ret a => f a
  | Read k => Read (fun s => bind (k s) f)
  | Write s k => Write s (bind k f)
  | Now k => Now (fun t => bind (k t) f)
  | Emit o k => Emit o (bind k f)
  | Await e k => Await e (fun x => bind (k x) f)
  end.

Definition read : prog St := Read Ret.
Definition modify (f : St -> St) : prog unit := Read (fun s => Write (f s) (Ret tt)).
Definition now : prog Z := Now Ret.
Definition emit (o : Out) : prog unit := Emit o (Ret tt).
Definition await {X} (e : asyncE X) : prog X := Await e Ret.

(** The machine a program runs on: the server's variables, what was sent so
    far, the clock, and the requests issued so far (oldest first). *)
Record machine : Type := {
  st : St;
  outs : list Out;
  clock : Z;
  issued : list request
}.

Definition set_st (s : St) (m : machine) : machine :=
  {| st := s; outs := outs m; clock := clock m; issued := issued m |}.
Definition add_out (o : Out) (m : machine) : machine :=
  {| st := st m; outs := outs m ++ [o]; clock := clock m; issued := issued m |}.
Definition issue {X} (e : asyncE X) (m : machine) : machine :=
  {| st := st m; outs := outs m; clock := clock m;
     issued := issued m ++ [request_of e] |}.
Definition elapse (dt : Z) (m : machine) : machine :=
  {| st := st m; outs := outs m; clock := clock m + dt; issued := issued m |}.

(** The time an await takes when nothing else runs: a timer takes its
    delay. *)
Definition duration {X} (e : asyncE X) : Z :=
  match e with
  | Sleep ms => ms
  | _ => 0
  end.

(** Running a program to its end when nothing else interleaves: every await
    is answered by the world. *)
Fixpoint run {A} (w : world) (p : prog A) (m : machine) : A * machine :=
  match p with
  | Ret a => (a, m)
  | Read k => run w (k (st m)) m
  | Write s k => run w k (set_st s m)
  | Now k => run w (k (clock m)) m
  | Emit o k => run w k (add_out o m)
  | Await e k =>
      run w (k (answer w (length (issued m)) e))
          (elapse (duration e) (issue e m))
  end.

(** A program at rest: finished, or suspended at an await whose request has
    been issued. *)
Inductive task (A : Type) : Type :=
| Done (a : A)
| Blocked (X : Type) (e : asyncE X) (k : X -> prog A).
#[global] Arguments Done {A} a.
#[global] Arguments Blocked {A X} e k.

(** The synchronous run of a program up to its next await. *)
Fixpoint advance {A} (p : prog A) (m : machine) : task A * machine :=
  match p with
  | Ret a => (Done a, m)
  | Read k => advance (k (st m)) m
  | Write s k => advance k (set_st s m)
  | Now k => advance (k (clock m)) m
  | Emit o k => advance k (add_out o m)
  | Await e k => (Blocked e k, issue e m)
  end.

End Prog.

#[global] Arguments prog : clear implicits.
#[global] Arguments machine : clear implicits.

Notation "x <- p ;; k" := (bind p (fun x => k))
  (at level 100, p at next level, right associativity).
Notation "p ;;; k" := (bind p (fun _ => k))
  (at level 100, right associativity).

(** *** The event loop

    Several async calls are in flight at once: each one is suspended at its
    await, and the event loop resumes one of them when its promise settles. *)

Section Loop.
Context {St Out A : Type}.

(** A call suspended at an await: its number, how many requests had been
    issued before its own, the awaited request and the continuation. *)
Record suspended : Type := Suspended {
  sus_id : nat;
  sus_seq : nat;
  sus_X : Type;
  sus_e : asyncE sus_X;
  sus_k : sus_X -> prog St Out A
}.

Record loop : Type := {
  mach : machine St Out;
  next_id : nat;
  waiting : list suspended;
  finished : list (nat * A)
}.

(** Where a call that ran up to its next rest point is put. *)
Definition settle (id seq : nat) (r : task A * machine St Out)
    (ws : list suspended) (fs : list (nat * A)) (next : nat) : loop :=
  match fst r with
  | Done a =>
      {| mach := snd r; next_id := next; waiting := ws;
         finished := fs ++ [(id, a)] |}
  | Blocked e k =>
      {| mach := snd r; next_id := next;
         waiting := ws ++ [Suspended id seq _ e k]; finished := fs |}
  end.

(** A new call: it runs at once, up to its first await. *)
Definition spawn (p : prog St Out A) (l : loop) : loop :=
  settle (next_id l) (length (issued (mach l))) (advance p (mach l))
         (waiting l) (finished l) (S (next_id l)).

Fixpoint drop_nth {T} (i : nat) (l : list T) : list T :=
  match i, l with
  | _, [] => []
  | O, _ :: l' => l'
  | S i', x :: l' => x :: drop_nth i' l'
  end.

(** The promise awaited by the [i]-th suspended call settles, with the
    world's answer: the call runs on, up to its next await. *)
Definition complete (w : world) (i : nat) (l : loop) : loop :=
  match nth_error (waiting l) i with
  | None => l
  | Some s =>
      settle (sus_id s) (length (issued (mach l)))
             (advance (sus_k s (answer w (sus_seq s) (sus_e s))) (mach l))
             (drop_nth i (waiting l)) (finished l) (next_id l)
  end.

(** The handler of an event that changes the variables without awaiting. *)
Definition poke (f : St -> St) (l : loop) : loop :=
  {| mach := set_st (f (st (mach l))) (mach l); next_id := next_id l;
     waiting := waiting l; finished := finished l |}.

(** Time passing between two events. *)
Definition pass (dt : Z) (l : loop) : loop :=
  {| mach := elapse dt (mach l); next_id := next_id l;
     waiting := waiting l; finished := finished l |}.

End Loop.

#[global] Arguments suspended : clear implicits.
#[global] Arguments loop : clear implicits.

(** *** Programs that keep an invariant

    [safe inv good p s]: run from variables [s], and resumed after each await
    with any variables at all, [p] only writes variables satisfying [inv]
    and only sends outputs satisfying [good], as long as [inv] held when it
    did so. *)

Section Safe.
Context {St Out : Type} (inv : St -> Prop) (good : Out -> Prop).

Fixpoint safe {A} (p : prog St Out A) (s : St) : Prop :=
  match p with
  | Ret _ => True
  | Read k => safe (k s) s
  | Write s' k => (inv s -> inv s') /\ safe k s'
  | Now k => forall t, safe (k t) s
  | Emit o k => (inv s -> good o) /\ safe k s
  | Await e k => forall x s', safe (k x) s'
  end.

(** Every suspended call of the loop resumes safely. *)
Definition tame {A} (l : loop St Out A) : Prop :=
  Forall (fun c => forall x s', safe (sus_k c x) s') (waiting l).

(** What one step of the loop keeps: suspended calls resume safely; and,
    from variables satisfying the invariant, the invariant holds on and
    only good outputs are added. *)
Definition kept {A} (l l' : loop St Out A) : Prop :=
  (tame l -> tame l') /\
  (tame l -> inv (st (mach l)) ->
   inv (st (mach l')) /\
   exists sent, outs (mach l') = outs (mach l) ++ sent /\ Forall good sent).

End Safe.

(** *** Programs answered by one upstream

    [sound w inv post p s]: as [safe], with the awaits answered as the
    upstream [w] answers, at whatever point of the log of requests; and
    what [p] returns satisfies [post]. *)

Section Sound.
Context {St Out : Type} (w : world) (inv : St -> Prop).

Fixpoint sound {A} (post : A -> Prop) (p : prog St Out A) (s : St) : Prop :=
  match p with
  | Ret a => post a
  | Read k => sound post (k s) s
  | Write s' k => (inv s -> inv s') /\ sound post k s'
  | Now k => forall t, sound post (k t) s
  | Emit o k => sound post k s
  | Await e k => forall n s', sound post (k (answer w n e)) s'
  end.

(** Every suspended call of the loop resumes soundly. *)
Definition tamed {A} (l : loop St Out A) : Prop :=
  Forall (fun c => forall n s',
            sound (fun _ => True) (sus_k c (answer w n (sus_e c))) s')
         (waiting l).

(** The loop is at a point where the invariant holds and every suspended
    call resumes soundly. *)
Definition upheld {A} (l : loop St Out A) : Prop :=
  tamed l /\ inv (st (mach l)).

End Sound.

End Async.

(** ** The WebSocket server *)

Module WsServer.
Import Js Upstream Async.

(** The record the server keeps and sends for one upstream item. *)
Record mapped_item : Type := {
  trading_code : value;
  last_trading_price : value;
  change : value;
  change_percent : value;
  indicator : string
}.

(** [WebSocket.readyState] *)
Inductive ready_state : Type := CONNECTING | OPEN | CLOSING | CLOSED.

Definition is_open (r : ready_state) : bool :=
  match r with OPEN => true | _ => false end.

(** The object handed to [JSON.stringify] for a client. *)
Record message : Type := {
  msg_type : string;
  msg_data : list mapped_item;
  msg_timestamp : Z
}.

(** [client.send(message)] *)
Inductive output : Type :=
| Send (client : nat) (msg : message).

(** The server's variables: [authToken], [latestStockMap], the [clients] set
    (sockets by number, in insertion order) and each socket's [readyState]. *)
Record state : Type := {
  authToken : value;
  latestStockMap : jsmap mapped_item;
  clients : list nat;
  readyState : nat -> ready_state
}.

Definition set_authToken (token : value) (s : state) : state :=
  {| authToken := token; latestStockMap := latestStockMap s;
     clients := clients s; readyState := readyState s |}.
Definition set_latestStockMap (m : jsmap mapped_item) (s : state) : state :=
  {| authToken := authToken s; latestStockMap := m;
     clients := clients s; readyState := readyState s |}.
Definition set_clients (cs : list nat) (s : state) : state :=
  {| authToken := authToken s; latestStockMap := latestStockMap s;
     clients := cs; readyState := readyState s |}.
Definition set_readyState (ws : nat) (r : ready_state) (s : state) : state :=
  {| authToken := authToken s; latestStockMap := latestStockMap s;
     clients := clients s;
     readyState := fun c => if Nat.eqb c ws then r else readyState s c |}.

(** [clients.add(ws)] and [clients.delete(ws)] *)
Definition set_add (ws : nat) (cs : list nat) : list nat :=
  if existsb (Nat.eqb ws) cs then cs else cs ++ [ws].
Definition set_delete (ws : nat) (cs : list nat) : list nat :=
  List.filter (fun c => negb (Nat.eqb c ws)) cs.

Abbreviation handler := (prog state output).

(** [error.code] is one of ETIMEDOUT, ECONNRESET, ECONNABORTED. *)
Definition transient (error : js_error) : bool :=
  match err_code error with
  | Some c =>
      String.eqb c "ETIMEDOUT" || String.eqb c "ECONNRESET"
      || String.eqb c "ECONNABORTED"
  | None => false
  end.

(** [error.response && error.response.status === 401] *)
Definition is_401 (error : js_error) : bool :=
  match err_status error with
  | Some s => s =? 401
  | None => false
  end.

(** [5000 * attempt] *)
Definition backoff (attempt : nat) : Z := 5000 * Z.of_nat attempt.

(** The body of [getIDLCAuthToken]'s loop, over the attempts still to make.
    A [TypeError] raised while reading the response lands in the catch block
    with no [error.code]: the function returns null. *)
Fixpoint auth_attempts (attempts : list nat) (retryCount : nat)
    : handler value :=
  match attempts with
  | [] => Ret VNull
  | attempt :: rest =>
      r <- await (AuthPost WrappedCredentials) ;;
      match r with
      | Resolved response =>
          match result_code response with
          | None => Ret VNull
          | Some code =>
              if strict_eq code (VStr "200") then
                match result_token response with
                | None => Ret VNull
                | Some token =>
                    modify (set_authToken token) ;;; Ret token
                end
              else
                (if (attempt <? retryCount)%nat
                 then await (Sleep (backoff attempt)) else Ret tt) ;;;
                auth_attempts rest retryCount
          end
      | Rejected error =>
          if transient error && (attempt <? retryCount)%nat
          then await (Sleep (backoff attempt)) ;;;
               auth_attempts rest retryCount
          else Ret VNull
      end
  end.

(** [for (let attempt = 1; attempt <= retryCount; attempt++)] *)
Definition getIDLCAuthToken (retryCount : nat) : handler value :=
  auth_attempts (seq 1 retryCount) retryCount.

(** [response.data], when truthy, as an array. *)
Definition as_array (data : body) : option array :=
  match data with
  | BNone => None
  | BPrimitive v => if truthy v then Some (Records [∅]) else None
  | BArray a => Some a
  | BObject o _ => Some (Records [o])
  end.

(** The body of [getAllStockCompanies]'s loop; [token] is the function's
    parameter, reassigned after a 401. *)
Fixpoint stock_attempts (attempts : list nat) (retryCount : nat)
    (token : value) : handler (option array) :=
  match attempts with
  | [] => Ret None
  | attempt :: rest =>
      r <- await (StockGet token) ;;
      match r with
      | Resolved response =>
          match as_array (stock_data response) with
          | Some items => Ret (Some items)
          | None =>
              if (attempt <? retryCount)%nat
              then stock_attempts rest retryCount token
              else Ret None
          end
      | Rejected error =>
          if transient error || is_401 error then
            token' <- (if is_401 error
                       then getIDLCAuthToken 5 ;;;
                            s <- read ;; Ret (authToken s)
                       else Ret token) ;;
            if (attempt <? retryCount)%nat
            then await (Sleep (backoff attempt)) ;;;
                 stock_attempts rest retryCount token'
            else Ret None
          else Ret None
      end
  end.

Definition getAllStockCompanies (token : value) (retryCount : nat)
    : handler (option array) :=
  if truthy token
  then stock_attempts (seq 1 retryCount) retryCount token
  else Ret None.

(** The [mappedItem] built for an upstream item. *)
Definition mapItem (item : obj) : mapped_item :=
  {| trading_code := prop item "dseCompanyCode";
     last_trading_price := prop item "ycp";
     change := prop item "mktValueChange";
     change_percent := prop item "mktValChangePercentage";
     indicator := if ge_zero (prop item "mktValueChange")
                  then "Up" else "Down" |}.

(** The three [!==] comparisons against the previous item. *)
Definition differs (prevItem mappedItem : mapped_item) : bool :=
  strict_neq (last_trading_price prevItem) (last_trading_price mappedItem)
  || strict_neq (change prevItem) (change mappedItem)
  || strict_neq (change_percent prevItem) (change_percent mappedItem).

(** The condition under which an item is pushed to [updates]. *)
Definition hasUpdate (isInitial : bool) (latest : jsmap mapped_item)
    (mappedItem : mapped_item) : bool :=
  isInitial
  || match map_get (trading_code mappedItem) latest with
     | None => true
     | Some prevItem => differs prevItem mappedItem
     end.

(** One turn of [stockData.forEach]: the accumulator is
    [(newStockMap, updates)]. *)
Definition visit (isInitial : bool) (latest : jsmap mapped_item)
    (acc : jsmap mapped_item * list mapped_item) (item : obj)
    : jsmap mapped_item * list mapped_item :=
  let mappedItem := mapItem item in
  let key := trading_code mappedItem in
  (map_set key mappedItem (fst acc),
   if hasUpdate isInitial latest mappedItem
   then snd acc ++ [mappedItem] else snd acc).

Definition scan (isInitial : bool) (latest : jsmap mapped_item)
    (stockData : list obj) : jsmap mapped_item * list mapped_item :=
  fold_left (visit isInitial latest) stockData ([], []).

(** [clients.forEach]: the message goes to the sockets that are open.
    [client.send] is taken to return normally, as the ws library's does for
    a string on an open socket (a write that fails is reported by the
    socket's "error" event): nothing in the loop catches a throw, which
    would end the loop and the cycle there. *)
Fixpoint send_each (cs : list nat) (ready : nat -> ready_state)
    (msg : message) : handler unit :=
  match cs with
  | [] => Ret tt
  | client :: rest =>
      (if is_open (ready client) then emit (Send client msg) else Ret tt) ;;;
      send_each rest ready msg
  end.

Definition broadcast (msg : message) : handler unit :=
  s <- read ;; send_each (clients s) (readyState s) msg.

(** The part of [fetchAndBroadcastStockData] under [if (stockData)]. *)
Definition publish (isInitial : bool) (stockData : list obj)
    : handler unit :=
  s <- read ;;
  let newStockMap := fst (scan isInitial (latestStockMap s) stockData) in
  let updates := snd (scan isInitial (latestStockMap s) stockData) in
  modify (set_latestStockMap newStockMap) ;;;
  if (0 <? length updates)%nat || isInitial then
    t <- now ;;
    broadcast
      {| msg_type := if isInitial then "stock_data" else "stock_update";
         msg_data := if isInitial then map_values newStockMap else updates;
         msg_timestamp := t |}
  else Ret tt.

(** The first part of [fetchAndBroadcastStockData]: with no [authToken], one
    is requested; the result says whether the cycle goes on. *)
Definition ensure_token : handler bool :=
  s <- read ;;
  if truthy (authToken s) then Ret true
  else token <- getIDLCAuthToken 5 ;; Ret (truthy token).

(** On a null element [forEach] throws before anything is stored or sent:
    the call ends there, its promise rejected. *)
Definition fetchAndBroadcastStockData (isInitial : bool) : handler unit :=
  ok <- ensure_token ;;
  if ok then
    s <- read ;;
    stockData <- getAllStockCompanies (authToken s) 5 ;;
    match stockData with
    | Some (Records stockData) => publish isInitial stockData
    | Some (RecordsThenNull _) => Ret tt
    | None => Ret tt
    end
  else Ret tt.

(** [wss.on("connection")]: the socket is added to [clients]; then it is
    sent the stored records, or a fetch is started when there are none. *)
Definition send_initial (ws : nat) : handler unit :=
  s <- read ;;
  if (0 <? map_size (latestStockMap s))%nat then
    t <- now ;;
    emit (Send ws {| msg_type := "stock_data";
                     msg_data := map_values (latestStockMap s);
                     msg_timestamp := t |})
  else fetchAndBroadcastStockData true.

Definition on_connection (ws : nat) : handler unit :=
  modify (fun s => set_clients (set_add ws (clients s)) s) ;;;
  send_initial ws.

(** [ws.on("close")] and [ws.on("error")] *)
Definition on_close (ws : nat) (s : state) : state :=
  set_clients (set_delete ws (clients s)) s.
Definition on_error (ws : nat) (s : state) : state :=
  set_clients (set_delete ws (clients s)) s.

(** The cron job's callback. *)
Definition cron_tick : handler unit := fetchAndBroadcastStockData false.

(** The start-up timer's callback. *)
Definition startup : handler unit :=
  token <- getIDLCAuthToken 5 ;;
  if truthy token then fetchAndBroadcastStockData true else Ret tt.

(** The routes POST /api/auth and GET /api/stock, up to their HTTP
    response (which goes to the HTTP client, not to a socket). *)
Definition api_auth : handler unit :=
  getIDLCAuthToken 5 ;;; Ret tt.
Definition api_stock : handler unit :=
  s <- read ;;
  (if truthy (authToken s) then Ret tt
   else getIDLCAuthToken 5 ;;; Ret tt) ;;;
  s <- read ;;
  getAllStockCompanies (authToken s) 5 ;;; Ret tt.

(** What the event loop runs a handler for. [SocketState] is the network
    changing a socket's [readyState]; [Settle i] is the promise awaited by
    the [i]-th suspended call settling; [Elapse] is time passing; [ApiAuth]
    and [ApiStock] are requests to the two routes. *)
Inductive event : Type :=
| Tick
| Startup
| Connect (ws : nat)
| Close (ws : nat)
| Error (ws : nat)
| SocketState (ws : nat) (r : ready_state)
| Settle (i : nat)
| Elapse (dt : Z)
| ApiAuth
| ApiStock.

Abbreviation server := (loop state output unit).

Definition step (w : world) (l : server) (e : event) : server :=
  match e with
  | Tick => spawn cron_tick l
  | Startup => spawn startup l
  | Connect ws => spawn (on_connection ws) l
  | Close ws => poke (on_close ws) l
  | Error ws => poke (on_error ws) l
  | SocketState ws r => poke (set_readyState ws r) l
  | Settle i => complete w i l
  | Elapse dt => pass dt l
  | ApiAuth => spawn api_auth l
  | ApiStock => spawn api_stock l
  end.

Definition exec (w : world) (l : server) (evs : list event) : server :=
  fold_left (step w) evs l.

(** The server as the process starts: no token, no data, no client. *)
Definition boot (ready : nat -> ready_state) (t0 : Z) : server :=
  {| mach := {| st := {| authToken := VNull; latestStockMap := [];
                         clients := []; readyState := ready |};
                outs := []; clock := t0; issued := [] |};
     next_id := 0; waiting := []; finished := [] |}.

End WsServer.

(** ** The socket.io server *)

Module IoServer.
Import Js Upstream Async.

(** What is emitted, by event name: 'auth-status', 'stock-updates',
    'fetch-status', 'server-status'. *)
Inductive io_message : Type :=
| AuthStatus (status : string) (error : option string) (timestamp : Z)
| StockUpdates (updates : list obj)
| FetchStatus (status : string) (error : string) (timestamp : Z)
| ServerStatus (status : string) (token : string) (lastFetch : option Z)
    (totalStocks : nat).

(** [io.emit] reaches every connected socket, [socket.emit] one. *)
Inductive output : Type :=
| IoEmit (msg : io_message)
| SocketEmit (socket : nat) (msg : io_message).

(** The server's variables. [previousStockData] is a plain object used as a
    map from stock code to the stored upstream record: the field holds its
    own properties, [propertyOrder] their names in the order they were
    created, and [prototype] the record that an assignment to [__proto__]
    made its prototype ([None]: it is [Object.prototype], as at the
    start). *)
Record state : Type := {
  authToken : value;
  previousStockData : gmap string obj;
  lastFetchTime : option Z;
  tokenExpiryTime : option Z;
  propertyOrder : list string;
  prototype : option obj
}.

Definition set_session (token : value) (expiry : option Z) (s : state)
    : state :=
  {| authToken := token; previousStockData := previousStockData s;
     lastFetchTime := lastFetchTime s; tokenExpiryTime := expiry;
     propertyOrder := propertyOrder s; prototype := prototype s |}.
Definition set_authToken (token : value) (s : state) : state :=
  set_session token (tokenExpiryTime s) s.
Definition set_lastFetchTime (t : option Z) (s : state) : state :=
  {| authToken := authToken s; previousStockData := previousStockData s;
     lastFetchTime := t; tokenExpiryTime := tokenExpiryTime s;
     propertyOrder := propertyOrder s; prototype := prototype s |}.

(** The names under which [Object.prototype] holds a method. *)
Definition builtin_names : list string :=
  ["constructor"; "__defineGetter__"; "__defineSetter__"; "hasOwnProperty";
   "__lookupGetter__"; "__lookupSetter__"; "isPrototypeOf";
   "propertyIsEnumerable"; "toString"; "valueOf"; "toLocaleString"].

(** What [previousStockData[key]] reads. *)
Inductive found : Type :=
| ARecord (stock : obj)   (* a record: an own property, or the record that
                             is the prototype, read as [__proto__] *)
| Field (v : value)       (* a field of the record that is the prototype *)
| Builtin                 (* a method of [Object.prototype], or, read as
                             [__proto__], [Object.prototype] itself *)
| Missing.                (* undefined *)

(** The property as [Object.prototype] gives it: [__proto__] is an accessor
    that reads the object's prototype. *)
Definition inherited (key : string) (proto : option obj) : found :=
  if String.eqb key "__proto__" then
    match proto with
    | Some p => ARecord p
    | None => Builtin
    end
  else if existsb (String.eqb key) builtin_names then Builtin
  else Missing.

(** The own property, else the prototype's field, else what
    [Object.prototype] gives. *)
Definition lookup (s : state) (key : string) : found :=
  match previousStockData s !! key with
  | Some stock => ARecord stock
  | None =>
      match prototype s with
      | Some p =>
          match p !! key with
          | Some v => Field v
          | None => inherited key (Some p)
          end
      | None => inherited key None
      end
  end.

(** [previousStockData[key] = stock] reaches the [__proto__] setter of
    [Object.prototype] when neither the object nor the record that is its
    prototype has a property of that name. *)
Definition sets_prototype (s : state) (key : string) : bool :=
  String.eqb key "__proto__"
  && bool_decide (previousStockData s !! key = None)
  && match prototype s with
     | Some p => bool_decide (p !! key = None)
     | None => true
     end.

(** [previousStockData[key] = stock]: the setter makes [stock] the
    prototype; otherwise the own property is written, and created last when
    it was not there. *)
Definition assign (key : string) (stock : obj) (s : state) : state :=
  if sets_prototype s key then
    {| authToken := authToken s; previousStockData := previousStockData s;
       lastFetchTime := lastFetchTime s; tokenExpiryTime := tokenExpiryTime s;
       propertyOrder := propertyOrder s; prototype := Some stock |}
  else
    {| authToken := authToken s;
       previousStockData := <[key := stock]> (previousStockData s);
       lastFetchTime := lastFetchTime s; tokenExpiryTime := tokenExpiryTime s;
       propertyOrder :=
         match previousStockData s !! key with
         | Some _ => propertyOrder s
         | None => propertyOrder s ++ [key]
         end;
       prototype := prototype s |}.

(** The array index that a property name is: the canonical decimal of an
    integer below [2^32 - 1]. *)
Definition array_index (key : string) : option N :=
  match digits (list_ascii_of_string key) 0 0 with
  | (S _, n, []) =>
      if String.eqb (pretty (Z.to_N n)) key && (n <? 4294967295)
      then Some (Z.to_N n) else None
  | _ => None
  end.

Fixpoint insert_index (e : N * string) (l : list (N * string))
    : list (N * string) :=
  match l with
  | [] => [e]
  | e' :: l' =>
      if (fst e <=? fst e')%N then e :: l else e' :: insert_index e l'
  end.

(** [Object.keys]: the array indices in ascending order, then the other
    names in the order of their creation. *)
Definition property_names (order : list string) : list string :=
  map snd (fold_right insert_index []
             (omap (fun key => (fun n => (n, key)) <$> array_index key) order))
  ++ List.filter (fun key => bool_decide (array_index key = None)) order.

(** [Object.values(previousStockData)] *)
Definition stored_values (s : state) : list obj :=
  omap (fun key => previousStockData s !! key)
       (property_names (propertyOrder s)).

Abbreviation handler := (prog state output).

(** The cached token is returned when it is set, no refresh is forced, and
    [tokenExpiryTime] is set and in the future. *)
Definition cached (forceRefresh : bool) (s : state) (t : Z) : bool :=
  truthy (authToken s) && negb forceRefresh
  && match tokenExpiryTime s with
     | Some expiry => negb (expiry =? 0) && (t <? expiry)
     | None => false
     end.

(** The outer catch block of [getAuthToken]. *)
Definition auth_failed (message : string) : handler value :=
  t <- now ;;
  emit (IoEmit (AuthStatus "error" (Some message) t)) ;;;
  Ret VNull.

(** The token sought in the response's shapes. *)
Definition find_token (response : auth_response) : value :=
  or_else (or_else (or_else (default VUndefined (result_token response))
                            (data_token response))
                   (top_token response))
          (plain_token response).

(** [for (const payload of payloadFormats)], then the throw after it. *)
Fixpoint try_payloads (formats : list payload) (lastError : option js_error)
    : handler value :=
  match formats with
  | [] =>
      auth_failed match lastError with
                  | Some error => err_message error
                  | None => "All authentication attempts failed"
                  end
  | format :: rest =>
      r <- await (AuthPost format) ;;
      match r with
      | Resolved response =>
          if (auth_status response =? 200) && truthy (find_token response)
          then
            t <- now ;;
            modify (set_session (find_token response)
                                (Some (t + 55 * 60 * 1000))) ;;;
            t' <- now ;;
            emit (IoEmit (AuthStatus "authenticated" None t')) ;;;
            Ret (find_token response)
          else try_payloads rest lastError
      | Rejected error => try_payloads rest (Some error)
      end
  end.

Definition payloadFormats : list payload :=
  [PlainCredentials; WrappedCredentials; EmailPassword; UsernamePassword].

Definition getAuthToken (forceRefresh : bool) : handler value :=
  s <- read ;;
  t <- now ;;
  if cached forceRefresh s t then Ret (authToken s)
  else try_payloads payloadFormats None.

(** [stock.dseCompanyCode || stock.trading_code] *)
Definition stockCode (stock : obj) : value :=
  or_else (prop stock "dseCompanyCode") (prop stock "trading_code").

(** [!prev || prev.last_trading_price !== ... || prev.change !== ...]: a
    record has the two fields it holds, and a primitive or a method has
    neither. *)
Definition differs_from (price change : value) (stock : obj) : bool :=
  strict_neq price (prop stock "last_trading_price")
  || strict_neq change (prop stock "change").

Definition hasUpdate (prev : found) (stock : obj) : bool :=
  match prev with
  | Missing => true
  | ARecord prev =>
      differs_from (prop prev "last_trading_price") (prop prev "change") stock
  | Field v => negb (truthy v) || differs_from VUndefined VUndefined stock
  | Builtin => differs_from VUndefined VUndefined stock
  end.

(** [stockData.forEach]: [previousStockData] is written record by record
    while the loop runs; the result is [updates]. *)
Fixpoint for_each (stockData : list obj) (updates : list obj)
    : handler (list obj) :=
  match stockData with
  | [] => Ret updates
  | stock :: rest =>
      if negb (truthy (stockCode stock)) then for_each rest updates
      else
        s <- read ;;
        if hasUpdate (lookup s (to_property_key (stockCode stock))) stock
        then
          modify (assign (to_property_key (stockCode stock)) stock) ;;;
          for_each rest (updates ++ [stock])
        else for_each rest updates
  end.

(** The array taken from [response.data]; reading [.result] of null or
    undefined throws, and any other primitive is taken as the one
    element. *)
Definition rows (data : body) : option array :=
  match data with
  | BNone | BPrimitive VNull | BPrimitive VUndefined => None
  | BPrimitive _ => Some (Records [∅])
  | BArray a => Some a
  | BObject o (Some result) => Some result
  | BObject o None => Some (Records [o])
  end.

(** What a call of [fetchStockData] comes to: the array it returns, null, or
    no result yet within the depth of recursion followed. *)
Inductive fetched : Type :=
| Fetched (stockData : list obj)
| FetchedNull
| Recursing.

(** The catch block of [fetchStockData]. *)
Definition fetch_failed (message : string) : handler fetched :=
  t <- now ;;
  emit (IoEmit (FetchStatus "error" message t)) ;;;
  Ret FetchedNull.

(** [fetchStockData], followed through at most [depth] nested calls (a 401
    response makes the function call itself). When [forEach] throws on a
    null element, the records before it have been written and the catch
    block answers. *)
Fixpoint fetchStockData (depth : nat) : handler fetched :=
  match depth with
  | O => Ret Recursing
  | S depth' =>
      token <- getAuthToken false ;;
      if negb (truthy token) then fetch_failed "No auth token available"
      else
        r <- await (StockGet token) ;;
        match r with
        | Rejected error => fetch_failed (err_message error)
        | Resolved response =>
            if stock_status response =? 401 then
              modify (set_authToken VNull) ;;;
              fetchStockData depth'
            else if negb (stock_status response =? 200) then
              fetch_failed ("API returned status "
                            ++ pretty (stock_status response))
            else
              match rows (stock_data response) with
              | None =>
                  fetch_failed "Cannot read properties of null (reading 'result')"
              | Some (Records stockData) =>
                  updates <- for_each stockData [] ;;
                  t <- now ;;
                  modify (set_lastFetchTime (Some t)) ;;;
                  (if (0 <? length updates)%nat
                   then emit (IoEmit (StockUpdates updates))
                   else Ret tt) ;;;
                  Ret (Fetched stockData)
              | Some (RecordsThenNull before) =>
                  for_each before [] ;;;
                  fetch_failed
                    "Cannot read properties of null (reading 'dseCompanyCode')"
              end
        end
  end.

(** [io.on('connection')]: the stored records, when there are any, then the
    server's status. *)
Definition on_connection (socket : nat) : handler unit :=
  s <- read ;;
  let stockValues := stored_values s in
  (if (0 <? length stockValues)%nat
   then emit (SocketEmit socket (StockUpdates stockValues))
   else Ret tt) ;;;
  emit (SocketEmit socket
          (ServerStatus "connected"
             (if truthy (authToken s) then "present" else "missing")
             (lastFetchTime s)
             (size (previousStockData s)))).

(** The server as the process starts. *)
Definition boot (t0 : Z) : machine state output :=
  {| st := {| authToken := VNull; previousStockData := ∅;
              lastFetchTime := None; tokenExpiryTime := None;
              propertyOrder := []; prototype := None |};
     outs := []; clock := t0; issued := [] |}.

End IoServer.

(** ** Vocabulary of the statements *)

Module Vocab.
Import Js Upstream Async.

(** How [getIDLCAuthToken] reads the outcome of one attempt. *)
Inductive auth_class : Type :=
| Granted (token : value)   (* resultCode "200" *)
| Refused                   (* an explicit resultCode other than "200" *)
| Transient                 (* timeout, connection reset or abort *)
| Fatal.                    (* anything else that throws *)

(** The codes of the errors the later server tries again after. *)
Definition retried_code (error : js_error) : bool :=
  match err_code error with
  | Some code =>
      bool_decide (code = "ETIMEDOUT") || bool_decide (code = "ECONNRESET")
      || bool_decide (code = "ECONNABORTED")
  | None => false
  end.

Definition classify (o : outcome auth_response) : auth_class :=
  match o with
  | Resolved response =>
      match result_code response with
      | None => Fatal
      | Some code =>
          if strict_eq code (VStr "200") then
            match result_token response with
            | None => Fatal
            | Some token => Granted token
            end
          else Refused
      end
  | Rejected error => if retried_code error then Transient else Fatal
  end.

(** The attempt failed in a way the loop goes on after. *)
Definition retryable (o : outcome auth_response) : bool :=
  match classify o with
  | Refused | Transient => true
  | _ => false
  end.

(** The requests of [k] failed attempts numbered from [from], each followed
    by its wait of [5000 * attempt] ms. *)
Definition auth_schedule (from k : nat) : list request :=
  flat_map (fun attempt =>
              [ReqAuth WrappedCredentials; ReqSleep (5000 * Z.of_nat attempt)])
           (seq from k).

(** The machine after the authentication request was issued, and after the
    wait that follows attempt [attempt]. *)
Definition posted (m : machine WsServer.state WsServer.output)
    : machine WsServer.state WsServer.output :=
  elapse 0 (issue (AuthPost WrappedCredentials) m).
Definition slept (attempt : nat) (m : machine WsServer.state WsServer.output)
    : machine WsServer.state WsServer.output :=
  elapse (5000 * Z.of_nat attempt) (issue (Sleep (5000 * Z.of_nat attempt)) m).
Definition got (token : value) (m : machine WsServer.state WsServer.output)
    : machine WsServer.state WsServer.output :=
  elapse 0 (issue (StockGet token) m).

(** The machine after the re-authentication that a 401 triggers. *)
Definition reauthenticated (w : world) (error : js_error)
    (m : machine WsServer.state WsServer.output)
    : machine WsServer.state WsServer.output :=
  if WsServer.is_401 error
  then snd (run w (WsServer.getIDLCAuthToken 5) m) else m.

(** How many authentication and stock requests a log holds. *)
Definition auth_requests (log : list request) : nat :=
  length (List.filter is_auth log).
Definition stock_requests (log : list request) : nat :=
  length (List.filter is_stock log).



(** The token is the one [m] held, or one the upstream granted. *)
Definition token_kept_or_granted (w : world)
    (m m' : machine WsServer.state WsServer.output) : Prop :=
  WsServer.authToken (st m') = WsServer.authToken (st m) \/
  exists n p,
    classify (auth_reply w n p) = Granted (WsServer.authToken (st m')).

(** The map built from the fetched items alone. *)
Definition put (newStockMap : jsmap WsServer.mapped_item) (item : obj)
    : jsmap WsServer.mapped_item :=
  map_set (WsServer.trading_code (WsServer.mapItem item))
          (WsServer.mapItem item) newStockMap.
Definition fresh_map (stockData : list obj) : jsmap WsServer.mapped_item :=
  fold_left put stockData [].

(** The sockets a broadcast reaches: the registered ones that are open. *)
Definition recipients (s : WsServer.state) : list nat :=
  List.filter (fun c => WsServer.is_open (WsServer.readyState s c))
              (WsServer.clients s).

(** The message a cycle broadcasts. *)
Definition cycle_message (isInitial : bool)
    (latest : jsmap WsServer.mapped_item) (stockData : list obj) (t : Z)
    : WsServer.message :=
  {| WsServer.msg_type := if isInitial then "stock_data" else "stock_update";
     WsServer.msg_data :=
       if isInitial then map_values (fresh_map stockData)
       else snd (WsServer.scan isInitial latest stockData);
     WsServer.msg_timestamp := t |}.


(** Two machines with the same sent messages, stored map and sockets. *)
Definition same_hub (m m' : machine WsServer.state WsServer.output) : Prop :=
  outs m' = outs m /\
  WsServer.latestStockMap (st m') = WsServer.latestStockMap (st m) /\
  WsServer.clients (st m') = WsServer.clients (st m) /\
  WsServer.readyState (st m') = WsServer.readyState (st m).

(** What the fetch of a cycle started on [m] comes to: the records of the
    fetched array, or [None] when no token could be had, when
    [getAllStockCompanies] returns null, or when the array holds a null
    element. *)
Definition records_of (fetched : option array) : option (list obj) :=
  match fetched with
  | Some (Records items) => Some items
  | _ => None
  end.
Definition cycle_fetch (w : world) (m : machine WsServer.state WsServer.output)
    : option (list obj) :=
  let r := run w WsServer.ensure_token m in
  if fst r
  then records_of
         (fst (run w (WsServer.getAllStockCompanies
                        (WsServer.authToken (st (snd r))) 5) (snd r)))
  else None.

(** The machine just before a cycle publishes, or gives up. *)
Definition before_publish (w : world)
    (m : machine WsServer.state WsServer.output)
    : machine WsServer.state WsServer.output :=
  let r := run w WsServer.ensure_token m in
  if fst r
  then snd (run w (WsServer.getAllStockCompanies
                     (WsServer.authToken (st (snd r))) 5) (snd r))
  else snd r.

(** The record has a stock code, and the key it is stored under. *)
Definition keyed (stock : obj) : bool := truthy (IoServer.stockCode stock).
Definition key_of (stock : obj) : string :=
  to_property_key (IoServer.stockCode stock).

(** One turn of the socket.io server's [forEach], on the variables and the
    updates. *)
Definition io_visit (acc : IoServer.state * list obj) (stock : obj)
    : IoServer.state * list obj :=
  if negb (keyed stock) then acc
  else if IoServer.hasUpdate (IoServer.lookup (fst acc) (key_of stock)) stock
       then (IoServer.assign (key_of stock) stock (fst acc),
             snd acc ++ [stock])
       else acc.
Definition io_scan (s : IoServer.state) (stockData updates : list obj)
    : IoServer.state * list obj :=
  fold_left io_visit stockData (s, updates).

(** No keyless record in what is sent or stored. *)
Definition clean_message (msg : IoServer.io_message) : Prop :=
  match msg with
  | IoServer.StockUpdates records => Forall (fun r => keyed r = true) records
  | _ => True
  end.
Definition clean_output (o : IoServer.output) : Prop :=
  match o with
  | IoServer.IoEmit msg => clean_message msg
  | IoServer.SocketEmit _ msg => clean_message msg
  end.
Definition clean (m : machine IoServer.state IoServer.output) : Prop :=
  map_Forall (fun _ r => keyed r = true) (IoServer.previousStockData (st m)) /\
  Forall clean_output (outs m).

(** Two machines with the same store (its properties, their order and its
    prototype) and the same last fetch time. *)
Definition same_store (m m' : machine IoServer.state IoServer.output) : Prop :=
  IoServer.previousStockData (st m') = IoServer.previousStockData (st m) /\
  IoServer.propertyOrder (st m') = IoServer.propertyOrder (st m) /\
  IoServer.prototype (st m') = IoServer.prototype (st m) /\
  IoServer.lastFetchTime (st m') = IoServer.lastFetchTime (st m).

(** The socket.io server's token is the one [m] held, or null, or one found
    in an answer of the upstream. *)
Definition io_token_kept_or_granted (w : world)
    (m m' : machine IoServer.state IoServer.output) : Prop :=
  IoServer.authToken (st m') = IoServer.authToken (st m) \/
  IoServer.authToken (st m') = VNull \/
  exists n p response,
    auth_reply w n p = Resolved response /\
    IoServer.authToken (st m') = IoServer.find_token response.





(** The events whose handlers keep [inv]. *)
Definition event_ok (inv : WsServer.state -> Prop) (e : WsServer.event)
    : Prop :=
  match e with
  | WsServer.Connect ws =>
      forall s, inv s ->
        inv (WsServer.set_clients (WsServer.set_add ws (WsServer.clients s)) s)
  | WsServer.Close ws => forall s, inv s -> inv (WsServer.on_close ws s)
  | WsServer.Error ws => forall s, inv s -> inv (WsServer.on_error ws s)
  | WsServer.SocketState ws r =>
      forall s, inv s -> inv (WsServer.set_readyState ws r s)
  | _ => True
  end.

(** The output is not a message to socket [c]; socket [c] is not in the
    registry. *)
Definition not_to (c : nat) (o : WsServer.output) : Prop :=
  match o with
  | WsServer.Send c' _ => c' <> c
  end.
Definition unregistered (c : nat) (s : WsServer.state) : Prop :=
  ~ In c (WsServer.clients s).

(** The records the WebSocket server takes from a body: an array without a
    null element as it is, an object or a truthy primitive as the one
    element. *)
Definition taken (data : body) (items : list obj) : Prop :=
  match data with
  | BArray (Records records) => items = records
  | BObject o _ => items = [o]
  | BPrimitive v => truthy v = true /\ items = [∅]
  | _ => False
  end.

(** The upstream [w] answers some stock request with [items]. *)
Definition fetched_from (w : world) (items : list obj) : Prop :=
  exists n token response,
    stock_reply w n token = Resolved response /\
    taken (stock_data response) items.

(** The stored map is the empty map of the start, or the map built from
    the items of one answer of the upstream [w], and from nothing else. *)
Definition fetched_whole (w : world) (s : WsServer.state) : Prop :=
  WsServer.latestStockMap s = [] \/
  exists items,
    fetched_from w items /\ WsServer.latestStockMap s = fresh_map items.

(** The socket is registered. *)
Definition registered (c : nat) (s : WsServer.state) : Prop :=
  In c (WsServer.clients s).

(** No array in the body has a null element. *)
Definition null_free (data : body) : Prop :=
  match data with
  | BArray (RecordsThenNull _) => False
  | BObject _ (Some (RecordsThenNull _)) => False
  | _ => True
  end.

(** [n] calls of [p] made one after the other, none of them resumed yet. *)
Fixpoint concurrently {St Out A} (n : nat) (p : prog St Out A)
    (l : loop St Out A) : loop St Out A :=
  match n with
  | O => l
  | S n' => spawn p (concurrently n' p l)
  end.

End Vocab.

(** ** Concrete upstreams and servers, for the examples *)

Module Examples.
Import Js Upstream Async Vocab.

Definition timeout_error : js_error :=
  {| err_code := Some "ETIMEDOUT"; err_status := None;
     err_message := "timeout of 60000ms exceeded" |}.
Definition error_401 : js_error :=
  {| err_code := Some "ERR_BAD_REQUEST"; err_status := Some 401;
     err_message := "Request failed with status code 401" |}.

(** An authentication response granting [token]. *)
Definition grant (token : string) : auth_response :=
  {| auth_status := 200; result_code := Some (VStr "200");
     result_token := Some (VStr token); data_token := VUndefined;
     top_token := VUndefined; plain_token := VUndefined |}.

(** An upstream item. *)
Definition item (code : string) (price chg pct : Z) : obj :=
  {[ "dseCompanyCode" := VStr code; "ycp" := VNum price;
     "mktValueChange" := VNum chg; "mktValChangePercentage" := VNum pct ]}.

(** Every request times out. *)
Definition always_timeout : world :=
  {| auth_reply := fun _ _ => Rejected timeout_error;
     stock_reply := fun _ _ => Rejected timeout_error |}.

(** Authentication is granted at once; every stock request is answered 401. *)
Definition always_401 : world :=
  {| auth_reply := fun _ _ => Resolved (grant "fresh");
     stock_reply := fun _ _ => Rejected error_401 |}.

(** Authentication is granted at once; the stock request returns [items]. *)
Definition serving (items : list obj) : world :=
  {| auth_reply := fun _ _ => Resolved (grant "fresh");
     stock_reply := fun _ _ =>
       Resolved {| stock_status := 200;
                   stock_data := BArray (Records items) |} |}.

(** The WebSocket server just started, and with a token. *)
Definition ws0 : machine WsServer.state WsServer.output :=
  mach (WsServer.boot (fun _ => WsServer.OPEN) 0).
Definition ws_with_token : machine WsServer.state WsServer.output :=
  set_st (WsServer.set_authToken (VStr "tok") (st ws0)) ws0.

(** A raw record as the socket.io server reads it. *)
Definition quote (code : string) (price chg pct : Z) : obj :=
  {[ "trading_code" := VStr code; "last_trading_price" := VNum price;
     "change" := VNum chg; "change_percent" := VNum pct ]}.

(** The socket.io server holding one record. *)
Definition io_holding (stock : obj) : machine IoServer.state IoServer.output :=
  set_st (IoServer.assign (key_of stock) stock (st (IoServer.boot 0)))
         (IoServer.boot 0).

(** The WebSocket server with a token, holding [items], with socket 1
    registered and open. *)
Definition ws_serving (items : list obj)
    : machine WsServer.state WsServer.output :=
  set_st {| WsServer.authToken := VStr "tok";
            WsServer.latestStockMap := fresh_map items;
            WsServer.clients := [1%nat];
            WsServer.readyState := fun _ => WsServer.OPEN |} ws0.

(** The stock request returns an empty body. *)
Definition no_data : world :=
  {| auth_reply := fun _ _ => Resolved (grant "fresh");
     stock_reply := fun _ _ =>
       Resolved {| stock_status := 200; stock_data := BNone |} |}.

(** An idle event loop on machine [m]. *)
Definition idle {St Out A} (m : machine St Out) : loop St Out A :=
  {| mach := m; next_id := 0; waiting := []; finished := [] |}.

(** The first authentication request is granted, the later ones fail. *)
Definition grant_first : world :=
  {| auth_reply := fun n _ =>
       if (n =? 0)%nat then Resolved (grant "fresh")
       else Rejected {| err_code := Some "ERR_BAD_RESPONSE";
                        err_status := Some 500;
                        err_message := "Request failed with status code 500" |};
     stock_reply := fun _ _ => Rejected timeout_error |}.

End Examples.

(** ** The routes of the WebSocket server *)

Module WsRoutes.
Import Js Upstream Async WsServer.

(** What a route answers the HTTP client. *)
Inductive response : Type :=
| AuthSuccess (token : value)       (* 200, status "success" *)
| AuthFailure                       (* 401, "Authentication failed" *)
| StockSuccess (data : list mapped_item) (timestamp : Z)
                                    (* 200, status "success" *)
| StockFailure                      (* 500, "Failed to fetch stock data" *)
| InternalError (message : string)  (* 500, "Internal server error" *)
| NoStockData.                      (* 404, "No stock data available yet" *)

(** The record GET /api/stock builds for an item: its price is the item's
    [mktValue]. *)
Definition mapRouteItem (item : obj) : mapped_item :=
  {| trading_code := prop item "dseCompanyCode";
     last_trading_price := prop item "mktValue";
     change := prop item "mktValueChange";
     change_percent := prop item "mktValChangePercentage";
     indicator := if ge_zero (prop item "mktValueChange")
                  then "Up" else "Down" |}.

(** POST /api/auth *)
Definition post_api_auth : handler response :=
  token <- getIDLCAuthToken 5 ;;
  if truthy token then Ret (AuthSuccess token) else Ret AuthFailure.

(** GET /api/stock *)
Definition get_api_stock : handler response :=
  s <- read ;;
  (if truthy (authToken s) then Ret tt
   else getIDLCAuthToken 5 ;;; Ret tt) ;;;
  s <- read ;;
  stockData <- getAllStockCompanies (authToken s) 5 ;;
  match stockData with
  | Some (Records stockData) =>
      t <- now ;; Ret (StockSuccess (map mapRouteItem stockData) t)
  | Some (RecordsThenNull _) =>
      Ret (InternalError
             "Cannot read properties of null (reading 'dseCompanyCode')")
  | None => Ret StockFailure
  end.

(** GET /api/latest-stock *)
Definition get_api_latest_stock : handler response :=
  s <- read ;;
  if (0 <? map_size (latestStockMap s))%nat then
    t <- now ;; Ret (StockSuccess (map_values (latestStockMap s)) t)
  else Ret NoStockData.

End WsRoutes.

(** ** The socket.io server's HTTP routes (part_001) *)

Module IoRoutes.
Import Js Upstream Async IoServer.

(** What a route answers: [res.json] with status "success", or status 500
    with a message. *)
Inductive response : Type :=
| AuthSuccess (token : string)
| ServerError (message : string).

(** [app.post('/auth')]: the token is refreshed whatever is cached, and the
    first 20 characters of it are shown. A token that is no string has no
    [substring]: the call throws and the catch block answers. *)
Definition post_auth : handler response :=
  token <- getAuthToken true ;;
  if truthy token then
    match token with
    | VStr s => Ret (AuthSuccess (String.substring 0 20 s ++ "..."))
    | _ => Ret (ServerError "token.substring is not a function")
    end
  else Ret (ServerError "Authentication failed").

End IoRoutes.

(** ** The earlier WebSocket server (part_000, first program)

    The file holds two programs. The earlier one keeps the last mapped
    array in [latestStockData] and broadcasts it whole; it retries three
    times, waits [2000 * attempt] ms, and retries on ETIMEDOUT and
    ECONNRESET only. *)

Module Legacy.
Import Js Upstream Async.

(** The server's variables; [latestStockData] is null until a fetch
    succeeds. *)
Record state : Type := {
  authToken : value;
  latestStockData : option (list WsServer.mapped_item);
  clients : list nat;
  readyState : nat -> WsServer.ready_state
}.

Definition set_authToken (token : value) (s : state) : state :=
  {| authToken := token; latestStockData := latestStockData s;
     clients := clients s; readyState := readyState s |}.
Definition set_latestStockData (d : option (list WsServer.mapped_item))
    (s : state) : state :=
  {| authToken := authToken s; latestStockData := d;
     clients := clients s; readyState := readyState s |}.
Definition set_clients (cs : list nat) (s : state) : state :=
  {| authToken := authToken s; latestStockData := latestStockData s;
     clients := cs; readyState := readyState s |}.

Abbreviation handler := (prog state WsServer.output).

(** [error.code] is ETIMEDOUT or ECONNRESET. *)
Definition transient (error : js_error) : bool :=
  match err_code error with
  | Some c => String.eqb c "ETIMEDOUT" || String.eqb c "ECONNRESET"
  | None => false
  end.

(** [2000 * attempt] *)
Definition backoff (attempt : nat) : Z := 2000 * Z.of_nat attempt.

(** The body of [getIDLCAuthToken]'s loop, over the attempts still to
    make. *)
Fixpoint auth_attempts (attempts : list nat) (retryCount : nat)
    : handler value :=
  match attempts with
  | [] => Ret VNull
  | attempt :: rest =>
      r <- await (AuthPost WrappedCredentials) ;;
      match r with
      | Resolved response =>
          match result_code response with
          | None => Ret VNull
          | Some code =>
              if strict_eq code (VStr "200") then
                match result_token response with
                | None => Ret VNull
                | Some token =>
                    modify (set_authToken token) ;;; Ret token
                end
              else
                (if (attempt <? retryCount)%nat
                 then await (Sleep (backoff attempt)) else Ret tt) ;;;
                auth_attempts rest retryCount
          end
      | Rejected error =>
          if transient error && (attempt <? retryCount)%nat
          then await (Sleep (backoff attempt)) ;;;
               auth_attempts rest retryCount
          else Ret VNull
      end
  end.

Definition getIDLCAuthToken (retryCount : nat) : handler value :=
  auth_attempts (seq 1 retryCount) retryCount.

(** The body of [getAllStockCompanies]'s loop. *)
Fixpoint stock_attempts (attempts : list nat) (retryCount : nat)
    (token : value) : handler (option array) :=
  match attempts with
  | [] => Ret None
  | attempt :: rest =>
      r <- await (StockGet token) ;;
      match r with
      | Resolved response =>
          match WsServer.as_array (stock_data response) with
          | Some items => Ret (Some items)
          | None =>
              if (attempt <? retryCount)%nat
              then stock_attempts rest retryCount token
              else Ret None
          end
      | Rejected error =>
          if transient error || WsServer.is_401 error then
            token' <- (if WsServer.is_401 error
                       then getIDLCAuthToken 3 ;;;
                            s <- read ;; Ret (authToken s)
                       else Ret token) ;;
            if (attempt <? retryCount)%nat
            then await (Sleep (backoff attempt)) ;;;
                 stock_attempts rest retryCount token'
            else Ret None
          else Ret None
      end
  end.

Definition getAllStockCompanies (token : value) (retryCount : nat)
    : handler (option array) :=
  if truthy token
  then stock_attempts (seq 1 retryCount) retryCount token
  else Ret None.

(** [clients.forEach] *)
Fixpoint send_each (cs : list nat) (ready : nat -> WsServer.ready_state)
    (msg : WsServer.message) : handler unit :=
  match cs with
  | [] => Ret tt
  | client :: rest =>
      (if WsServer.is_open (ready client)
       then emit (WsServer.Send client msg) else Ret tt) ;;;
      send_each rest ready msg
  end.

(** The part of [fetchAndBroadcastStockData] under [if (stockData)]: the
    mapped array is stored and sent whole. *)
Definition publish (stockData : list obj)
    : handler (list WsServer.mapped_item) :=
  let mappedData := map WsServer.mapItem stockData in
  modify (set_latestStockData (Some mappedData)) ;;;
  t <- now ;;
  s <- read ;;
  send_each (clients s) (readyState s)
    {| WsServer.msg_type := "stock_data";
       WsServer.msg_data := mappedData;
       WsServer.msg_timestamp := t |} ;;;
  Ret mappedData.

Definition ensure_token : handler bool :=
  s <- read ;;
  if truthy (authToken s) then Ret true
  else token <- getIDLCAuthToken 3 ;; Ret (truthy token).

(** [fetchAndBroadcastStockData]: the mapped array, or nothing (the source
    returns undefined with no token and null with no data; on a null
    element [stockData.map] throws before anything is stored or sent). *)
Definition fetchAndBroadcastStockData
    : handler (option (list WsServer.mapped_item)) :=
  ok <- ensure_token ;;
  if ok then
    s <- read ;;
    stockData <- getAllStockCompanies (authToken s) 3 ;;
    match stockData with
    | Some (Records stockData) =>
        mappedData <- publish stockData ;; Ret (Some mappedData)
    | Some (RecordsThenNull _) => Ret None
    | None => Ret None
    end
  else Ret None.

(** [wss.on("connection")] *)
Definition on_connection (ws : nat) : handler unit :=
  modify (fun s => set_clients (WsServer.set_add ws (clients s)) s) ;;;
  s <- read ;;
  match latestStockData s with
  | Some data =>
      t <- now ;;
      emit (WsServer.Send ws {| WsServer.msg_type := "stock_data";
                                WsServer.msg_data := data;
                                WsServer.msg_timestamp := t |})
  | None => fetchAndBroadcastStockData ;;; Ret tt
  end.

(** GET /api/latest-stock *)
Definition get_api_latest_stock : handler WsRoutes.response :=
  s <- read ;;
  match latestStockData s with
  | Some data => t <- now ;; Ret (WsRoutes.StockSuccess data t)
  | None => Ret WsRoutes.NoStockData
  end.

(** The server as the process starts. *)
Definition boot (ready : nat -> WsServer.ready_state) (t0 : Z)
    : machine state WsServer.output :=
  {| st := {| authToken := VNull; latestStockData := None;
              clients := []; readyState := ready |};
     outs := []; clock := t0; issued := [] |}.

End Legacy.

(** ** Further vocabulary *)

Module Notions.
Import Js Upstream Async Vocab.

(** The time [getIDLCAuthToken] has waited after [k] failed attempts numbered
    from [from]: the sum of [5000 * attempt] over them. *)
Definition waited (from k : nat) : Z :=
  2500 * Z.of_nat k * (2 * Z.of_nat from + Z.of_nat k - 1).

(** The requests of [k] stock attempts with [token] numbered from [from] that
    failed on a transient error, each followed by its wait. *)
Definition stock_schedule (token : value) (from k : nat) : list request :=
  flat_map (fun attempt =>
              [ReqStock token; ReqSleep (5000 * Z.of_nat attempt)])
           (seq from k).

(** The stock request failed on a timeout, a reset or an abort, with no 401
    response; and it was answered with an empty body. *)
Definition timed_out (o : outcome stock_response) : bool :=
  match o with
  | Rejected error => WsServer.transient error && negb (WsServer.is_401 error)
  | Resolved _ => false
  end.
Definition empty_body (o : outcome stock_response) : bool :=
  match o with
  | Resolved response =>
      match WsServer.as_array (stock_data response) with
      | None => true
      | Some _ => false
      end
  | Rejected _ => false
  end.

(** The code an upstream item is stored under, and the codes of an array. *)
Definition code_of (item : obj) : value :=
  WsServer.trading_code (WsServer.mapItem item).
Definition codes (stockData : list obj) : list value := map code_of stockData.

(** The last item of the array that carries code [k]. *)
Fixpoint last_with (k : value) (stockData : list obj) : option obj :=
  match stockData with
  | [] => None
  | item :: rest =>
      match last_with k rest with
      | Some later => Some later
      | None => if strict_eq (code_of item) k then Some item else None
      end
  end.

(** The keys of a map are distinct and every record sits under its own
    trading code. *)
Definition well_keyed (latest : jsmap WsServer.mapped_item) : Prop :=
  NoDup (map fst latest) /\
  Forall (fun entry => WsServer.trading_code (snd entry) = fst entry) latest.

(** A message was sent to socket [c]. *)
Definition sent_to (c : nat) (log : list WsServer.output) : Prop :=
  exists msg, In (WsServer.Send c msg) log.

(** What GET /api/stock fetches, and the machine the fetch leaves: a token
    is requested first when none is stored, and the fetch goes on with
    whatever is stored then. *)
Definition route_authenticated (w : world)
    (m : machine WsServer.state WsServer.output)
    : machine WsServer.state WsServer.output :=
  if truthy (WsServer.authToken (st m)) then m
  else snd (run w (WsServer.getIDLCAuthToken 5) m).
Definition route_fetch (w : world)
    (m : machine WsServer.state WsServer.output)
    : option array * machine WsServer.state WsServer.output :=
  run w (WsServer.getAllStockCompanies
           (WsServer.authToken (st (route_authenticated w m))) 5)
      (route_authenticated w m).

(** The lifetime [getAuthToken] gives a token: 55 minutes, in ms. *)
Definition token_lifetime : Z := 55 * 60 * 1000.

(** The response grants a token as [getAuthToken] reads it. *)
Definition grants (o : outcome auth_response) : bool :=
  match o with
  | Resolved response =>
      (auth_status response =? 200)
      && truthy (IoServer.find_token response)
  | Rejected _ => false
  end.

(** The two 'auth-status' emissions of [getAuthToken]. *)
Definition authenticated_at (t : Z) : IoServer.output :=
  IoServer.IoEmit (IoServer.AuthStatus "authenticated" None t).
Definition auth_error_at (message : string) (t : Z) : IoServer.output :=
  IoServer.IoEmit (IoServer.AuthStatus "error" (Some message) t).

(** What the loop over [formats], started on [m], has done when it ends in
    [r] after [k] requests: the requests are the first [k] formats, the
    last of them alone may have granted a token, and either the token is
    stored with its expiry and announced, or the variables are as they
    were and the error is announced. *)
Definition tried (w : world) (formats : list payload)
    (m : machine IoServer.state IoServer.output)
    (r : value * machine IoServer.state IoServer.output) (k : nat) : Prop :=
  (k <= length formats)%nat /\
  issued (snd r) = issued m ++ map ReqAuth (firstn k formats) /\
  clock (snd r) = clock m /\
  (forall j format, (j < k)%nat -> nth_error formats j = Some format ->
     grants (auth_reply w (length (issued m) + j) format)
     = truthy (fst r) && (k =? S j)%nat) /\
  ((truthy (fst r) = true /\ (1 <= k)%nat /\
    st (snd r)
    = IoServer.set_session (fst r) (Some (clock m + token_lifetime)) (st m) /\
    outs (snd r) = outs m ++ [authenticated_at (clock m)]) \/
   (fst r = VNull /\ k = length formats /\ st (snd r) = st m /\
    exists message, outs (snd r) = outs m ++ [auth_error_at message (clock m)])).

(** Every record of the store is held under its own code. *)
Definition own_keys (store : gmap string obj) : Prop :=
  map_Forall (fun k r => key_of r = k) store.

(** No 'stock-updates' emission carries an empty array. *)
Definition carries_records (o : IoServer.output) : Prop :=
  match o with
  | IoServer.IoEmit (IoServer.StockUpdates records) => records <> []
  | IoServer.SocketEmit _ (IoServer.StockUpdates records) => records <> []
  | _ => True
  end.

(** None of the fetched records is an update of what is stored. *)
Definition settled (s : IoServer.state) (stockData : list obj) : Prop :=
  forall stock, In stock stockData -> keyed stock = true ->
    IoServer.hasUpdate (IoServer.lookup s (key_of stock)) stock = false.

(** Two machines of the earlier server with the same sent messages, stored
    array and sockets. *)
Definition legacy_hub (m m' : machine Legacy.state WsServer.output) : Prop :=
  outs m' = outs m /\
  Legacy.latestStockData (st m') = Legacy.latestStockData (st m) /\
  Legacy.clients (st m') = Legacy.clients (st m) /\
  Legacy.readyState (st m') = Legacy.readyState (st m).

(** What the fetch of a cycle of the earlier server comes to, and the
    machine it leaves. *)
Definition legacy_fetch (w : world) (m : machine Legacy.state WsServer.output)
    : option (list obj) :=
  let r := run w Legacy.ensure_token m in
  if fst r
  then records_of
         (fst (run w (Legacy.getAllStockCompanies
                        (Legacy.authToken (st (snd r))) 3) (snd r)))
  else None.
Definition legacy_fetched (w : world)
    (m : machine Legacy.state WsServer.output)
    : machine Legacy.state WsServer.output :=
  let r := run w Legacy.ensure_token m in
  if fst r
  then snd (run w (Legacy.getAllStockCompanies
                     (Legacy.authToken (st (snd r))) 3) (snd r))
  else snd r.

(** The sockets a broadcast of the earlier server reaches. *)
Definition legacy_recipients (s : Legacy.state) : list nat :=
  List.filter (fun c => WsServer.is_open (Legacy.readyState s c))
              (Legacy.clients s).

End Notions.

(** ** Further examples *)

Module Cases.
Import Js Upstream Async Vocab Examples Notions.

(** The first [j] authentication attempts time out, the next is granted.
    (Attempt [i] is the request issued with [2 * i] requests before it.) *)
Definition flaky (j : nat) : world :=
  {| auth_reply := fun n _ =>
       if (n <? 2 * j)%nat then Rejected timeout_error
       else Resolved (grant "fresh");
     stock_reply := fun _ _ => Rejected timeout_error |}.

(** The socket.io server as it starts at time [t0]. *)
Definition io_at (t0 : Z) : machine IoServer.state IoServer.output :=
  IoServer.boot t0.

(** The earlier server with a token and socket 1 open, holding [data]. *)
Definition legacy_with (data : option (list WsServer.mapped_item))
    : machine Legacy.state WsServer.output :=
  {| st := {| Legacy.authToken := VStr "tok";
              Legacy.latestStockData := data;
              Legacy.clients := [1%nat];
              Legacy.readyState := fun _ => WsServer.OPEN |};
     outs := []; clock := 0; issued := [] |}.

(** The WebSocket server with a token, holding [items], with sockets 1
    and 2 registered, of which socket 1 is closed. *)
Definition ws_one_closed (items : list obj)
    : machine WsServer.state WsServer.output :=
  set_st {| WsServer.authToken := VStr "tok";
            WsServer.latestStockMap := fresh_map items;
            WsServer.clients := [1%nat; 2%nat];
            WsServer.readyState :=
              fun c => if (c =? 1)%nat then WsServer.CLOSED
                       else WsServer.OPEN |} ws0.

(** Authentication is granted at once; the stock request returns an array
    with a null element after [before]. *)
Definition serving_null_after (before : list obj) : world :=
  {| auth_reply := fun _ _ => Resolved (grant "fresh");
     stock_reply := fun _ _ =>
       Resolved {| stock_status := 200;
                   stock_data := BArray (RecordsThenNull before) |} |}.

(** Authentication is granted at once; every stock request times out. *)
Definition granted_then_timeout : world :=
  {| auth_reply := fun _ _ => Resolved (grant "fresh");
     stock_reply := fun _ _ => Rejected timeout_error |}.

(** Authentication is granted at once; the stock request is answered 200
    with the body [data]. *)
Definition answering (data : body) : world :=
  {| auth_reply := fun _ _ => Resolved (grant "fresh");
     stock_reply := fun _ _ =>
       Resolved {| stock_status := 200; stock_data := data |} |}.

(** Every stock request is answered 401 and every authentication request
    500. *)
Definition locked_out : world :=
  {| auth_reply := fun _ _ =>
       Rejected {| err_code := Some "ERR_BAD_RESPONSE";
                   err_status := Some 500;
                   err_message := "Request failed with status code 500" |};
     stock_reply := fun _ _ => Rejected error_401 |}.

(** Every request is aborted by the client's own timeout. *)
Definition aborted_error : js_error :=
  {| err_code := Some "ECONNABORTED"; err_status := None;
     err_message := "timeout of 30000ms exceeded" |}.
Definition always_aborted : world :=
  {| auth_reply := fun _ _ => Rejected aborted_error;
     stock_reply := fun _ _ => Rejected aborted_error |}.

End Cases.

(** * Properties *)

Import Js Upstream Async Vocab Examples Notions Cases.

(** ** Running programs *)

Section RunFacts.
Context {St Out : Type}.
Implicit Types m : machine St Out.

Lemma run_bind {A B} (w : world) (p : prog St Out A) (f : A -> prog St Out B) m :
  run w (bind p f) m = run w (f (fst (run w p m))) (snd (run w p m)).
Proof.
  revert m. induction p as [a|k IH|s k IH|k IH|o k IH|X e k IH];
    intros m; simpl; auto.
Qed.

Lemma advance_bind {A B} (p : prog St Out A) (f : A -> prog St Out B) m :
  advance (bind p f) m =
  match fst (advance p m) with
  | Done a => advance (f a) (snd (advance p m))
  | Blocked e k => (Blocked e (fun x => bind (k x) f), snd (advance p m))
  end.
Proof.
  revert m. induction p as [a|k IH|s k IH|k IH|o k IH|X e k IH];
    intros m; simpl; auto.
Qed.

End RunFacts.

(** ** Authentication with retries (WebSocket server) *)

Section WsAuthFacts.
Import WsServer.
Implicit Types m : machine state output.

Lemma eqb_decide (c d : string) : String.eqb c d = bool_decide (c = d).
Proof.
  destruct (String.eqb_spec c d) as [->|Hne].
  - rewrite bool_decide_eq_true_2; reflexivity.
  - rewrite bool_decide_eq_false_2; [reflexivity|exact Hne].
Qed.

(** The errors [getIDLCAuthToken] tries again after are those with one of
    the three codes. *)
Lemma transient_retried (error : js_error) :
  transient error = retried_code error.
Proof.
  unfold transient, retried_code. destruct (err_code error); [|reflexivity].
  rewrite !eqb_decide. reflexivity.
Qed.

(** One turn of [getIDLCAuthToken]'s loop, by the class of the answer. *)
Lemma run_auth_attempts_cons (w : world) (a : nat) rest rc m :
  run w (auth_attempts (a :: rest) rc) m =
  match classify (auth_reply w (length (issued m)) WrappedCredentials) with
  | Granted token => (token, set_st (set_authToken token (st m)) (posted m))
  | Refused =>
      run w (auth_attempts rest rc)
          (if (a <? rc)%nat then slept a (posted m) else posted m)
  | Transient =>
      if (a <? rc)%nat
      then run w (auth_attempts rest rc) (slept a (posted m))
      else (VNull, posted m)
  | Fatal => (VNull, posted m)
  end.
Proof.
  cbn [auth_attempts]. rewrite run_bind. cbn [await run fst snd answer].
  unfold classify.
  destruct (auth_reply w (length (issued m)) WrappedCredentials)
    as [response|error].
  - destruct (result_code response) as [code|]; [|reflexivity].
    destruct (strict_eq code (VStr "200")).
    + destruct (result_token response) as [token|]; reflexivity.
    + rewrite run_bind. destruct (a <? rc)%nat; reflexivity.
  - rewrite transient_retried.
    destruct (retried_code error); cbn [andb]; [|reflexivity].
    destruct (a <? rc)%nat; [|reflexivity].
    rewrite run_bind. reflexivity.
Qed.

Lemma auth_schedule_cons (a k : nat) :
  auth_schedule a (S k) =
  ReqAuth WrappedCredentials :: ReqSleep (5000 * Z.of_nat a)
  :: auth_schedule (S a) k.
Proof. reflexivity. Qed.

Lemma waited_cons (a k : nat) :
  waited a (S k) = 5000 * Z.of_nat a + waited (S a) k.
Proof. unfold waited. rewrite !Nat2Z.inj_succ. ring. Qed.

(** The loop from attempt [a] on, with [len] attempts left: its requests,
    the time it waited, and its result when every attempt fails in a way
    that is retried. *)
Lemma auth_attempts_schedule (w : world) (rc : nat) :
  forall (len a : nat) m,
    (a + len = S rc)%nat -> (1 <= len)%nat ->
    exists k, (k < len)%nat /\
      issued (snd (run w (auth_attempts (seq a len) rc) m))
      = issued m ++ auth_schedule a k ++ [ReqAuth WrappedCredentials] /\
      clock (snd (run w (auth_attempts (seq a len) rc) m))
      = clock m + waited a k /\
      ((forall i p, retryable (auth_reply w i p) = true) ->
       k = (len - 1)%nat /\
       fst (run w (auth_attempts (seq a len) rc) m) = VNull).
Proof.
  induction len as [|len IH]; intros a m Hsum Hlen; [lia|].
  cbn [seq]. rewrite run_auth_attempts_cons.
  pose proof (fun H : forall i p, retryable (auth_reply w i p) = true =>
                H (length (issued m)) WrappedCredentials) as Hre.
  unfold retryable in Hre.
  assert (Hclock0 : clock (posted m) = clock m + waited a 0).
  { unfold waited. cbn. lia. }
  assert (Hgo : (a <? rc)%nat = true ->
    exists k, (k < S len)%nat /\
      issued (snd (run w (auth_attempts (seq (S a) len) rc)
                         (slept a (posted m))))
      = issued m ++ auth_schedule a k ++ [ReqAuth WrappedCredentials] /\
      clock (snd (run w (auth_attempts (seq (S a) len) rc)
                        (slept a (posted m))))
      = clock m + waited a k /\
      ((forall i p, retryable (auth_reply w i p) = true) ->
       k = (S len - 1)%nat /\
       fst (run w (auth_attempts (seq (S a) len) rc) (slept a (posted m)))
       = VNull)).
  { intros Ha. apply Nat.ltb_lt in Ha.
    destruct (IH (S a) (slept a (posted m))) as (k & Hk & Htr & Hcl & Hall);
      [lia|lia|].
    exists (S k). split; [lia|]. split; [|split].
    - rewrite Htr, auth_schedule_cons.
      cbn [slept posted issued elapse issue request_of].
      rewrite <- !app_assoc. reflexivity.
    - rewrite Hcl, waited_cons. cbn [slept posted clock elapse issue]. lia.
    - intros H. destruct (Hall H) as [-> Hres]. split; [lia|exact Hres]. }
  assert (Hstop : (a <? rc)%nat = false -> len = 0%nat).
  { intros Ha. apply Nat.ltb_ge in Ha. lia. }
  destruct (classify (auth_reply w (length (issued m)) WrappedCredentials))
    as [token| | |].
  - exists 0%nat. split; [lia|]. split; [reflexivity|].
    split; [exact Hclock0|].
    intros H. specialize (Hre H). discriminate.
  - destruct (a <? rc)%nat eqn:Ha; [exact (Hgo eq_refl)|].
    rewrite (Hstop eq_refl). exists 0%nat. split; [lia|].
    split; [reflexivity|]. split; [exact Hclock0|].
    intros _. split; reflexivity.
  - destruct (a <? rc)%nat eqn:Ha; [exact (Hgo eq_refl)|].
    rewrite (Hstop eq_refl). exists 0%nat. split; [lia|].
    split; [reflexivity|]. split; [exact Hclock0|].
    intros _. split; reflexivity.
  - exists 0%nat. split; [lia|]. split; [reflexivity|].
    split; [exact Hclock0|].
    intros H. specialize (Hre H). discriminate.
Qed.

(** C8. [getIDLCAuthToken] with a retry count of [S n] (the server calls it
    with 5) always returns, after at most [S n] authentication requests: the
    requests it issues are [k <= n] failed attempts, attempt [a] followed by
    a wait of [5000 * a] ms, and one last attempt, so that it has waited
    [5000 * (1 + ... + k)] ms in all. When every attempt fails in a way
    that is retried (ETIMEDOUT, ECONNRESET, ECONNABORTED, or an explicit
    result code other than "200"), all [S n] attempts are made and the
    result is null. *)
Theorem getIDLCAuthToken_bounded_backoff (w : world) m (n : nat) :
  exists k, (k <= n)%nat /\
    issued (snd (run w (getIDLCAuthToken (S n)) m))
    = issued m
      ++ flat_map (fun attempt =>
                     [ReqAuth WrappedCredentials;
                      ReqSleep (5000 * Z.of_nat attempt)]) (seq 1 k)
      ++ [ReqAuth WrappedCredentials] /\
    clock (snd (run w (getIDLCAuthToken (S n)) m))
    = clock m + 2500 * Z.of_nat k * (Z.of_nat k + 1) /\
    ((forall i p, retryable (auth_reply w i p) = true) ->
     k = n /\ fst (run w (getIDLCAuthToken (S n)) m) = VNull).
Proof.
  unfold getIDLCAuthToken.
  destruct (auth_attempts_schedule w (S n) (S n) 1 m)
    as (k & Hk & Htr & Hcl & Hall); [lia|lia|].
  exists k. split; [lia|]. split; [exact Htr|]. split.
  - rewrite Hcl. unfold waited. lia.
  - intros H. destruct (Hall H) as [-> Hres]. split; [lia|exact Hres].
Qed.

Lemma getIDLCAuthToken_bounded_backoff_witness :
  issued (snd (run always_timeout (getIDLCAuthToken 5) ws0))
  = [ReqAuth WrappedCredentials; ReqSleep 5000;
     ReqAuth WrappedCredentials; ReqSleep 10000;
     ReqAuth WrappedCredentials; ReqSleep 15000;
     ReqAuth WrappedCredentials; ReqSleep 20000;
     ReqAuth WrappedCredentials] /\
  clock (snd (run always_timeout (getIDLCAuthToken 5) ws0)) = 50000 /\
  fst (run always_timeout (getIDLCAuthToken 5) ws0) = VNull.
Proof.
  destruct (getIDLCAuthToken_bounded_backoff always_timeout ws0 4)
    as (k & Hk & Htr & Hcl & Hall).
  destruct Hall as [-> Hres]; [intros i p; reflexivity|].
  split; [exact Htr|]. split; [exact Hcl|exact Hres].
Defined.

End WsAuthFacts.

(** ** Fetching with retries (WebSocket server) *)

Section WsFetchFacts.
Import WsServer.
Implicit Types m : machine state output.

(** One turn of [getAllStockCompanies]'s loop. *)
Lemma run_stock_attempts_cons (w : world) (a : nat) rest rc token m :
  run w (stock_attempts (a :: rest) rc token) m =
  match stock_reply w (length (issued m)) token with
  | Resolved response =>
      match as_array (stock_data response) with
      | Some items => (Some items, got token m)
      | None =>
          if (a <? rc)%nat
          then run w (stock_attempts rest rc token) (got token m)
          else (None, got token m)
      end
  | Rejected error =>
      if transient error || is_401 error then
        let m' := reauthenticated w error (got token m) in
        let token' := if is_401 error then authToken (st m') else token in
        if (a <? rc)%nat
        then run w (stock_attempts rest rc token') (slept a m')
        else (None, m')
      else (None, got token m)
  end.
Proof.
  cbn [stock_attempts]. rewrite run_bind. cbn [await run fst snd answer].
  destruct (stock_reply w (length (issued m)) token) as [response|error].
  - destruct (as_array (stock_data response)); [reflexivity|].
    destruct (a <? rc)%nat; reflexivity.
  - destruct (transient error || is_401 error); [|reflexivity].
    rewrite run_bind. unfold reauthenticated.
    destruct (is_401 error).
    + rewrite run_bind. cbn [read run fst snd].
      destruct (a <? rc)%nat; [|reflexivity].
      rewrite run_bind. reflexivity.
    + cbn [run fst snd]. destruct (a <? rc)%nat; [|reflexivity].
      rewrite run_bind. reflexivity.
Qed.


Lemma auth_requests_app l1 l2 :
  auth_requests (l1 ++ l2) = (auth_requests l1 + auth_requests l2)%nat.
Proof. unfold auth_requests. rewrite List.filter_app, length_app. reflexivity. Qed.






End WsFetchFacts.

(** ** The diff and the broadcast (WebSocket server) *)

Section WsPublishFacts.
Import WsServer.
Implicit Types m : machine state output.

Lemma scan_acc (isInitial : bool) latest stockData acc :
  fold_left (visit isInitial latest) stockData acc =
  (fold_left put stockData (fst acc),
   snd acc ++ List.filter (hasUpdate isInitial latest) (map mapItem stockData)).
Proof.
  revert acc. induction stockData as [|item rest IH]; intros [newMap updates].
  - cbn. rewrite app_nil_r. reflexivity.
  - cbn [fold_left map List.filter]. rewrite IH. unfold visit. cbn [fst snd].
    destruct (hasUpdate isInitial latest (mapItem item)).
    + rewrite <- app_assoc. reflexivity.
    + reflexivity.
Qed.

Lemma scan_map (isInitial : bool) latest stockData :
  fst (scan isInitial latest stockData) = fresh_map stockData.
Proof. unfold scan. rewrite scan_acc. reflexivity. Qed.

Lemma scan_updates (isInitial : bool) latest stockData :
  snd (scan isInitial latest stockData)
  = List.filter (hasUpdate isInitial latest) (map mapItem stockData).
Proof. unfold scan. rewrite scan_acc. reflexivity. Qed.



Lemma run_send_each (w : world) cs ready msg m :
  run w (send_each cs ready msg) m =
  (tt, {| st := st m;
          outs := outs m ++ map (fun c => Send c msg)
                                (List.filter (fun c => is_open (ready c)) cs);
          clock := clock m; issued := issued m |}).
Proof.
  revert m. induction cs as [|c rest IH]; intros m.
  - cbn. rewrite app_nil_r. destruct m; reflexivity.
  - cbn [send_each List.filter]. rewrite run_bind.
    destruct (is_open (ready c)); cbn [emit run fst snd]; rewrite IH.
    + cbn. rewrite <- app_assoc. reflexivity.
    + reflexivity.
Qed.

Lemma run_broadcast (w : world) msg m :
  run w (broadcast msg) m =
  (tt, {| st := st m;
          outs := outs m ++ map (fun c => Send c msg) (recipients (st m));
          clock := clock m; issued := issued m |}).
Proof.
  unfold broadcast. rewrite run_bind. cbn [read run fst snd].
  apply run_send_each.
Qed.

Lemma run_publish (w : world) (isInitial : bool) stockData m :
  run w (publish isInitial stockData) m =
  (tt, {| st := set_latestStockMap (fresh_map stockData) (st m);
          outs := outs m ++
            if (0 <? length (snd (scan isInitial (latestStockMap (st m)) stockData)))%nat
               || isInitial
            then map (fun c => Send c (cycle_message isInitial (latestStockMap (st m))
                                         stockData (clock m)))
                     (recipients (st m))
            else [];
          clock := clock m; issued := issued m |}).
Proof.
  unfold publish. rewrite run_bind. cbn [read run fst snd].
  rewrite run_bind. cbn [modify run fst snd set_st st].
  rewrite scan_map.
  destruct ((0 <? length (snd (scan isInitial (latestStockMap (st m)) stockData)))%nat
            || isInitial).
  - rewrite run_bind. cbn [now run fst snd clock]. rewrite run_broadcast.
    unfold cycle_message. cbn. destruct isInitial; reflexivity.
  - cbn. rewrite app_nil_r. reflexivity.
Qed.

End WsPublishFacts.

(** ** The poll cycle (WebSocket server) *)

Section WsCycleFacts.
Import WsServer.
Implicit Types m : machine state output.

Lemma same_hub_refl m : same_hub m m.
Proof. repeat split. Qed.

Lemma same_hub_trans m1 m2 m3 :
  same_hub m1 m2 -> same_hub m2 m3 -> same_hub m1 m3.
Proof.
  intros (A1 & A2 & A3 & A4) (B1 & B2 & B3 & B4).
  repeat split; congruence.
Qed.

Lemma same_hub_posted m : same_hub m (posted m).
Proof. repeat split. Qed.
Lemma same_hub_slept a m : same_hub m (slept a m).
Proof. repeat split. Qed.
Lemma same_hub_got token m : same_hub m (got token m).
Proof. repeat split. Qed.
Lemma same_hub_token token m m' :
  same_hub m m' -> same_hub m (set_st (set_authToken token (st m')) m').
Proof. intros (A1 & A2 & A3 & A4). repeat split; assumption. Qed.

Create HintDb hub.
#[local] Hint Resolve same_hub_refl same_hub_posted same_hub_slept same_hub_got : hub.

(** Authenticating sends nothing and leaves the stored map and the sockets
    alone. *)
Lemma auth_attempts_frame (w : world) attempts rc m :
  same_hub m (snd (run w (auth_attempts attempts rc) m)).
Proof.
  revert m. induction attempts as [|a rest IH]; intros m; [apply same_hub_refl|].
  rewrite run_auth_attempts_cons.
  destruct (classify _) as [token| | |]; cbn [snd]; auto with hub.
  - repeat split.
  - eapply same_hub_trans; [|apply IH].
    destruct (a <? rc)%nat; [|apply same_hub_posted].
    eapply same_hub_trans; [apply same_hub_posted|apply same_hub_slept].
  - destruct (a <? rc)%nat; cbn [snd]; auto with hub.
    eapply same_hub_trans; [|apply IH].
    eapply same_hub_trans; [apply same_hub_posted|apply same_hub_slept].
Qed.

Lemma reauthenticated_frame (w : world) error m :
  same_hub m (reauthenticated w error m).
Proof.
  unfold reauthenticated. destruct (is_401 error); [|apply same_hub_refl].
  apply auth_attempts_frame.
Qed.

Lemma stock_attempts_frame (w : world) attempts rc token m :
  same_hub m (snd (run w (stock_attempts attempts rc token) m)).
Proof.
  revert token m. induction attempts as [|a rest IH]; intros token m;
    [apply same_hub_refl|].
  rewrite run_stock_attempts_cons.
  destruct (stock_reply _ _ _) as [response|error].
  - destruct (as_array _); cbn [snd]; auto with hub.
    destruct (a <? rc)%nat; cbn [snd]; auto with hub.
    eapply same_hub_trans; [|apply IH]. auto with hub.
  - destruct (transient error || is_401 error); cbn [snd]; auto with hub.
    cbv zeta.
    assert (same_hub m (reauthenticated w error (got token m))) as H.
    { eapply same_hub_trans; [|apply reauthenticated_frame]. auto with hub. }
    destruct (a <? rc)%nat; cbn [snd]; [|exact H].
    eapply same_hub_trans; [|apply IH].
    eapply same_hub_trans; [exact H|]. auto with hub.
Qed.

Lemma getAllStockCompanies_frame (w : world) token rc m :
  same_hub m (snd (run w (getAllStockCompanies token rc) m)).
Proof.
  unfold getAllStockCompanies. destruct (truthy token);
    [apply stock_attempts_frame|apply same_hub_refl].
Qed.

Lemma ensure_token_frame (w : world) m :
  same_hub m (snd (run w ensure_token m)).
Proof.
  unfold ensure_token. rewrite run_bind. cbn [read run fst snd].
  destruct (truthy (authToken (st m))); [apply same_hub_refl|].
  rewrite run_bind. cbn [run snd]. apply auth_attempts_frame.
Qed.

(** The cycle, call by call. *)
Lemma run_cycle (w : world) (isInitial : bool) m :
  run w (fetchAndBroadcastStockData isInitial) m =
  let r1 := run w ensure_token m in
  if fst r1 then
    let r2 := run w (getAllStockCompanies (authToken (st (snd r1))) 5) (snd r1) in
    match records_of (fst r2) with
    | Some stockData => run w (publish isInitial stockData) (snd r2)
    | None => (tt, snd r2)
    end
  else (tt, snd r1).
Proof.
  unfold fetchAndBroadcastStockData. rewrite run_bind. cbv zeta.
  destruct (fst (run w ensure_token m)); [|reflexivity].
  rewrite run_bind. cbn [read run fst snd]. rewrite run_bind.
  destruct (fst (run w (getAllStockCompanies _ 5) _)) as [[stockData|before]|];
    reflexivity.
Qed.

Lemma before_publish_frame (w : world) m : same_hub m (before_publish w m).
Proof.
  unfold before_publish. cbv zeta.
  destruct (fst (run w ensure_token m)); [|apply ensure_token_frame].
  eapply same_hub_trans; [apply ensure_token_frame|apply getAllStockCompanies_frame].
Qed.

Lemma run_cycle_fetch (w : world) (isInitial : bool) m :
  run w (fetchAndBroadcastStockData isInitial) m =
  match cycle_fetch w m with
  | Some stockData => run w (publish isInitial stockData) (before_publish w m)
  | None => (tt, before_publish w m)
  end.
Proof.
  rewrite run_cycle. unfold cycle_fetch, before_publish. cbv zeta.
  destruct (fst (run w ensure_token m)); reflexivity.
Qed.

End WsCycleFacts.

(** ** The socket.io server *)

Section IoFacts.
Import IoServer.
Implicit Types m : machine state output.
Implicit Types s : state.

Lemma set_st_same m : set_st (st m) m = m.
Proof. destruct m. reflexivity. Qed.

Lemma io_scan_cons s stock rest updates :
  io_scan s (stock :: rest) updates =
  if negb (keyed stock) then io_scan s rest updates
  else if hasUpdate (lookup s (key_of stock)) stock
       then io_scan (assign (key_of stock) stock s) rest (updates ++ [stock])
       else io_scan s rest updates.
Proof.
  unfold io_scan. cbn [fold_left]. unfold io_visit at 2. cbn [fst snd].
  destruct (negb (keyed stock)); [reflexivity|].
  destruct (hasUpdate (lookup s (key_of stock)) stock); reflexivity.
Qed.

(** The [forEach] loop is the fold of [io_visit] over the variables. *)
Lemma run_for_each (w : world) stockData updates m :
  run w (for_each stockData updates) m =
  (snd (io_scan (st m) stockData updates),
   set_st (fst (io_scan (st m) stockData updates)) m).
Proof.
  revert updates m. induction stockData as [|stock rest IH]; intros updates m.
  - cbn. rewrite set_st_same. reflexivity.
  - cbn [for_each]. rewrite io_scan_cons.
    fold (keyed stock). fold (key_of stock).
    destruct (negb (keyed stock)); [apply IH|].
    rewrite run_bind. cbn [read run fst snd].
    destruct (hasUpdate (lookup (st m) (key_of stock)) stock); [|apply IH].
    rewrite run_bind. cbn [modify run fst snd]. rewrite IH.
    reflexivity.
Qed.


Lemma io_scan_store_irrelevant_updates s stockData updates updates' :
  fst (io_scan s stockData updates) = fst (io_scan s stockData updates').
Proof.
  revert s updates updates'.
  induction stockData as [|stock rest IH]; intros s updates updates'.
  - reflexivity.
  - rewrite !io_scan_cons.
    destruct (negb (keyed stock)); [apply IH|].
    destruct (hasUpdate (lookup s (key_of stock)) stock); apply IH.
Qed.

(** An assignment writes the own property of that name or the prototype,
    and nothing else. *)
Lemma assign_session key stock s :
  authToken (assign key stock s) = authToken s /\
  lastFetchTime (assign key stock s) = lastFetchTime s /\
  tokenExpiryTime (assign key stock s) = tokenExpiryTime s.
Proof. unfold assign. destruct (sets_prototype s key); repeat split. Qed.

Lemma assign_other key stock s (k : string) :
  k <> key ->
  previousStockData (assign key stock s) !! k = previousStockData s !! k.
Proof.
  intros Hne. unfold assign. destruct (sets_prototype s key); [reflexivity|].
  cbn. apply lookup_insert_ne. congruence.
Qed.

Lemma assign_stored key stock s (k : string) (r : obj) :
  previousStockData (assign key stock s) !! k = Some r ->
  (k = key /\ r = stock) \/ previousStockData s !! k = Some r.
Proof.
  unfold assign. destruct (sets_prototype s key); [auto|]. cbn.
  destruct (decide (key = k)) as [->|Hne].
  - rewrite lookup_insert_eq. intros [= <-]. left. split; reflexivity.
  - rewrite lookup_insert_ne by exact Hne. auto.
Qed.

Lemma assign_dom key stock s :
  dom (previousStockData s) ⊆ dom (previousStockData (assign key stock s)).
Proof.
  unfold assign. destruct (sets_prototype s key); [reflexivity|].
  cbn. rewrite dom_insert. set_solver.
Qed.

(** Away from the code [__proto__], an assignment changes what is read
    under its own name alone. *)
Lemma not_proto_setter s key : key <> "__proto__" -> sets_prototype s key = false.
Proof.
  intros Hne. unfold sets_prototype.
  destruct (String.eqb_spec key "__proto__"); [contradiction|reflexivity].
Qed.

Lemma assign_lookup key stock s (k : string) :
  key <> "__proto__" -> k <> key ->
  lookup (assign key stock s) k = lookup s k.
Proof.
  intros Hproto Hne. unfold lookup, assign.
  rewrite (not_proto_setter s key Hproto). cbn.
  rewrite lookup_insert_ne by congruence. reflexivity.
Qed.

Lemma assign_lookup_same key stock s :
  key <> "__proto__" -> lookup (assign key stock s) key = ARecord stock.
Proof.
  intros Hproto. unfold lookup, assign.
  rewrite (not_proto_setter s key Hproto). cbn.
  rewrite lookup_insert_eq. reflexivity.
Qed.

Lemma assign_prototype key stock s :
  key <> "__proto__" -> prototype (assign key stock s) = prototype s.
Proof.
  intros Hproto. unfold assign. rewrite (not_proto_setter s key Hproto).
  reflexivity.
Qed.

(** The loop leaves the token, its expiry and the last fetch time alone. *)
Lemma io_scan_session stockData :
  forall s updates,
    authToken (fst (io_scan s stockData updates)) = authToken s /\
    lastFetchTime (fst (io_scan s stockData updates)) = lastFetchTime s /\
    tokenExpiryTime (fst (io_scan s stockData updates)) = tokenExpiryTime s.
Proof.
  induction stockData as [|stock rest IH]; intros s updates.
  - repeat split.
  - rewrite io_scan_cons.
    destruct (negb (keyed stock)); [apply IH|].
    destruct (hasUpdate (lookup s (key_of stock)) stock); [|apply IH].
    destruct (IH (assign (key_of stock) stock s) (updates ++ [stock]))
      as (A & B & C).
    destruct (assign_session (key_of stock) stock s) as (A' & B' & C').
    repeat split; congruence.
Qed.

(** A key that no fetched record carries keeps what it held. *)
Lemma io_scan_other_keys s stockData updates (k : string) :
  (forall stock, In stock stockData -> keyed stock = true -> key_of stock <> k) ->
  previousStockData (fst (io_scan s stockData updates)) !! k
  = previousStockData s !! k.
Proof.
  revert s updates.
  induction stockData as [|stock rest IH]; intros s updates Hk.
  - reflexivity.
  - rewrite io_scan_cons.
    assert (Hrest : forall r, In r rest -> keyed r = true -> key_of r <> k).
    { intros r Hr. apply Hk. right. exact Hr. }
    destruct (keyed stock) eqn:Hkeyed; cbn [negb]; [|apply IH, Hrest].
    destruct (hasUpdate (lookup s (key_of stock)) stock); [|apply IH, Hrest].
    rewrite IH by exact Hrest. apply assign_other.
    intros Heq. apply (Hk stock); [left; reflexivity|exact Hkeyed|].
    symmetry. exact Heq.
Qed.

(** A property of the stored records that every fetched record with a code
    has under its code is kept by the loop. *)
Lemma io_scan_keeps (P : string -> obj -> Prop) stockData :
  (forall stock, In stock stockData -> keyed stock = true ->
                 P (key_of stock) stock) ->
  forall s updates,
    map_Forall P (previousStockData s) ->
    map_Forall P (previousStockData (fst (io_scan s stockData updates))).
Proof.
  induction stockData as [|stock rest IH]; intros HP s updates Hs.
  - exact Hs.
  - rewrite io_scan_cons.
    assert (Hrest : forall r, In r rest -> keyed r = true -> P (key_of r) r).
    { intros r Hr. apply HP. right. exact Hr. }
    destruct (keyed stock) eqn:Hkeyed; cbn [negb]; [|apply IH; assumption].
    destruct (hasUpdate (lookup s (key_of stock)) stock);
      [|apply IH; assumption].
    apply IH; [exact Hrest|].
    intros k r Hkr. apply assign_stored in Hkr.
    destruct Hkr as [[-> ->]|Hkr]; [|exact (Hs k r Hkr)].
    apply HP; [left; reflexivity|exact Hkeyed].
Qed.

Lemma io_scan_updates_keyed s stockData updates :
  Forall (fun r => keyed r = true) updates ->
  Forall (fun r => keyed r = true) (snd (io_scan s stockData updates)).
Proof.
  revert s updates.
  induction stockData as [|stock rest IH]; intros s updates Hu.
  - exact Hu.
  - rewrite io_scan_cons.
    destruct (keyed stock) eqn:Hkeyed; cbn [negb]; [|apply IH; assumption].
    destruct (hasUpdate (lookup s (key_of stock)) stock);
      [|apply IH; assumption].
    apply IH. apply Forall_app. split; [assumption|].
    constructor; [assumption|constructor].
Qed.

Lemma io_scan_clean s stockData updates :
  map_Forall (fun _ r => keyed r = true) (previousStockData s) ->
  Forall (fun r => keyed r = true) updates ->
  map_Forall (fun _ r => keyed r = true)
             (previousStockData (fst (io_scan s stockData updates))) /\
  Forall (fun r => keyed r = true) (snd (io_scan s stockData updates)).
Proof.
  intros Hs Hu. split; [|apply io_scan_updates_keyed, Hu].
  apply (io_scan_keeps (fun _ r => keyed r = true)); [|exact Hs].
  intros stock _ Hk. exact Hk.
Qed.

Lemma io_scan_dom stockData :
  forall s updates,
    dom (previousStockData s)
    ⊆ dom (previousStockData (fst (io_scan s stockData updates))).
Proof.
  induction stockData as [|stock rest IH]; intros s updates.
  - reflexivity.
  - rewrite io_scan_cons.
    destruct (negb (keyed stock)); [apply IH|].
    destruct (hasUpdate (lookup s (key_of stock)) stock); [|apply IH].
    etransitivity; [apply (assign_dom (key_of stock) stock s)|apply IH].
Qed.

(** With one record per code and no code [__proto__], every record is
    compared with the variables as they were before the loop. *)
Lemma io_scan_lookup s stockData updates (k : string) :
  (forall stock, In stock stockData -> keyed stock = true ->
                 key_of stock <> "__proto__" /\ key_of stock <> k) ->
  lookup (fst (io_scan s stockData updates)) k = lookup s k.
Proof.
  revert s updates.
  induction stockData as [|stock rest IH]; intros s updates Hk.
  - reflexivity.
  - rewrite io_scan_cons.
    assert (Hrest : forall r, In r rest -> keyed r = true ->
                              key_of r <> "__proto__" /\ key_of r <> k).
    { intros r Hr. apply Hk. right. exact Hr. }
    destruct (keyed stock) eqn:Hkeyed; cbn [negb]; [|apply IH, Hrest].
    destruct (hasUpdate (lookup s (key_of stock)) stock); [|apply IH, Hrest].
    rewrite IH by exact Hrest.
    destruct (Hk stock (or_introl eq_refl) Hkeyed) as [H1 H2].
    apply assign_lookup; [exact H1|congruence].
Qed.


Lemma same_store_refl m : same_store m m.
Proof. repeat split. Qed.

Lemma same_store_trans m1 m2 m3 :
  same_store m1 m2 -> same_store m2 m3 -> same_store m1 m3.
Proof.
  intros (A1 & A2 & A3 & A4) (B1 & B2 & B3 & B4). repeat split; congruence.
Qed.

Lemma clean_add_out o m : clean m -> clean_output o -> clean (add_out o m).
Proof.
  intros [Hs Ho] Hc. split; [exact Hs|]. cbn.
  apply Forall_app. split; [exact Ho|]. constructor; [exact Hc|constructor].
Qed.

(** Authenticating touches neither the store nor the last fetch time, and
    sends no record. *)
Lemma try_payloads_frame (w : world) formats lastError m :
  same_store m (snd (run w (try_payloads formats lastError) m)) /\
  (clean m -> clean (snd (run w (try_payloads formats lastError) m))).
Proof.
  revert lastError m. induction formats as [|format rest IH]; intros lastError m.
  - cbn. split; [repeat split|].
    intros Hc. apply (clean_add_out _ m Hc). exact I.
  - cbn [try_payloads]. rewrite run_bind. cbn [await run fst snd answer].
    destruct (auth_reply w (length (issued m)) format) as [response|error].
    + destruct ((auth_status response =? 200) && truthy (find_token response)).
      * cbn. split; [repeat split|].
        intros [Hs Ho]. split; [exact Hs|]. cbn.
        apply Forall_app. split; [exact Ho|]. constructor; [exact I|constructor].
      * destruct (IH lastError (elapse 0 (issue (AuthPost format) m))) as [H1 H2].
        split; [exact H1|]. intros Hc. apply H2. exact Hc.
    + destruct (IH (Some error) (elapse 0 (issue (AuthPost format) m))) as [H1 H2].
      split; [exact H1|]. intros Hc. apply H2. exact Hc.
Qed.

Lemma getAuthToken_frame (w : world) forceRefresh m :
  same_store m (snd (run w (getAuthToken forceRefresh) m)) /\
  (clean m -> clean (snd (run w (getAuthToken forceRefresh) m))).
Proof.
  unfold getAuthToken. rewrite run_bind. cbn [read now run fst snd].
  rewrite run_bind. cbn [now run fst snd].
  destruct (cached forceRefresh (st m) (clock m)).
  - cbn. split; [repeat split|auto].
  - apply try_payloads_frame.
Qed.

(** What [fetchStockData] does once it holds the rows of a 200 response. *)
Lemma run_store_rows (w : world) stockData m :
  run w (updates <- for_each stockData [] ;;
         t <- now ;;
         modify (set_lastFetchTime (Some t)) ;;;
         (if (0 <? length updates)%nat
          then emit (IoEmit (StockUpdates updates))
          else Ret tt) ;;;
         Ret (Fetched stockData)) m =
  (Fetched stockData,
   {| st := set_lastFetchTime (Some (clock m))
              (fst (io_scan (st m) stockData []));
      outs := outs m ++
        if (0 <? length (snd (io_scan (st m) stockData [])))%nat
        then [IoEmit (StockUpdates (snd (io_scan (st m) stockData [])))]
        else [];
      clock := clock m; issued := issued m |}).
Proof.
  rewrite run_bind, run_for_each. cbn [fst snd].
  rewrite run_bind. cbn [now run fst snd clock set_st].
  rewrite run_bind. cbn [modify run fst snd st set_st].
  rewrite run_bind.
  destruct (0 <? length (snd (io_scan (st m) stockData [])))%nat.
  - reflexivity.
  - cbn. rewrite app_nil_r. reflexivity.
Qed.

Lemma run_fetch_failed (w : world) message m :
  run w (fetch_failed message) m =
  (FetchedNull, add_out (IoEmit (FetchStatus "error" message (clock m))) m).
Proof. reflexivity. Qed.

(** What it does when the rows hold a null element: the records before it
    are passed through the loop, then the catch block answers. *)
Lemma run_store_then_throw (w : world) before message m :
  run w (for_each before [] ;;; fetch_failed message) m =
  (FetchedNull,
   {| st := fst (io_scan (st m) before []);
      outs := outs m ++ [IoEmit (FetchStatus "error" message (clock m))];
      clock := clock m; issued := issued m |}).
Proof. rewrite run_bind, run_for_each. reflexivity. Qed.

(** One call of [fetchStockData], branch by branch. *)
Lemma run_fetchStockData_S (w : world) depth m :
  run w (fetchStockData (S depth)) m =
  let token := fst (run w (getAuthToken false) m) in
  let m1 := snd (run w (getAuthToken false) m) in
  let m2 := elapse 0 (issue (StockGet token) m1) in
  if negb (truthy token)
  then run w (fetch_failed "No auth token available") m1
  else
    match stock_reply w (length (issued m1)) token with
    | Rejected error => run w (fetch_failed (err_message error)) m2
    | Resolved response =>
        if stock_status response =? 401 then
          run w (fetchStockData depth)
              (set_st (set_authToken VNull (st m2)) m2)
        else if negb (stock_status response =? 200) then
          run w (fetch_failed ("API returned status "
                               ++ pretty (stock_status response))) m2
        else
          match rows (stock_data response) with
          | None =>
              run w (fetch_failed
                       "Cannot read properties of null (reading 'result')") m2
          | Some (Records stockData) =>
              run w (updates <- for_each stockData [] ;;
                     t <- now ;;
                     modify (set_lastFetchTime (Some t)) ;;;
                     (if (0 <? length updates)%nat
                      then emit (IoEmit (StockUpdates updates))
                      else Ret tt) ;;;
                     Ret (Fetched stockData)) m2
          | Some (RecordsThenNull before) =>
              run w (for_each before [] ;;;
                     fetch_failed
                       "Cannot read properties of null (reading 'dseCompanyCode')")
                  m2
          end
    end.
Proof.
  cbn [fetchStockData]. rewrite run_bind. cbv zeta.
  destruct (negb (truthy (fst (run w (getAuthToken false) m)))); [reflexivity|].
  rewrite run_bind. cbn [await run fst snd answer].
  destruct (stock_reply w _ _) as [response|error]; [|reflexivity].
  destruct (stock_status response =? 401).
  - rewrite run_bind. reflexivity.
  - destruct (negb (stock_status response =? 200)); [reflexivity|].
    destruct (rows (stock_data response)) as [[stockData|before]|];
      reflexivity.
Qed.

(** Authenticating emits 'auth-status' alone. *)
Lemma getAuthToken_emits (Q : output -> Prop) (w : world) forceRefresh m :
  (forall status error t, Q (IoEmit (AuthStatus status error t))) ->
  Forall Q (outs m) ->
  Forall Q (outs (snd (run w (getAuthToken forceRefresh) m))).
Proof.
  intros Hauth HQ.
  unfold getAuthToken. rewrite run_bind. cbn [read now run fst snd].
  rewrite run_bind. cbn [now run fst snd].
  destruct (cached forceRefresh (st m) (clock m)); [exact HQ|].
  generalize (@None js_error). revert m HQ.
  induction payloadFormats as [|format rest IH]; intros m HQ lastError.
  - cbn. apply Forall_app. split; [exact HQ|]. repeat constructor.
    apply Hauth.
  - cbn [try_payloads]. rewrite run_bind. cbn [await run fst snd answer].
    destruct (auth_reply w (length (issued m)) format) as [response|error].
    + destruct ((auth_status response =? 200)
                && truthy (find_token response)).
      * cbn. apply Forall_app. split; [exact HQ|]. repeat constructor.
        apply Hauth.
      * apply IH. exact HQ.
    + apply IH. exact HQ.
Qed.

(** A property of the stored records and of the emissions that the token
    loop, the failure report and the [forEach] of a fetch keep is kept by
    [fetchStockData]. *)
Lemma fetchStockData_keeps (P : gmap string obj -> Prop) (Q : output -> Prop)
    (w : world) :
  (forall s stockData,
     P (previousStockData s) ->
     P (previousStockData (fst (io_scan s stockData [])))) ->
  (forall status error t, Q (IoEmit (AuthStatus status error t))) ->
  (forall status error t, Q (IoEmit (FetchStatus status error t))) ->
  (forall s stockData,
     P (previousStockData s) ->
     (0 <? length (snd (io_scan s stockData [])))%nat = true ->
     Q (IoEmit (StockUpdates (snd (io_scan s stockData []))))) ->
  forall depth m,
    P (previousStockData (st m)) -> Forall Q (outs m) ->
    P (previousStockData (st (snd (run w (fetchStockData depth) m)))) /\
    Forall Q (outs (snd (run w (fetchStockData depth) m))).
Proof.
  intros Hscan Hauth Hfetch Hupd.
  assert (Htok : forall m,
    P (previousStockData (st m)) -> Forall Q (outs m) ->
    P (previousStockData (st (snd (run w (getAuthToken false) m)))) /\
    Forall Q (outs (snd (run w (getAuthToken false) m)))).
  { intros m HP HQ.
    destruct (getAuthToken_frame w false m) as [[Hstore _] _].
    rewrite Hstore. split; [exact HP|].
    apply getAuthToken_emits; assumption. }
  induction depth as [|depth IH]; intros m HP HQ.
  { cbn. split; assumption. }
  rewrite run_fetchStockData_S. cbv zeta.
  destruct (Htok m HP HQ) as [HP1 HQ1].
  set (token := fst (run w (getAuthToken false) m)) in *.
  set (m1 := snd (run w (getAuthToken false) m)) in *.
  assert (Hfail : forall message m',
    P (previousStockData (st m')) -> Forall Q (outs m') ->
    P (previousStockData (st (snd (run w (fetch_failed message) m')))) /\
    Forall Q (outs (snd (run w (fetch_failed message) m')))).
  { intros message m' A B. rewrite run_fetch_failed. cbn [fst snd].
    split; [exact A|]. cbn. apply Forall_app. split; [exact B|].
    repeat constructor. apply Hfetch. }
  destruct (negb (truthy token)); [apply Hfail; assumption|].
  destruct (stock_reply w (length (issued m1)) token) as [response|error];
    [|apply Hfail; assumption].
  destruct (stock_status response =? 401); [apply IH; assumption|].
  destruct (negb (stock_status response =? 200)); [apply Hfail; assumption|].
  destruct (rows (stock_data response)) as [[stockData|before]|];
    [| |apply Hfail; assumption].
  - rewrite run_store_rows. cbn [fst snd st outs elapse issue].
    split; [apply (Hscan (st m1)); exact HP1|].
    apply Forall_app. split; [exact HQ1|].
    destruct (0 <? length _)%nat eqn:Hlen; [|constructor].
    repeat constructor. apply (Hupd (st m1)); assumption.
  - rewrite run_store_then_throw. cbn [fst snd st outs elapse issue].
    split; [apply (Hscan (st m1)); exact HP1|].
    apply Forall_app. split; [exact HQ1|]. repeat constructor. apply Hfetch.
Qed.

(** No call sends or stores a keyless record. *)
Lemma fetchStockData_clean (w : world) depth m :
  clean m -> clean (snd (run w (fetchStockData depth) m)).
Proof.
  intros [Hs Ho].
  apply (fetchStockData_keeps
           (map_Forall (fun _ r => keyed r = true)) clean_output w);
    try assumption; try (intros; exact I).
  - intros s stockData H. apply io_scan_clean; [exact H|constructor].
  - intros s stockData H _. apply io_scan_clean; [exact H|constructor].
Qed.

(** The values [Object.values] lists are stored records. *)
Lemma stored_values_stored s (r : obj) :
  In r (stored_values s) -> exists k, previousStockData s !! k = Some r.
Proof.
  unfold stored_values. intros H. apply list_elem_of_In in H.
  apply list_elem_of_omap in H. destruct H as (k & _ & Hk). eauto.
Qed.

Lemma on_connection_clean (w : world) socket m :
  clean m -> clean (snd (run w (on_connection socket) m)).
Proof.
  intros Hc. unfold on_connection. rewrite run_bind.
  cbn [read run fst snd]. rewrite run_bind.
  assert (Hvals : Forall (fun r => keyed r = true) (stored_values (st m))).
  { apply Forall_forall. intros r Hin. apply list_elem_of_In in Hin.
    apply stored_values_stored in Hin. destruct Hin as [k Hk].
    exact (proj1 Hc k r Hk). }
  destruct (0 <? length _)%nat; cbn [emit run fst snd].
  - apply clean_add_out; [apply clean_add_out; [exact Hc|exact Hvals]|exact I].
  - apply clean_add_out; [exact Hc|exact I].
Qed.

End IoFacts.

(** ** Invariants of the event loop *)

Section SafeFacts.
Context {St Out : Type} (inv : St -> Prop) (good : Out -> Prop).

Lemma safe_bind {A B} (p : prog St Out A) (f : A -> prog St Out B) s :
  safe inv good p s -> (forall a s', safe inv good (f a) s') ->
  safe inv good (bind p f) s.
Proof.
  revert s. induction p as [a|k IH|s0 k IH|k IH|o k IH|X e k IH];
    intros s Hp Hf; cbn in *; auto.
  - destruct Hp as [H1 H2]. split; auto.
  - destruct Hp as [H1 H2]. split; auto.
Qed.

(** Advancing a safe program from variables satisfying the invariant: the
    invariant still holds, what was sent is good, and what remains is
    safe. *)
Lemma advance_safe {A} (p : prog St Out A) (m : machine St Out) :
  safe inv good p (st m) ->
  (match fst (advance p m) with
   | Done _ => True
   | Blocked e k => forall x s', safe inv good (k x) s'
   end) /\
  (inv (st m) ->
   inv (st (snd (advance p m))) /\
   exists sent, outs (snd (advance p m)) = outs m ++ sent /\ Forall good sent).
Proof.
  revert m. induction p as [a|k IH|s0 k IH|k IH|o k IH|X e k IH];
    intros m Hp; cbn in *.
  - split; [exact I|]. intros Hi. split; [exact Hi|].
    exists []. rewrite app_nil_r. split; [reflexivity|constructor].
  - apply IH. exact Hp.
  - destruct Hp as [H1 H2]. destruct (IH (set_st s0 m) H2) as [Hk Hi].
    split; [exact Hk|]. intros Hm. apply Hi. cbn. auto.
  - apply IH. apply Hp.
  - destruct Hp as [H1 H2]. destruct (IH (add_out o m) H2) as [Hk Hi].
    split; [exact Hk|]. intros Hm. destruct (Hi Hm) as (Hi' & sent & Hs & Hg).
    split; [exact Hi'|]. exists (o :: sent). split.
    + rewrite Hs. cbn. rewrite <- app_assoc. reflexivity.
    + constructor; auto.
  - split; [exact Hp|]. intros Hm. split; [exact Hm|].
    exists []. rewrite app_nil_r. split; [reflexivity|constructor].
Qed.

Context {A : Type}.
Implicit Types l : loop St Out A.

Lemma kept_refl l : kept inv good l l.
Proof.
  split; [auto|]. intros _ Hi. split; [exact Hi|].
  exists []. rewrite app_nil_r. split; [reflexivity|constructor].
Qed.

Lemma kept_trans l1 l2 l3 :
  kept inv good l1 l2 -> kept inv good l2 l3 -> kept inv good l1 l3.
Proof.
  intros [T1 I1] [T2 I2]. split; [auto|].
  intros Ht Hi. destruct (I1 Ht Hi) as (Hi2 & sent1 & E1 & G1).
  destruct (I2 (T1 Ht) Hi2) as (Hi3 & sent2 & E2 & G2).
  split; [exact Hi3|]. exists (sent1 ++ sent2). split.
  - rewrite E2, E1, app_assoc. reflexivity.
  - apply Forall_app. split; assumption.
Qed.

Lemma settle_kept id seq (p : prog St Out A) ws fs next l :
  (tame inv good l -> safe inv good p (st (mach l))) ->
  (tame inv good l ->
   Forall (fun c => forall x s', safe inv good (sus_k c x) s') ws) ->
  kept inv good l (settle id seq (advance p (mach l)) ws fs next).
Proof.
  intros Hp Hws. unfold settle. split.
  - intros Ht. destruct (advance_safe p (mach l) (Hp Ht)) as [Hk _].
    unfold tame.
    destruct (fst (advance p (mach l))) as [a|X e k]; cbn [waiting]; [auto|].
    apply Forall_app. split; [auto|]. constructor; [exact Hk|constructor].
  - intros Ht Hinv. destruct (advance_safe p (mach l) (Hp Ht)) as [_ Hi].
    destruct (fst (advance p (mach l))); cbn [mach]; auto.
Qed.

Lemma spawn_kept (p : prog St Out A) l :
  safe inv good p (st (mach l)) -> kept inv good l (spawn p l).
Proof. intros Hp. unfold spawn. apply settle_kept; auto. Qed.

Lemma Forall_drop_nth {T} (P : T -> Prop) i (xs : list T) :
  Forall P xs -> Forall P (drop_nth i xs).
Proof.
  revert i. induction xs as [|x xs IH]; intros i H; [destruct i; exact H|].
  inversion H; subst. destruct i; cbn; [assumption|]. constructor; auto.
Qed.

Lemma complete_kept (w : world) i l : kept inv good l (complete w i l).
Proof.
  unfold complete. destruct (nth_error (waiting l) i) as [c|] eqn:Hc;
    [|apply kept_refl].
  apply settle_kept.
  - intros Ht. apply nth_error_In in Hc. unfold tame in Ht.
    rewrite Forall_forall in Ht. apply Ht. apply list_elem_of_In. exact Hc.
  - intros Ht. apply Forall_drop_nth. exact Ht.
Qed.

Lemma poke_kept (f : St -> St) l :
  (forall s, inv s -> inv (f s)) -> kept inv good l (poke f l).
Proof.
  intros Hf. split; [auto|]. intros _ Hi. split; [cbn; auto|].
  exists []. cbn. rewrite app_nil_r. split; [reflexivity|constructor].
Qed.

Lemma pass_kept dt l : kept inv good l (pass dt l).
Proof.
  split; [auto|]. intros _ Hi. split; [exact Hi|].
  exists []. cbn. rewrite app_nil_r. split; [reflexivity|constructor].
Qed.

End SafeFacts.

Section WsSafe.
Import WsServer.
Context (inv : state -> Prop) (good : output -> Prop).
Hypothesis inv_token : forall s token, inv s -> inv (set_authToken token s).
Hypothesis inv_map :
  forall s stockData, inv s -> inv (set_latestStockMap (fresh_map stockData) s).
Hypothesis good_send :
  forall s c msg, inv s -> In c (clients s) -> good (Send c msg).

Lemma safe_auth_attempts attempts rc s :
  safe inv good (auth_attempts attempts rc) s.
Proof.
  revert s. induction attempts as [|a rest IH]; intros s; [exact I|].
  cbn [auth_attempts]. apply safe_bind; [cbn; auto|].
  intros [response|error] s'.
  - destruct (result_code response) as [code|]; [|exact I].
    destruct (strict_eq code (VStr "200")).
    + destruct (result_token response) as [token|]; [|exact I].
      cbn. auto.
    + apply safe_bind; [|auto]. destruct (a <? rc)%nat; cbn; auto.
  - destruct (transient error && (a <? rc)%nat); [|exact I].
    apply safe_bind; [cbn; auto|auto].
Qed.

Lemma safe_stock_attempts attempts rc token s :
  safe inv good (stock_attempts attempts rc token) s.
Proof.
  revert token s. induction attempts as [|a rest IH]; intros token s; [exact I|].
  cbn [stock_attempts]. apply safe_bind; [cbn; auto|].
  intros [response|error] s'.
  - destruct (as_array (stock_data response)); [exact I|].
    destruct (a <? rc)%nat; [apply IH|exact I].
  - destruct (transient error || is_401 error); [|exact I].
    apply safe_bind.
    + destruct (is_401 error); [|exact I].
      apply safe_bind; [apply safe_auth_attempts|]. intros; cbn; auto.
    + intros token' s''. destruct (a <? rc)%nat; [|exact I].
      apply safe_bind; [cbn; auto|auto].
Qed.

Lemma safe_send_each cs ready msg s :
  (forall c, In c cs -> In c (clients s)) ->
  safe inv good (send_each cs ready msg) s.
Proof.
  induction cs as [|c rest IH]; intros Hcs; [exact I|].
  cbn [send_each].
  destruct (is_open (ready c)); cbn.
  - split; [intros Hi; apply (good_send s); [exact Hi|apply Hcs; left; reflexivity]|].
    apply IH. intros c' Hc'. apply Hcs. right. exact Hc'.
  - apply IH. intros c' Hc'. apply Hcs. right. exact Hc'.
Qed.

Lemma safe_publish isInitial stockData s :
  safe inv good (publish isInitial stockData) s.
Proof.
  unfold publish. cbn. rewrite scan_map. split; [apply inv_map|].
  match goal with |- context [if ?b then _ else _] => destruct b end;
    [|exact I].
  cbn. intros t. apply safe_send_each. auto.
Qed.

Lemma safe_cycle isInitial s :
  safe inv good (fetchAndBroadcastStockData isInitial) s.
Proof.
  unfold fetchAndBroadcastStockData. apply safe_bind.
  - unfold ensure_token. apply safe_bind; [exact I|]. intros s0 s'.
    destruct (truthy (authToken s0)); [exact I|].
    apply safe_bind; [apply safe_auth_attempts|]. intros; exact I.
  - intros [|] s'; [|exact I].
    apply safe_bind; [exact I|]. intros s0 s''.
    apply safe_bind.
    + unfold getAllStockCompanies. destruct (truthy (authToken s0));
        [apply safe_stock_attempts|exact I].
    + intros [[stockData|before]|] s3; [apply safe_publish|exact I|exact I].
Qed.

Lemma safe_startup s : safe inv good startup s.
Proof.
  unfold startup. apply safe_bind; [apply safe_auth_attempts|].
  intros token s'. destruct (truthy token); [apply safe_cycle|exact I].
Qed.

Lemma safe_api_auth s : safe inv good api_auth s.
Proof.
  unfold api_auth. apply safe_bind; [apply safe_auth_attempts|].
  intros; exact I.
Qed.

Lemma safe_api_stock s : safe inv good api_stock s.
Proof.
  unfold api_stock. apply safe_bind; [exact I|]. intros s0 s1.
  apply safe_bind.
  - destruct (truthy (authToken s0)); [exact I|].
    apply safe_bind; [apply safe_auth_attempts|]. intros; exact I.
  - intros _ s2. apply safe_bind; [exact I|]. intros s3 s4.
    apply safe_bind; [|intros; exact I].
    unfold getAllStockCompanies. destruct (truthy (authToken s3));
      [apply safe_stock_attempts|exact I].
Qed.

Lemma safe_send_initial ws s :
  In ws (clients s) -> safe inv good (send_initial ws) s.
Proof.
  intros Hws. unfold send_initial.
  change (read (St:=state) (Out:=output))
    with (Read (St:=state) (Out:=output) Ret).
  cbn [bind safe].
  destruct (0 <? map_size (latestStockMap s))%nat; [|apply safe_cycle].
  cbn. intros t. split; [|exact I]. intros Hi. apply (good_send s); assumption.
Qed.

Lemma In_set_add ws c cs : In c (set_add ws cs) <-> c = ws \/ In c cs.
Proof.
  unfold set_add. destruct (existsb (Nat.eqb ws) cs) eqn:He.
  - split; [auto|]. intros [->|H]; [|exact H].
    apply existsb_exists in He. destruct He as (x & Hx & Heq).
    apply Nat.eqb_eq in Heq. subst. exact Hx.
  - rewrite in_app_iff. cbn. intuition.
Qed.

Lemma In_set_delete ws c cs : In c (set_delete ws cs) <-> c <> ws /\ In c cs.
Proof.
  unfold set_delete. rewrite filter_In, negb_true_iff, Nat.eqb_neq. tauto.
Qed.

Lemma safe_on_connection ws s :
  (inv s -> inv (set_clients (set_add ws (clients s)) s)) ->
  safe inv good (on_connection ws) s.
Proof.
  intros Hadd. unfold on_connection, modify. cbn [bind safe].
  split; [exact Hadd|].
  apply safe_send_initial. cbn. apply In_set_add. left. reflexivity.
Qed.

Lemma step_tame (w : world) (l : server) e :
  tame inv good l -> tame inv good (step w l e).
Proof.
  intros Ht. destruct e as [| |ws|ws|ws|ws r|i|dt| |]; cbn [step];
    try exact Ht;
    try (apply (spawn_kept inv good);
         [first [apply safe_api_auth|apply safe_api_stock]|exact Ht]).
  - apply (spawn_kept inv good); [apply safe_cycle|exact Ht].
  - apply (spawn_kept inv good); [apply safe_startup|exact Ht].
  - unfold spawn, on_connection. cbn [bind modify advance].
    destruct (advance_safe inv good (send_initial ws)
                (set_st (set_clients (set_add ws (clients (st (mach l))))
                                     (st (mach l))) (mach l))) as [Hk _].
    { apply safe_send_initial. cbn. apply In_set_add. left. reflexivity. }
    unfold settle.
    destruct (fst (advance (send_initial ws) _)) as [a|X e k]; [exact Ht|].
    apply Forall_app. split; [exact Ht|]. constructor; [exact Hk|constructor].
  - apply (complete_kept inv good). exact Ht.
Qed.

Lemma step_kept (w : world) (l : server) e :
  event_ok inv e -> kept inv good l (step w l e).
Proof.
  intros He. destruct e as [| |ws|ws|ws|ws r|i|dt| |]; cbn [step];
    try (apply spawn_kept; first [apply safe_api_auth|apply safe_api_stock]).
  - apply spawn_kept, safe_cycle.
  - apply spawn_kept, safe_startup.
  - apply spawn_kept, safe_on_connection, He.
  - apply poke_kept, He.
  - apply poke_kept, He.
  - apply poke_kept, He.
  - apply complete_kept.
  - apply pass_kept.
Qed.

Lemma exec_tame (w : world) evs : forall l : server,
  tame inv good l -> tame inv good (exec w l evs).
Proof.
  induction evs as [|e evs IH]; intros l Ht; [exact Ht|].
  cbn. apply IH, step_tame, Ht.
Qed.

Lemma exec_kept (w : world) evs : forall l : server,
  Forall (event_ok inv) evs -> kept inv good l (exec w l evs).
Proof.
  induction evs as [|e evs IH]; intros l He; [apply kept_refl|].
  inversion He as [|? ? He1 He2]; subst.
  apply (kept_trans inv good l (step w l e)).
  - apply step_kept. exact He1.
  - apply IH. exact He2.
Qed.

End WsSafe.

Section IoRetryFacts.
Import IoServer.
Implicit Types m : machine state output.


Lemma io_token_step (w : world) m m1 m2 :
  io_token_kept_or_granted w m m1 -> io_token_kept_or_granted w m1 m2 ->
  io_token_kept_or_granted w m m2.
Proof.
  unfold io_token_kept_or_granted. intros H1 [H2|[H2|H2]].
  - rewrite H2. exact H1.
  - right. left. exact H2.
  - right. right. exact H2.
Qed.

Lemma try_payloads_token (w : world) formats :
  forall lastError m,
    io_token_kept_or_granted w m (snd (run w (try_payloads formats lastError) m)).
Proof.
  induction formats as [|format rest IH]; intros lastError m.
  - left. reflexivity.
  - cbn [try_payloads]. rewrite run_bind. cbn [await run fst snd answer].
    destruct (auth_reply w (length (issued m)) format) as [response|error] eqn:Hr.
    + destruct ((auth_status response =? 200) && truthy (find_token response)).
      * right. right. exists (length (issued m)), format, response.
        split; [exact Hr|reflexivity].
      * exact (IH lastError (elapse 0 (issue (AuthPost format) m))).
    + exact (IH (Some error) (elapse 0 (issue (AuthPost format) m))).
Qed.

Lemma getAuthToken_token (w : world) forceRefresh m :
  io_token_kept_or_granted w m (snd (run w (getAuthToken forceRefresh) m)).
Proof.
  unfold getAuthToken. rewrite run_bind. cbn [read now run fst snd].
  rewrite run_bind. cbn [now run fst snd].
  destruct (cached forceRefresh (st m) (clock m)).
  - left. reflexivity.
  - apply try_payloads_token.
Qed.

(** Whatever a fetch comes to, the token it leaves is the one held before,
    or null, or one the upstream granted. *)
Lemma fetchStockData_token (w : world) :
  forall depth m,
    io_token_kept_or_granted w m (snd (run w (fetchStockData depth) m)).
Proof.
  induction depth as [|depth IH]; intros m; [left; reflexivity|].
  rewrite run_fetchStockData_S. cbv zeta.
  pose proof (getAuthToken_token w false m) as H1.
  set (token := fst (run w (getAuthToken false) m)) in *.
  set (m1 := snd (run w (getAuthToken false) m)) in *.
  assert (Hfail : forall message m',
    st m' = st m1 ->
    io_token_kept_or_granted w m (snd (run w (fetch_failed message) m'))).
  { intros message m' Hst. rewrite run_fetch_failed. cbn [snd].
    unfold io_token_kept_or_granted in *. cbn [st add_out]. rewrite Hst.
    exact H1. }
  destruct (negb (truthy token)); [apply Hfail; reflexivity|].
  destruct (stock_reply w (length (issued m1)) token) as [response|error];
    [|apply Hfail; reflexivity].
  destruct (stock_status response =? 401).
  { eapply io_token_step; [|apply IH]. right. left. reflexivity. }
  destruct (negb (stock_status response =? 200)); [apply Hfail; reflexivity|].
  destruct (rows (stock_data response)) as [[stockData|before]|];
    [| |apply Hfail; reflexivity].
  - rewrite run_store_rows. cbn [snd].
    unfold io_token_kept_or_granted in *. cbn [st authToken set_lastFetchTime].
    destruct (io_scan_session stockData (st (elapse 0 (issue (StockGet token) m1))) [])
      as (-> & _). exact H1.
  - rewrite run_store_then_throw. cbn [snd].
    unfold io_token_kept_or_granted in *. cbn [st].
    destruct (io_scan_session before (st (elapse 0 (issue (StockGet token) m1))) [])
      as (-> & _). exact H1.
Qed.

(** A fetch that returns null leaves the last fetch time alone; and the
    store too, unless an array of the upstream held a null element. *)
Lemma fetchStockData_null (w : world) :
  forall depth m,
    fst (run w (fetchStockData depth) m) = FetchedNull ->
    lastFetchTime (st (snd (run w (fetchStockData depth) m)))
    = lastFetchTime (st m) /\
    ((forall n t response,
        stock_reply w n t = Resolved response ->
        null_free (stock_data response)) ->
     same_store m (snd (run w (fetchStockData depth) m))).
Proof.
  induction depth as [|depth IH]; intros m; [discriminate|].
  rewrite run_fetchStockData_S. cbv zeta.
  destruct (getAuthToken_frame w false m) as [Hs1 _].
  set (token := fst (run w (getAuthToken false) m)) in *.
  set (m1 := snd (run w (getAuthToken false) m)) in *.
  assert (Hfail : forall message m',
    st m' = st m1 ->
    lastFetchTime (st (snd (run w (fetch_failed message) m')))
    = lastFetchTime (st m) /\
    ((forall n t response,
        stock_reply w n t = Resolved response ->
        null_free (stock_data response)) ->
     same_store m (snd (run w (fetch_failed message) m')))).
  { intros message m' Hst. rewrite run_fetch_failed. cbn [snd].
    unfold same_store in *. cbn [st add_out]. rewrite Hst.
    split; [apply Hs1|intros _; exact Hs1]. }
  destruct (negb (truthy token)); [intros _; apply Hfail; reflexivity|].
  destruct (stock_reply w (length (issued m1)) token) as [response|error] eqn:Hr;
    [|intros _; apply Hfail; reflexivity].
  destruct (stock_status response =? 401).
  { intros Hnull. destruct (IH _ Hnull) as [Ht Hs]. split.
    - rewrite Ht. apply Hs1.
    - intros Hfree. eapply same_store_trans; [|apply Hs; exact Hfree].
      exact Hs1. }
  destruct (negb (stock_status response =? 200));
    [intros _; apply Hfail; reflexivity|].
  destruct (rows (stock_data response)) as [[stockData|before]|] eqn:Hrows;
    [| |intros _; apply Hfail; reflexivity].
  - rewrite run_store_rows. discriminate.
  - intros _. rewrite run_store_then_throw. cbn [snd st]. split.
    + destruct (io_scan_session before (st (elapse 0 (issue (StockGet token) m1))) [])
        as (_ & -> & _). apply Hs1.
    + intros Hfree. apply Hfree in Hr.
      destruct (stock_data response) as [|v|[items|items]|o [[items|items]|]];
        try destruct v; cbn in Hrows, Hr; try discriminate; contradiction.
Qed.

End IoRetryFacts.

(** ** What the stored map is made of *)

Section SoundFacts.
Context {St Out : Type} (w : world) (inv : St -> Prop).

Lemma sound_bind {A B} (post : A -> Prop) (post' : B -> Prop)
    (p : prog St Out A) (f : A -> prog St Out B) s :
  sound w inv post p s ->
  (forall a s', post a -> sound w inv post' (f a) s') ->
  sound w inv post' (bind p f) s.
Proof.
  revert s. induction p as [a|k IH|s0 k IH|k IH|o k IH|X e k IH];
    intros s Hp Hf; cbn in *; auto.
  destruct Hp as [H1 H2]. split; auto.
Qed.

Lemma sound_weaken {A} (post post' : A -> Prop) (p : prog St Out A) s :
  (forall a, post a -> post' a) ->
  sound w inv post p s -> sound w inv post' p s.
Proof.
  intros Hpost. revert s.
  induction p as [a|k IH|s0 k IH|k IH|o k IH|X e k IH];
    intros s Hp; cbn in *; auto.
  destruct Hp as [H1 H2]. split; auto.
Qed.

(** Advancing a sound program from variables satisfying the invariant: the
    invariant still holds, and what remains is sound. *)
Lemma advance_sound {A} (p : prog St Out A) (m : machine St Out) :
  sound w inv (fun _ => True) p (st m) ->
  (match fst (advance p m) with
   | Done _ => True
   | Blocked e k =>
       forall n s', sound w inv (fun _ => True) (k (answer w n e)) s'
   end) /\
  (inv (st m) -> inv (st (snd (advance p m)))).
Proof.
  revert m. induction p as [a|k IH|s0 k IH|k IH|o k IH|X e k IH];
    intros m Hp; cbn in *.
  - split; [exact I|auto].
  - apply IH. exact Hp.
  - destruct Hp as [H1 H2]. destruct (IH (set_st s0 m) H2) as [Hk Hi].
    split; [exact Hk|]. intros Hm. apply Hi. cbn. auto.
  - apply IH. apply Hp.
  - apply (IH (add_out o m)). exact Hp.
  - split; [exact Hp|auto].
Qed.

Context {A : Type}.
Implicit Types l : loop St Out A.

Lemma settle_upheld id seq (p : prog St Out A) ws fs next (m : machine St Out) :
  sound w inv (fun _ => True) p (st m) ->
  Forall (fun c => forall n s',
            sound w inv (fun _ => True) (sus_k c (answer w n (sus_e c))) s') ws ->
  inv (st m) ->
  upheld w inv (settle id seq (advance p m) ws fs next).
Proof.
  intros Hp Hws Hinv. destruct (advance_sound p m Hp) as [Hk Hi].
  unfold settle, upheld, tamed.
  destruct (fst (advance p m)) as [a|X e k]; cbn [waiting mach].
  - split; [exact Hws|auto].
  - split; [|auto]. apply Forall_app. split; [exact Hws|].
    constructor; [exact Hk|constructor].
Qed.

Lemma spawn_upheld (p : prog St Out A) l :
  sound w inv (fun _ => True) p (st (mach l)) ->
  upheld w inv l -> upheld w inv (spawn p l).
Proof.
  intros Hp [Ht Hi]. unfold spawn. apply settle_upheld; assumption.
Qed.

Lemma complete_upheld i l : upheld w inv l -> upheld w inv (complete w i l).
Proof.
  intros [Ht Hi]. unfold complete.
  destruct (nth_error (waiting l) i) as [c|] eqn:Hc; [|split; assumption].
  apply settle_upheld.
  - apply nth_error_In in Hc. unfold tamed in Ht.
    rewrite Forall_forall in Ht. apply Ht. apply list_elem_of_In. exact Hc.
  - apply Forall_drop_nth. exact Ht.
  - exact Hi.
Qed.

Lemma poke_upheld (f : St -> St) l :
  (forall s, inv s -> inv (f s)) -> upheld w inv l -> upheld w inv (poke f l).
Proof. intros Hf [Ht Hi]. split; [exact Ht|cbn; auto]. Qed.

Lemma pass_upheld dt l : upheld w inv l -> upheld w inv (pass dt l).
Proof. intros [Ht Hi]. split; [exact Ht|exact Hi]. Qed.

End SoundFacts.

Section WsSound.
Import WsServer.
Context (w : world).

Lemma fetched_whole_token s token :
  fetched_whole w s -> fetched_whole w (set_authToken token s).
Proof. intros H. exact H. Qed.

Lemma fetched_whole_clients s cs :
  fetched_whole w s -> fetched_whole w (set_clients cs s).
Proof. intros H. exact H. Qed.

Lemma as_array_taken data items :
  as_array data = Some (Records items) -> taken data items.
Proof.
  destruct data as [|v|a|o result]; cbn.
  - discriminate.
  - destruct (truthy v); [|discriminate]. intros [= <-]. split; reflexivity.
  - intros [= ->]. reflexivity.
  - intros [= <-]. reflexivity.
Qed.

Lemma sound_auth_attempts attempts rc s :
  sound w (fetched_whole w) (fun _ => True) (auth_attempts attempts rc) s.
Proof.
  revert s. induction attempts as [|a rest IH]; intros s; [exact I|].
  cbn [auth_attempts].
  apply (sound_bind w _ (fun _ => True)); [cbn; auto|].
  intros [response|error] s' _.
  - destruct (result_code response) as [code|]; [|exact I].
    destruct (strict_eq code (VStr "200")).
    + destruct (result_token response) as [token|]; [|exact I].
      cbn. auto.
    + apply (sound_bind w _ (fun _ => True)); [|auto].
      destruct (a <? rc)%nat; cbn; auto.
  - destruct (transient error && (a <? rc)%nat); [|exact I].
    apply (sound_bind w _ (fun _ => True)); [cbn; auto|auto].
Qed.

(** The array [getAllStockCompanies] returns was taken from an answer of
    the upstream. *)
Lemma sound_stock_attempts attempts rc token s :
  sound w (fetched_whole w)
        (fun r => forall items, r = Some (Records items) -> fetched_from w items)
        (stock_attempts attempts rc token) s.
Proof.
  revert token s. induction attempts as [|a rest IH]; intros token s;
    [cbn; discriminate|].
  cbn [stock_attempts].
  apply (sound_bind w _ (fun r => exists n, r = stock_reply w n token)).
  { cbn. intros n _. exists n. reflexivity. }
  intros [response|error] s' [n Hn].
  - destruct (as_array (stock_data response)) as [fetched|] eqn:Harr.
    + cbn. intros items [= ->]. exists n, token, response.
      split; [symmetry; exact Hn|apply as_array_taken; exact Harr].
    + destruct (a <? rc)%nat; [apply IH|cbn; discriminate].
  - destruct (transient error || is_401 error); [|cbn; discriminate].
    apply (sound_bind w _ (fun _ => True)).
    + destruct (is_401 error); [|exact I].
      apply (sound_bind w _ (fun _ => True)); [apply sound_auth_attempts|].
      intros; cbn; auto.
    + intros token' s'' _. destruct (a <? rc)%nat; [|cbn; discriminate].
      apply (sound_bind w _ (fun _ => True)); [cbn; auto|auto].
Qed.

Lemma sound_getAllStockCompanies token rc s :
  sound w (fetched_whole w)
        (fun r => forall items, r = Some (Records items) -> fetched_from w items)
        (getAllStockCompanies token rc) s.
Proof.
  unfold getAllStockCompanies. destruct (truthy token);
    [apply sound_stock_attempts|cbn; discriminate].
Qed.

Lemma sound_send_each cs ready msg s :
  sound w (fetched_whole w) (fun _ => True) (send_each cs ready msg) s.
Proof.
  induction cs as [|c rest IH]; [exact I|].
  cbn [send_each]. destruct (is_open (ready c)); cbn; exact IH.
Qed.

Lemma sound_publish isInitial stockData s :
  fetched_from w stockData ->
  sound w (fetched_whole w) (fun _ => True) (publish isInitial stockData) s.
Proof.
  intros Hfrom. unfold publish. cbn. rewrite scan_map. split.
  - intros _. right. exists stockData. split; [exact Hfrom|reflexivity].
  - match goal with |- context [if ?b then _ else _] => destruct b end;
      [|exact I].
    cbn. intros t. apply sound_send_each.
Qed.

Lemma sound_cycle isInitial s :
  sound w (fetched_whole w) (fun _ => True)
        (fetchAndBroadcastStockData isInitial) s.
Proof.
  unfold fetchAndBroadcastStockData.
  apply (sound_bind w _ (fun _ => True)).
  - unfold ensure_token. apply (sound_bind w _ (fun _ => True)); [exact I|].
    intros s0 s' _. destruct (truthy (authToken s0)); [exact I|].
    apply (sound_bind w _ (fun _ => True)); [apply sound_auth_attempts|].
    intros; exact I.
  - intros [|] s' _; [|exact I].
    apply (sound_bind w _ (fun _ => True)); [exact I|]. intros s0 s'' _.
    eapply sound_bind; [apply sound_getAllStockCompanies|].
    intros [[stockData|before]|] s3 Hfrom; [|exact I|exact I].
    apply sound_publish. apply Hfrom. reflexivity.
Qed.

Lemma sound_startup s : sound w (fetched_whole w) (fun _ => True) startup s.
Proof.
  unfold startup.
  apply (sound_bind w _ (fun _ => True)); [apply sound_auth_attempts|].
  intros token s' _. destruct (truthy token); [apply sound_cycle|exact I].
Qed.

Lemma sound_api_auth s : sound w (fetched_whole w) (fun _ => True) api_auth s.
Proof.
  unfold api_auth.
  apply (sound_bind w _ (fun _ => True)); [apply sound_auth_attempts|].
  intros; exact I.
Qed.

Lemma sound_api_stock s : sound w (fetched_whole w) (fun _ => True) api_stock s.
Proof.
  unfold api_stock. apply (sound_bind w _ (fun _ => True)); [exact I|].
  intros s0 s1 _. apply (sound_bind w _ (fun _ => True)).
  - destruct (truthy (authToken s0)); [exact I|].
    apply (sound_bind w _ (fun _ => True)); [apply sound_auth_attempts|].
    intros; exact I.
  - intros _ s2 _. apply (sound_bind w _ (fun _ => True)); [exact I|].
    intros s3 s4 _.
    eapply sound_bind; [apply sound_getAllStockCompanies|]. intros; exact I.
Qed.

Lemma sound_on_connection ws s :
  sound w (fetched_whole w) (fun _ => True) (on_connection ws) s.
Proof.
  unfold on_connection, modify. cbn [bind sound].
  split; [apply fetched_whole_clients|].
  unfold send_initial.
  change (read (St:=state) (Out:=output))
    with (Read (St:=state) (Out:=output) Ret).
  cbn [bind sound].
  match goal with |- context [if ?b then _ else _] => destruct b end;
    [|apply sound_cycle].
  cbn. intros t. exact I.
Qed.

Lemma step_upheld (l : server) e :
  upheld w (fetched_whole w) l -> upheld w (fetched_whole w) (step w l e).
Proof.
  intros Hl. destruct e as [| |ws|ws|ws|ws r|i|dt| |]; cbn [step].
  - apply spawn_upheld; [apply sound_cycle|exact Hl].
  - apply spawn_upheld; [apply sound_startup|exact Hl].
  - apply spawn_upheld; [apply sound_on_connection|exact Hl].
  - apply poke_upheld; [|exact Hl]. intros s H. exact H.
  - apply poke_upheld; [|exact Hl]. intros s H. exact H.
  - apply poke_upheld; [|exact Hl]. intros s H. exact H.
  - apply complete_upheld. exact Hl.
  - apply pass_upheld. exact Hl.
  - apply spawn_upheld; [apply sound_api_auth|exact Hl].
  - apply spawn_upheld; [apply sound_api_stock|exact Hl].
Qed.

Lemma exec_upheld evs : forall l : server,
  upheld w (fetched_whole w) l -> upheld w (fetched_whole w) (exec w l evs).
Proof.
  induction evs as [|e evs IH]; intros l Hl; [exact Hl|].
  cbn. apply IH, step_upheld, Hl.
Qed.

End WsSound.

(** ** The stored token (WebSocket server) *)

Section WsTokenFacts.
Import WsServer.
Implicit Types m : machine state output.

Lemma token_step (w : world) m m1 m2 :
  token_kept_or_granted w m m1 -> token_kept_or_granted w m1 m2 ->
  token_kept_or_granted w m m2.
Proof.
  unfold token_kept_or_granted. intros H1 [H2|H2].
  - rewrite H2. exact H1.
  - right. exact H2.
Qed.

Lemma auth_attempts_token (w : world) attempts rc :
  forall m,
    token_kept_or_granted w m (snd (run w (auth_attempts attempts rc) m)).
Proof.
  induction attempts as [|a rest IH]; intros m; [left; reflexivity|].
  rewrite run_auth_attempts_cons.
  destruct (classify (auth_reply w (length (issued m)) WrappedCredentials))
    as [token| | |] eqn:Hc.
  - right. exists (length (issued m)), WrappedCredentials. exact Hc.
  - destruct (a <? rc)%nat.
    + exact (IH (slept a (posted m))).
    + exact (IH (posted m)).
  - destruct (a <? rc)%nat; [|left; reflexivity].
    exact (IH (slept a (posted m))).
  - left. reflexivity.
Qed.

Lemma reauthenticated_token (w : world) error m :
  token_kept_or_granted w m (reauthenticated w error m).
Proof.
  unfold reauthenticated. destruct (is_401 error); [|left; reflexivity].
  apply auth_attempts_token.
Qed.

Lemma stock_attempts_token (w : world) attempts rc :
  forall token m,
    token_kept_or_granted w m
      (snd (run w (stock_attempts attempts rc token) m)).
Proof.
  induction attempts as [|a rest IH]; intros token m; [left; reflexivity|].
  rewrite run_stock_attempts_cons.
  destruct (stock_reply w (length (issued m)) token) as [response|error].
  - destruct (as_array (stock_data response)); [left; reflexivity|].
    destruct (a <? rc)%nat; [|left; reflexivity].
    exact (IH token (got token m)).
  - destruct (transient error || is_401 error); [|left; reflexivity].
    cbv zeta.
    pose proof (reauthenticated_token w error (got token m)) as H.
    destruct (a <? rc)%nat; [|exact H].
    eapply token_step; [exact H|].
    match goal with |- context [stock_attempts rest rc ?t] =>
      exact (IH t (slept a (reauthenticated w error (got token m)))) end.
Qed.

(** Up to the point where it publishes or gives up, a cycle leaves the
    token it found, or one the upstream granted. *)
Lemma before_publish_token (w : world) m :
  token_kept_or_granted w m (before_publish w m).
Proof.
  unfold before_publish. cbv zeta.
  assert (H1 : token_kept_or_granted w m (snd (run w ensure_token m))).
  { unfold ensure_token. rewrite run_bind. cbn [read run fst snd].
    destruct (truthy (authToken (st m))); [left; reflexivity|].
    rewrite run_bind. cbn [run snd]. apply auth_attempts_token. }
  destruct (fst (run w ensure_token m)); [|exact H1].
  eapply token_step; [exact H1|].
  unfold getAllStockCompanies.
  destruct (truthy _); [apply stock_attempts_token|left; reflexivity].
Qed.

End WsTokenFacts.

(** * The claims *)

Section DiffClaims.







(** The example of the specification: AAA is unchanged, BBB is new and its
    indicator is "Down". *)
Example diff_of_the_specification :
  snd (WsServer.scan false (fresh_map [item "AAA" 10 0 0])
                     [item "AAA" 10 0 0; item "BBB" 5 (-1) (-20)])
  = [WsServer.mapItem (item "BBB" 5 (-1) (-20))] /\
  WsServer.indicator (WsServer.mapItem (item "BBB" 5 (-1) (-20))) = "Down".
Proof. split; vm_compute; reflexivity. Qed.

(** With nothing stored, every fetched record is reported. *)
Lemma cold_start_reports_all (isInitial : bool) stockData :
  snd (WsServer.scan isInitial [] stockData)
  = map WsServer.mapItem stockData.
Proof.
  rewrite scan_updates.
  induction (map WsServer.mapItem stockData) as [|r rest IH]; [reflexivity|].
  cbn [List.filter]. unfold WsServer.hasUpdate at 1. cbn [map_get].
  rewrite orb_true_r, IH. reflexivity.
Qed.

(** The store of the socket.io server is a plain object. A record whose code
    names a method every object inherits is compared with that method:
    without a price and a change it is neither reported nor stored, though
    nothing is stored under its code. *)
Example inherited_code_is_not_new :
  run always_timeout
      (IoServer.for_each [ {[ "trading_code" := VStr "constructor" ]} ] [])
      (IoServer.boot 0)
  = ([], IoServer.boot 0).
Proof. reflexivity. Qed.

(** A record whose code is [__proto__] is not stored under its code: it
    becomes the prototype of the store, and its fields are then read under
    every code that is not stored. The record AAA, reported when it comes
    alone, is not reported after such a record. *)
Example proto_code_shadows_later_codes :
  fst (run always_timeout
           (IoServer.for_each
              [ {[ "trading_code" := VStr "__proto__"; "change" := VNum 1;
                   "AAA" := VNum 1 ]};
                {[ "trading_code" := VStr "AAA" ]} ] [])
           (IoServer.boot 0))
  = [ {[ "trading_code" := VStr "__proto__"; "change" := VNum 1;
         "AAA" := VNum 1 ]} ] /\
  fst (run always_timeout
           (IoServer.for_each [ {[ "trading_code" := VStr "AAA" ]} ] [])
           (IoServer.boot 0))
  = [ {[ "trading_code" := VStr "AAA" ]} ].
Proof. split; reflexivity. Qed.


End DiffClaims.

Section RetryClaims.
Import WsServer.



(** The retry after a 401 carries the token that is stored then, whatever
    the call was given: here re-authentication fails, and the second request
    carries the token that was stored before the call. *)
Example retry_carries_the_stored_token :
  issued (snd (run locked_out (getAllStockCompanies (VStr "given") 2)
                   ws_with_token))
  = [ReqStock (VStr "given"); ReqAuth WrappedCredentials; ReqSleep 5000;
     ReqStock (VStr "tok"); ReqAuth WrappedCredentials].
Proof. reflexivity. Qed.


End RetryClaims.

Section StoreClaims.

(** C5 (amended). In the WebSocket server the stored map is only ever
    replaced as a whole. Whatever events the server has handled since it
    started, with calls suspended and resumed in any order, the stored map
    is the empty map of the start or the map built from the records of one
    answer of the upstream to a stock request, and from nothing else. After
    a cycle it is the map it was, when the fetch failed, or else the map
    built from the fetched items alone. In the socket.io server the store
    is written record by record in place: a code that no fetched record
    carries keeps the record it held. *)
Theorem store_replaced_or_merged :
  (forall (w : world) ready t0 (evs : list WsServer.event),
     fetched_whole w
       (st (mach (WsServer.exec w (WsServer.boot ready t0) evs)))) /\
  (forall (w : world) (isInitial : bool)
          (m : machine WsServer.state WsServer.output),
     WsServer.latestStockMap
       (st (snd (run w (WsServer.fetchAndBroadcastStockData isInitial) m)))
     = match cycle_fetch w m with
       | Some stockData => fresh_map stockData
       | None => WsServer.latestStockMap (st m)
       end) /\
  (forall (w : world) (m : machine IoServer.state IoServer.output)
          stockData (k : string),
     (forall stock, In stock stockData -> keyed stock = true ->
                    key_of stock <> k) ->
     IoServer.previousStockData
       (st (snd (run w (IoServer.for_each stockData []) m))) !! k
     = IoServer.previousStockData (st m) !! k).
Proof.
  split; [|split].
  - intros w ready t0 evs.
    apply (exec_upheld w evs (WsServer.boot ready t0)).
    split; [constructor|left; reflexivity].
  - intros w isInitial m. rewrite run_cycle_fetch.
    destruct (before_publish_frame w m) as (_ & Hmap & _).
    destruct (cycle_fetch w m) as [stockData|]; [|exact Hmap].
    rewrite run_publish. reflexivity.
  - intros w m stockData k Hk. rewrite run_for_each. cbn [snd st set_st].
    apply io_scan_other_keys. exact Hk.
Qed.

Lemma store_replaced_or_merged_witness :
  IoServer.previousStockData
    (st (snd (run always_timeout (IoServer.for_each [quote "BBB" 5 (-1) 0] [])
                  (io_holding (quote "AAA" 10 0 0))))) !! "AAA"
  = IoServer.previousStockData (st (io_holding (quote "AAA" 10 0 0))) !! "AAA".
Proof.
  apply (proj2 (proj2 store_replaced_or_merged) always_timeout
           (io_holding (quote "AAA" 10 0 0)) [quote "BBB" 5 (-1) 0] "AAA").
  intros stock [<-|[]] _. vm_compute. discriminate.
Defined.

(** After a start-up fetch and a later cycle that got other records, the
    WebSocket server holds the records of the later answer alone. *)
Example second_answer_replaces_the_first :
  WsServer.latestStockMap
    (st (snd (run (serving [item "BBB" 5 (-1) (-20)])
                  (WsServer.fetchAndBroadcastStockData false)
                  (ws_serving [item "AAA" 10 0 0]))))
  = fresh_map [item "BBB" 5 (-1) (-20)].
Proof. reflexivity. Qed.

(** C5 as stated fails: after the socket.io server has fetched BBB alone its
    store still holds AAA beside BBB; the store was updated in place, not
    replaced by the newly fetched set. *)
Lemma store_updated_in_place :
  let m := snd (run always_timeout
                    (IoServer.for_each [quote "BBB" 5 (-1) 0] [])
                    (io_holding (quote "AAA" 10 0 0))) in
  IoServer.previousStockData (st m) !! "AAA" = Some (quote "AAA" 10 0 0) /\
  IoServer.previousStockData (st m) !! "BBB" = Some (quote "BBB" 5 (-1) 0).
Proof. split; vm_compute; reflexivity. Qed.

End StoreClaims.

Section MessageClaims.
Import WsServer.
Implicit Types m : machine state output.

Lemma recipients_same m m' :
  same_hub m m' -> recipients (st m') = recipients (st m).
Proof.
  intros (_ & _ & Hc & Hr). unfold recipients. rewrite Hc, Hr. reflexivity.
Qed.

(** C6 (amended). A message of the WebSocket server is the object
    [{type, data, timestamp}]. A cycle that is not initial and found updates
    sends [type: "stock_update"] with the updates as data; an initial cycle
    sends [type: "stock_data"] with all records of the new map; a socket
    connecting while records are stored is sent [type: "stock_data"] with
    all stored records. Nothing else is sent. *)
Theorem messages_carry_type_data_timestamp :
  (forall (w : world) (isInitial : bool) m,
     outs (snd (run w (fetchAndBroadcastStockData isInitial) m))
     = outs m ++
       match cycle_fetch w m with
       | None => []
       | Some stockData =>
           if (0 <? length (snd (scan isInitial (latestStockMap (st m))
                                      stockData)))%nat || isInitial
           then map (fun c => Send c
                       {| msg_type := if isInitial then "stock_data"
                                      else "stock_update";
                          msg_data :=
                            if isInitial
                            then map_values (fresh_map stockData)
                            else snd (scan false (latestStockMap (st m))
                                           stockData);
                          msg_timestamp := clock (before_publish w m) |})
                    (recipients (st m))
           else []
       end) /\
  (forall (w : world) (ws : nat) m,
     (0 <? map_size (latestStockMap (st m)))%nat = true ->
     outs (snd (run w (on_connection ws) m))
     = outs m ++ [Send ws {| msg_type := "stock_data";
                             msg_data := map_values (latestStockMap (st m));
                             msg_timestamp := clock m |}]).
Proof.
  split.
  - intros w isInitial m. rewrite run_cycle_fetch.
    pose proof (before_publish_frame w m) as Hframe.
    destruct Hframe as (Houts & Hmap & Hrest).
    destruct (cycle_fetch w m) as [stockData|].
    + rewrite run_publish. cbn [snd outs].
      rewrite Houts, Hmap, (recipients_same m (before_publish w m))
        by (repeat split; tauto).
      unfold cycle_message. destruct isInitial; reflexivity.
    + cbn [snd]. rewrite Houts, app_nil_r. reflexivity.
  - intros w ws m Hsize. unfold on_connection, send_initial.
    rewrite run_bind. cbn [modify run fst snd].
    rewrite run_bind. cbn [read run fst snd st set_st set_clients latestStockMap].
    rewrite Hsize. reflexivity.
Qed.

Lemma messages_carry_type_data_timestamp_witness :
  outs (snd (run always_timeout (on_connection 2)
                 (ws_serving [item "AAA" 10 0 0])))
  = outs (ws_serving [item "AAA" 10 0 0])
    ++ [Send 2 {| msg_type := "stock_data";
                  msg_data := map_values
                    (latestStockMap (st (ws_serving [item "AAA" 10 0 0])));
                  msg_timestamp := clock (ws_serving [item "AAA" 10 0 0]) |}].
Proof.
  apply (proj2 messages_carry_type_data_timestamp always_timeout 2%nat
           (ws_serving [item "AAA" 10 0 0])).
  reflexivity.
Defined.

(** C6 as stated fails: the type of the message a connecting socket gets is
    "stock_data", not "full", and the type of the message an ordinary cycle
    broadcasts is "stock_update", not "update". *)
Lemma message_types_are_stock_data_and_stock_update :
  (exists msg,
     outs (snd (run always_timeout (on_connection 2)
                    (ws_serving [item "AAA" 10 0 0]))) = [Send 2 msg] /\
     msg_type msg = "stock_data" /\ msg_type msg <> "full") /\
  (exists msg,
     outs (snd (run (serving [item "AAA" 11 1 10])
                    (fetchAndBroadcastStockData false)
                    (ws_serving [item "AAA" 10 0 0]))) = [Send 1 msg] /\
     msg_type msg = "stock_update" /\ msg_type msg <> "update").
Proof.
  split; eexists; (split; [vm_compute; reflexivity|]);
    (split; [reflexivity|discriminate]).
Qed.

End MessageClaims.

Section FailureClaims.

(** C9 (amended). A cycle whose fetch fails leaves the records as they were,
    but not all the stored state. In the WebSocket server, when no token
    can be had, when [getAllStockCompanies] returns null or when the array
    holds a null element, the cycle sends nothing and the stored map and
    the registry are unchanged; the stored token is the one held before or
    one the upstream granted meanwhile. An array with no records is not a
    failure: the stored map is replaced by the empty map. In the socket.io
    server, when [fetchStockData] returns null, the last fetch time is
    unchanged and the token is the one held before, null, or one found in
    an answer of the upstream; the store is unchanged unless an array of
    the upstream held a null element, in which case the records before it
    have been written. *)
Theorem failed_cycle_keeps_the_records :
  (forall (w : world) (isInitial : bool)
          (m : machine WsServer.state WsServer.output),
     cycle_fetch w m = None ->
     same_hub m (snd (run w (WsServer.fetchAndBroadcastStockData isInitial) m))
     /\ token_kept_or_granted w m
          (snd (run w (WsServer.fetchAndBroadcastStockData isInitial) m))) /\
  (forall (w : world) (isInitial : bool)
          (m : machine WsServer.state WsServer.output),
     cycle_fetch w m = Some [] ->
     WsServer.latestStockMap
       (st (snd (run w (WsServer.fetchAndBroadcastStockData isInitial) m)))
     = []) /\
  (forall (w : world) (depth : nat)
          (m : machine IoServer.state IoServer.output),
     fst (run w (IoServer.fetchStockData depth) m) = IoServer.FetchedNull ->
     IoServer.lastFetchTime
       (st (snd (run w (IoServer.fetchStockData depth) m)))
     = IoServer.lastFetchTime (st m) /\
     io_token_kept_or_granted w m
       (snd (run w (IoServer.fetchStockData depth) m)) /\
     ((forall n t response,
         stock_reply w n t = Resolved response ->
         null_free (stock_data response)) ->
      same_store m (snd (run w (IoServer.fetchStockData depth) m)))).
Proof.
  split; [|split].
  - intros w isInitial m Hfail. rewrite run_cycle_fetch, Hfail. cbn [snd].
    split; [apply before_publish_frame|apply before_publish_token].
  - intros w isInitial m Hempty. rewrite run_cycle_fetch, Hempty.
    rewrite run_publish. reflexivity.
  - intros w depth m Hnull.
    destruct (fetchStockData_null w depth m Hnull) as [Htime Hstore].
    split; [exact Htime|]. split; [apply fetchStockData_token|exact Hstore].
Qed.

Lemma failed_cycle_keeps_the_records_witness :
  same_hub (ws_serving [item "AAA" 10 0 0])
    (snd (run no_data (WsServer.fetchAndBroadcastStockData false)
              (ws_serving [item "AAA" 10 0 0]))) /\
  WsServer.latestStockMap
    (st (snd (run (serving []) (WsServer.fetchAndBroadcastStockData false)
                  (ws_serving [item "AAA" 10 0 0])))) = [] /\
  same_store (io_holding (quote "AAA" 10 0 0))
    (snd (run no_data (IoServer.fetchStockData 1)
              (io_holding (quote "AAA" 10 0 0)))).
Proof.
  split; [|split].
  - apply (proj1 failed_cycle_keeps_the_records no_data false
             (ws_serving [item "AAA" 10 0 0])).
    vm_compute. reflexivity.
  - apply (proj1 (proj2 failed_cycle_keeps_the_records) (serving []) false
             (ws_serving [item "AAA" 10 0 0])).
    vm_compute. reflexivity.
  - apply (proj2 (proj2 failed_cycle_keeps_the_records) no_data 1%nat
             (io_holding (quote "AAA" 10 0 0))).
    + vm_compute. reflexivity.
    + intros n t response [= <-]. exact I.
Defined.

(** C9 as stated fails. In the WebSocket server an answer with no records
    empties the stored map, and a cycle that fails on 401 answers has
    replaced the stored token. In the socket.io server an empty body makes
    no record and yet the last fetch time is set; and when the array holds
    a null element after a record, the fetch returns null with that record
    written to the store. *)
Lemma failed_cycle_changes_stored_state :
  (WsServer.latestStockMap (st (ws_serving [item "AAA" 10 0 0])) <> [] /\
   WsServer.latestStockMap
     (st (snd (run (serving []) (WsServer.fetchAndBroadcastStockData false)
                   (ws_serving [item "AAA" 10 0 0])))) = []) /\
  (cycle_fetch always_401 ws_with_token = None /\
   WsServer.authToken (st ws_with_token) = VStr "tok" /\
   WsServer.authToken
     (st (snd (run always_401 (WsServer.fetchAndBroadcastStockData false)
                   ws_with_token))) = VStr "fresh") /\
  (run (answering (BPrimitive (VStr EmptyString))) (IoServer.for_each [∅] [])
       (IoServer.boot 5)
   = ([], IoServer.boot 5) /\
   IoServer.lastFetchTime (st (IoServer.boot 5)) = None /\
   IoServer.lastFetchTime
     (st (snd (run (answering (BPrimitive (VStr EmptyString)))
                   (IoServer.fetchStockData 1) (IoServer.boot 5))))
   = Some 5) /\
  (fst (run (serving_null_after [quote "AAA" 11 1 5])
            (IoServer.fetchStockData 1) (io_holding (quote "AAA" 10 0 0)))
   = IoServer.FetchedNull /\
   IoServer.previousStockData (st (io_holding (quote "AAA" 10 0 0))) !! "AAA"
   = Some (quote "AAA" 10 0 0) /\
   IoServer.previousStockData
     (st (snd (run (serving_null_after [quote "AAA" 11 1 5])
                   (IoServer.fetchStockData 1)
                   (io_holding (quote "AAA" 10 0 0))))) !! "AAA"
   = Some (quote "AAA" 11 1 5)).
Proof.
  split; [|split; [|split]].
  - split; [vm_compute; discriminate|vm_compute; reflexivity].
  - repeat split; vm_compute; reflexivity.
  - repeat split; vm_compute; reflexivity.
  - repeat split; vm_compute; reflexivity.
Qed.

(** C10. In the socket.io server a fetched record with neither a
    [dseCompanyCode] nor a [trading_code] is passed over by [forEach]: the
    loop goes on as if the record were not in the array. From the start of
    the process on, no fetch and no connection stores or sends a record
    without a code. *)
Theorem keyless_records_are_skipped :
  (forall (w : world) stock rest updates
          (m : machine IoServer.state IoServer.output),
     truthy (prop stock "dseCompanyCode") = false ->
     truthy (prop stock "trading_code") = false ->
     run w (IoServer.for_each (stock :: rest) updates) m
     = run w (IoServer.for_each rest updates) m) /\
  (forall t0, clean (IoServer.boot t0)) /\
  (forall (w : world) (depth : nat)
          (m : machine IoServer.state IoServer.output),
     clean m -> clean (snd (run w (IoServer.fetchStockData depth) m))) /\
  (forall (w : world) (socket : nat)
          (m : machine IoServer.state IoServer.output),
     clean m -> clean (snd (run w (IoServer.on_connection socket) m))).
Proof.
  split; [|split; [|split]].
  - intros w stock rest updates m H1 H2. cbn [IoServer.for_each].
    unfold IoServer.stockCode, or_else. rewrite H1, H2. reflexivity.
  - intros t0. split; [apply map_Forall_empty|constructor].
  - intros w depth m. apply fetchStockData_clean.
  - intros w socket m. apply on_connection_clean.
Qed.

Lemma keyless_records_are_skipped_witness :
  run always_timeout
      (IoServer.for_each [ {[ "change" := VNum 1 ]}; quote "AAA" 10 0 0 ] [])
      (IoServer.boot 0)
  = run always_timeout (IoServer.for_each [quote "AAA" 10 0 0] [])
        (IoServer.boot 0) /\
  clean (snd (run (serving [ {[ "change" := VNum 1 ]}; quote "AAA" 10 0 0 ])
                  (IoServer.fetchStockData 1) (IoServer.boot 0))).
Proof.
  split.
  - apply (proj1 keyless_records_are_skipped); reflexivity.
  - apply (proj1 (proj2 (proj2 keyless_records_are_skipped))).
    apply (proj1 (proj2 keyless_records_are_skipped)).
Defined.

End FailureClaims.

Section HubClaims.
Import WsServer.

Lemma unregistered_ok (c : nat) e :
  e <> Connect c -> event_ok (unregistered c) e.
Proof.
  destruct e as [| |ws|ws|ws|ws r|i|dt| |]; intros Hne; cbn; auto;
    unfold unregistered; intros s Hs Hin; cbn in Hin.
  - apply In_set_add in Hin. destruct Hin as [->|Hin]; [congruence|auto].
  - apply In_set_delete in Hin. tauto.
  - apply In_set_delete in Hin. tauto.
Qed.

Lemma registered_ok (c : nat) e :
  e <> Close c -> e <> Error c -> event_ok (registered c) e.
Proof.
  destruct e as [| |ws|ws|ws|ws r|i|dt| |]; intros Hclose Herror; cbn; auto;
    unfold registered; intros s Hs; cbn.
  - apply In_set_add. right. exact Hs.
  - apply In_set_delete. split; [congruence|exact Hs].
  - apply In_set_delete. split; [congruence|exact Hs].
Qed.

(** C7 (amended). A socket leaves the registry through its own [close] or
    [error] event and through nothing else. Either event removes that
    socket from [clients] and nobody else, and sends nothing. Once a socket
    is out of the registry, whatever happens next short of its connecting
    anew (ticks, cycles in flight being resumed, other sockets coming and
    going), no message is sent to it. A broadcast reaches every registered
    socket that is open, whatever the state of the others, and removes
    nobody: the loop skips a socket that is not open and leaves it
    registered. And a registered socket stays registered whatever happens
    short of its own [close] or [error] event, broadcasts that find it
    closed included. *)
Theorem socket_leaves_on_close_or_error_only :
  (forall (w : world) (l : server) (c : nat) (e : event),
     e = Close c \/ e = Error c ->
     ~ In c (clients (st (mach (step w l e)))) /\
     (forall c', c' <> c ->
        In c' (clients (st (mach (step w l e)))) <->
        In c' (clients (st (mach l)))) /\
     outs (mach (step w l e)) = outs (mach l)) /\
  (forall (w : world) ready t0 (before after : list event) (c : nat),
     ~ In c (clients (st (mach (exec w (boot ready t0) before)))) ->
     Forall (fun e => e <> Connect c) after ->
     exists sent,
       outs (mach (exec w (exec w (boot ready t0) before) after))
       = outs (mach (exec w (boot ready t0) before)) ++ sent /\
       Forall (not_to c) sent) /\
  (forall (w : world) msg (m : machine state output),
     outs (snd (run w (broadcast msg) m))
     = outs m ++ map (fun c => Send c msg) (recipients (st m)) /\
     clients (st (snd (run w (broadcast msg) m))) = clients (st m) /\
     forall c', In c' (clients (st m)) -> readyState (st m) c' = OPEN ->
                In (Send c' msg) (outs (snd (run w (broadcast msg) m)))) /\
  (forall (w : world) ready t0 (before after : list event) (c : nat),
     In c (clients (st (mach (exec w (boot ready t0) before)))) ->
     Forall (fun e => e <> Close c /\ e <> Error c) after ->
     In c (clients (st (mach (exec w (exec w (boot ready t0) before) after))))).
Proof.
  split; [|split; [|split]].
  - intros w l c e [-> | ->]; cbn; (split; [|split; [|reflexivity]]).
    + intros H. apply In_set_delete in H. tauto.
    + intros c' Hne. rewrite In_set_delete. tauto.
    + intros H. apply In_set_delete in H. tauto.
    + intros c' Hne. rewrite In_set_delete. tauto.
  - intros w ready t0 before after c Hout Hafter.
    set (l := exec w (boot ready t0) before) in *.
    assert (Htok : forall s token,
              unregistered c s -> unregistered c (set_authToken token s))
      by (intros s token H; exact H).
    assert (Hmap : forall s stockData,
              unregistered c s ->
              unregistered c (set_latestStockMap (fresh_map stockData) s))
      by (intros s stockData H; exact H).
    assert (Hsend : forall s c' msg,
              unregistered c s -> In c' (clients s) -> not_to c (Send c' msg)).
    { intros s c' msg Hs Hin Heq. cbn in Heq. subst. exact (Hs Hin). }
    assert (Htame : tame (unregistered c) (not_to c) l).
    { apply (exec_tame _ _ Htok Hmap Hsend). constructor. }
    assert (Hok : Forall (event_ok (unregistered c)) after).
    { eapply Forall_impl; [exact Hafter|]. intros e. apply unregistered_ok. }
    destruct (exec_kept _ _ Htok Hmap Hsend w after l Hok) as [_ Hkept].
    destruct (Hkept Htame Hout) as (_ & sent & Hs & Hg). eauto.
  - intros w msg m. rewrite run_broadcast. cbn [snd outs st].
    split; [reflexivity|]. split; [reflexivity|].
    intros c' Hin Hopen. apply in_or_app. right.
    apply in_map_iff. exists c'. split; [reflexivity|].
    unfold recipients. apply filter_In. split; [exact Hin|].
    rewrite Hopen. reflexivity.
  - intros w ready t0 before after c Hin Hafter.
    set (l := exec w (boot ready t0) before) in *.
    assert (Htok : forall s token,
              registered c s -> registered c (set_authToken token s))
      by (intros s token H; exact H).
    assert (Hmap : forall s stockData,
              registered c s ->
              registered c (set_latestStockMap (fresh_map stockData) s))
      by (intros s stockData H; exact H).
    assert (Hsend : forall s c' msg,
              registered c s -> In c' (clients s) ->
              (fun _ : output => True) (Send c' msg))
      by (intros; exact I).
    assert (Htame : tame (registered c) (fun _ => True) l).
    { apply (exec_tame _ _ Htok Hmap Hsend). constructor. }
    assert (Hok : Forall (event_ok (registered c)) after).
    { eapply Forall_impl; [exact Hafter|].
      intros e [H1 H2]. apply registered_ok; assumption. }
    destruct (exec_kept _ _ Htok Hmap Hsend w after l Hok) as [_ Hkept].
    destruct (Hkept Htame Hin) as [H _]. exact H.
Qed.

Lemma socket_leaves_on_close_or_error_only_witness :
  ~ In 1%nat
      (clients (st (mach (step always_timeout
                            (exec always_timeout (boot (fun _ => OPEN) 0)
                                  [Connect 1; Connect 2])
                            (Close 1))))) /\
  (exists sent,
    outs (mach (exec (serving [item "AAA" 10 0 0])
                  (exec (serving [item "AAA" 10 0 0]) (boot (fun _ => OPEN) 0)
                        [Connect 1; Connect 2; Close 1])
                  [Settle 0; Settle 0; Settle 0; Tick; Settle 0]))
    = outs (mach (exec (serving [item "AAA" 10 0 0]) (boot (fun _ => OPEN) 0)
                       [Connect 1; Connect 2; Close 1])) ++ sent /\
    Forall (not_to 1) sent) /\
  In 1%nat
     (clients (st (mach (exec (serving [item "AAA" 10 0 0])
                           (exec (serving [item "AAA" 10 0 0])
                                 (boot (fun _ => OPEN) 0)
                                 [Connect 1; Connect 2])
                           [SocketState 1 CLOSED; Settle 0; Settle 0; Tick;
                            Settle 0; Close 2])))).
Proof.
  split; [|split].
  - apply (proj1 socket_leaves_on_close_or_error_only always_timeout
             (exec always_timeout (boot (fun _ => OPEN) 0) [Connect 1; Connect 2])
             1%nat (Close 1)).
    left. reflexivity.
  - apply (proj1 (proj2 socket_leaves_on_close_or_error_only)
             (serving [item "AAA" 10 0 0]) (fun _ => OPEN) 0
             [Connect 1; Connect 2; Close 1]
             [Settle 0; Settle 0; Settle 0; Tick; Settle 0] 1%nat).
    + vm_compute. intros [H|[]]. discriminate.
    + repeat constructor; discriminate.
  - apply (proj2 (proj2 (proj2 socket_leaves_on_close_or_error_only))
             (serving [item "AAA" 10 0 0]) (fun _ => OPEN) 0
             [Connect 1; Connect 2]
             [SocketState 1 CLOSED; Settle 0; Settle 0; Tick; Settle 0; Close 2]
             1%nat).
    + vm_compute. left. reflexivity.
    + repeat constructor; discriminate.
Defined.

(** C7 as stated fails: a broadcast that finds a socket closed does not
    remove it. Socket 1 is registered and closed; the cycle sends its one
    message to socket 2, and socket 1 is still registered after it. *)
Lemma closed_socket_stays_registered :
  is_open (readyState (st (ws_one_closed [item "AAA" 10 0 0])) 1) = false /\
  (exists msg,
     outs (snd (run (serving [item "AAA" 11 1 10])
                    (fetchAndBroadcastStockData false)
                    (ws_one_closed [item "AAA" 10 0 0]))) = [Send 2 msg]) /\
  clients (st (snd (run (serving [item "AAA" 11 1 10])
                        (fetchAndBroadcastStockData false)
                        (ws_one_closed [item "AAA" 10 0 0]))))
  = [1; 2]%nat.
Proof.
  split; [reflexivity|]. split; [eexists|]; vm_compute; reflexivity.
Qed.

End HubClaims.

Section ConcurrencyClaims.

Lemma spawn_getIDLCAuthToken (l : loop WsServer.state WsServer.output value) :
  issued (mach (spawn (WsServer.getIDLCAuthToken 5) l))
  = issued (mach l) ++ [ReqAuth WrappedCredentials] /\
  length (waiting (spawn (WsServer.getIDLCAuthToken 5) l))
  = S (length (waiting l)).
Proof.
  unfold spawn, settle. cbn. rewrite length_app. cbn. split; [reflexivity|lia].
Qed.

Lemma spawn_getAuthToken (l : loop IoServer.state IoServer.output value) :
  truthy (IoServer.authToken (st (mach l))) = false ->
  issued (mach (spawn (IoServer.getAuthToken false) l))
  = issued (mach l) ++ [ReqAuth PlainCredentials] /\
  length (waiting (spawn (IoServer.getAuthToken false) l))
  = S (length (waiting l)) /\
  st (mach (spawn (IoServer.getAuthToken false) l)) = st (mach l).
Proof.
  intros Hnone. unfold spawn, settle, IoServer.getAuthToken, IoServer.cached.
  cbn. rewrite Hnone. cbn. rewrite length_app. cbn.
  split; [reflexivity|]. split; [lia|reflexivity].
Qed.

Lemma repeat_snoc {T} (x : T) n : repeat x n ++ [x] = repeat x (S n).
Proof. induction n as [|n IH]; cbn; [reflexivity|]. rewrite IH. reflexivity. Qed.

(** C2 (amended). There is no single flight: each call that finds no token
    issues an authentication request of its own before it first awaits, so
    [N] calls made while none has been answered issue [N] requests and
    leave [N] calls suspended, each on its own request. This holds for
    [getIDLCAuthToken], which never looks for a stored token, and for
    [getAuthToken] while [authToken] is not set. *)
Theorem every_caller_authenticates :
  (forall (N : nat) (l : loop WsServer.state WsServer.output value),
     issued (mach (concurrently N (WsServer.getIDLCAuthToken 5) l))
     = issued (mach l) ++ repeat (ReqAuth WrappedCredentials) N /\
     length (waiting (concurrently N (WsServer.getIDLCAuthToken 5) l))
     = (length (waiting l) + N)%nat) /\
  (forall (N : nat) (l : loop IoServer.state IoServer.output value),
     truthy (IoServer.authToken (st (mach l))) = false ->
     issued (mach (concurrently N (IoServer.getAuthToken false) l))
     = issued (mach l) ++ repeat (ReqAuth PlainCredentials) N /\
     length (waiting (concurrently N (IoServer.getAuthToken false) l))
     = (length (waiting l) + N)%nat).
Proof.
  split.
  - intros N l. induction N as [|N [IH1 IH2]].
    + cbn. rewrite app_nil_r. split; [reflexivity|lia].
    + cbn [concurrently].
      destruct (spawn_getIDLCAuthToken
                  (concurrently N (WsServer.getIDLCAuthToken 5) l))
        as [-> ->].
      rewrite IH1, IH2, <- app_assoc, repeat_snoc. split; [reflexivity|lia].
  - intros N l Hnone.
    assert (H : issued (mach (concurrently N (IoServer.getAuthToken false) l))
                = issued (mach l) ++ repeat (ReqAuth PlainCredentials) N /\
                length (waiting (concurrently N (IoServer.getAuthToken false) l))
                = (length (waiting l) + N)%nat /\
                st (mach (concurrently N (IoServer.getAuthToken false) l))
                = st (mach l)).
    { induction N as [|N (IH1 & IH2 & IH3)].
      - cbn. rewrite app_nil_r. split; [reflexivity|]. split; [lia|reflexivity].
      - cbn [concurrently].
        destruct (spawn_getAuthToken
                    (concurrently N (IoServer.getAuthToken false) l))
          as (-> & -> & ->); [rewrite IH3; exact Hnone|].
        rewrite IH1, IH2, <- app_assoc, repeat_snoc.
        split; [reflexivity|]. split; [lia|exact IH3]. }
    split; apply H.
Qed.

Lemma every_caller_authenticates_witness :
  issued (mach (concurrently 3 (IoServer.getAuthToken false)
                  (idle (IoServer.boot 0))))
  = issued (mach (idle (A:=value) (IoServer.boot 0)))
    ++ repeat (ReqAuth PlainCredentials) 3 /\
  length (waiting (concurrently 3 (IoServer.getAuthToken false)
                     (idle (IoServer.boot 0))))
  = (length (waiting (idle (A:=value) (IoServer.boot 0))) + 3)%nat.
Proof.
  apply (proj2 every_caller_authenticates 3%nat (idle (IoServer.boot 0))).
  reflexivity.
Defined.

(** C2 as stated fails: two calls of [getIDLCAuthToken] made while none has
    been answered issue two authentication requests; and each caller gets
    the outcome of its own request: here the first is granted a token and
    the second gets null. *)
Lemma two_callers_two_requests :
  let l := concurrently 2 (WsServer.getIDLCAuthToken 5) (idle ws0) in
  auth_requests (issued (mach l)) = 2%nat /\
  finished (complete grant_first 0 (complete grant_first 0 l))
  = [(0%nat, VStr "fresh"); (1%nat, VNull)].
Proof. split; vm_compute; reflexivity. Qed.

(** C4 (amended). There is no busy flag: whatever calls are still suspended,
    a tick of the cron job starts a cycle at once. The cycle issues a stock
    request with the stored token, or an authentication request when there
    is none, and joins the suspended calls, which it leaves as they are. *)
Theorem every_tick_starts_a_cycle (w : world) (l : WsServer.server) :
  issued (mach (WsServer.step w l WsServer.Tick))
  = issued (mach l)
    ++ [if truthy (WsServer.authToken (st (mach l)))
        then ReqStock (WsServer.authToken (st (mach l)))
        else ReqAuth WrappedCredentials] /\
  exists cycle,
    waiting (WsServer.step w l WsServer.Tick) = waiting l ++ [cycle].
Proof.
  cbn [WsServer.step]. unfold spawn, WsServer.cron_tick,
    WsServer.fetchAndBroadcastStockData, WsServer.ensure_token.
  cbn [bind read advance].
  destruct (truthy (WsServer.authToken (st (mach l)))) eqn:Htok.
  - cbn [bind advance]. unfold WsServer.getAllStockCompanies.
    rewrite Htok. cbn. eauto.
  - cbn. eauto.
Qed.

(** C4 as stated fails: a second tick fired while the cycle of the first is
    still suspended on its stock request issues a stock request of its own,
    and two cycles are then in flight. *)
Lemma second_tick_fetches_too :
  let l1 := WsServer.step always_timeout (idle ws_with_token) WsServer.Tick in
  let l2 := WsServer.step always_timeout l1 WsServer.Tick in
  length (waiting l1) = 1%nat /\
  stock_requests (issued (mach l1)) = 1%nat /\
  stock_requests (issued (mach l2)) = 2%nat /\
  length (waiting l2) = 2%nat.
Proof. repeat split; vm_compute; reflexivity. Qed.

End ConcurrencyClaims.

(** * Further properties *)


Section WsAuthMore.
Import WsServer.
Implicit Types m : machine state output.

(** The loop either fails, leaving the variables alone, or stores the token
    it returns. *)
Lemma auth_attempts_outcome (w : world) attempts rc m :
  (st (snd (run w (auth_attempts attempts rc) m)) = st m /\
   fst (run w (auth_attempts attempts rc) m) = VNull) \/
  st (snd (run w (auth_attempts attempts rc) m))
  = set_authToken (fst (run w (auth_attempts attempts rc) m)) (st m).
Proof.
  revert m. induction attempts as [|a rest IH]; intros m.
  { left. split; reflexivity. }
  rewrite run_auth_attempts_cons.
  destruct (classify _) as [token| | |].
  - right. reflexivity.
  - destruct (a <? rc)%nat;
      [exact (IH (slept a (posted m)))|exact (IH (posted m))].
  - destruct (a <? rc)%nat;
      [exact (IH (slept a (posted m)))|left; split; reflexivity].
  - left. split; reflexivity.
Qed.

(** The loop from attempt [a] on: its requests and the time it waited. *)
Lemma auth_attempts_timing (w : world) (rc : nat) :
  forall (len a : nat) m,
    (a + len = S rc)%nat -> (1 <= len)%nat ->
    exists k, (k < len)%nat /\
      issued (snd (run w (auth_attempts (seq a len) rc) m))
      = issued m ++ auth_schedule a k ++ [ReqAuth WrappedCredentials] /\
      clock (snd (run w (auth_attempts (seq a len) rc) m))
      = clock m + waited a k.
Proof.
  induction len as [|len IH]; intros a m Hsum Hlen; [lia|].
  cbn [seq]. rewrite run_auth_attempts_cons.
  assert (Hstay : exists k, (k < S len)%nat /\
            issued (posted m)
            = issued m ++ auth_schedule a k ++ [ReqAuth WrappedCredentials] /\
            clock (posted m) = clock m + waited a k).
  { exists 0%nat. split; [lia|]. split; [reflexivity|].
    unfold waited. cbn. lia. }
  assert (Hgo : (a <? rc)%nat = true ->
    exists k, (k < S len)%nat /\
      issued (snd (run w (auth_attempts (seq (S a) len) rc)
                         (slept a (posted m))))
      = issued m ++ auth_schedule a k ++ [ReqAuth WrappedCredentials] /\
      clock (snd (run w (auth_attempts (seq (S a) len) rc)
                        (slept a (posted m))))
      = clock m + waited a k).
  { intros Ha. apply Nat.ltb_lt in Ha.
    destruct (IH (S a) (slept a (posted m))) as (k & Hk & Htr & Hcl);
      [lia|lia|].
    exists (S k). split; [lia|]. split.
    - rewrite Htr, auth_schedule_cons.
      cbn [slept posted issued elapse issue request_of].
      rewrite <- !app_assoc. reflexivity.
    - rewrite Hcl, waited_cons. cbn [slept posted clock elapse issue]. lia. }
  assert (Hstop : (a <? rc)%nat = false -> len = 0%nat).
  { intros Ha. apply Nat.ltb_ge in Ha. lia. }
  destruct (classify _) as [token| | |]; cbn [snd]; try exact Hstay.
  - destruct (a <? rc)%nat eqn:Ha; [exact (Hgo eq_refl)|].
    pose proof (Hstop eq_refl). subst len.
    cbn [seq auth_attempts run snd]. exact Hstay.
  - destruct (a <? rc)%nat eqn:Ha; [exact (Hgo eq_refl)|exact Hstay].
Qed.

(** After [j] attempts that failed retryably, a granted attempt ends the
    loop. The reply to attempt [a + i] is the one to the request issued when
    [2 * i] more requests (attempts and waits) were in the log. *)
Lemma auth_attempts_recovers (w : world) (rc : nat) token :
  forall (j a : nat) m,
    (a + j <= rc)%nat ->
    (forall i, (i < j)%nat ->
       retryable (auth_reply w (length (issued m) + 2 * i) WrappedCredentials)
       = true) ->
    classify (auth_reply w (length (issued m) + 2 * j) WrappedCredentials)
    = Granted token ->
    forall rest,
      run w (auth_attempts (seq a (S j) ++ rest) rc) m
      = (token,
         {| st := set_authToken token (st m);
            outs := outs m;
            clock := clock m + waited a j;
            issued := issued m ++ auth_schedule a j
                               ++ [ReqAuth WrappedCredentials] |}).
Proof.
  induction j as [|j IH]; intros a m Hle Hfail Hgrant rest.
  - cbn [seq app]. rewrite run_auth_attempts_cons.
    rewrite Nat.mul_0_r, Nat.add_0_r in Hgrant. rewrite Hgrant.
    unfold waited, posted, set_st, elapse, issue. cbn.
    repeat f_equal; lia.
  - change (seq a (S (S j)) ++ rest) with (a :: (seq (S a) (S j) ++ rest)).
    rewrite run_auth_attempts_cons.
    pose proof (Hfail 0%nat ltac:(lia)) as H0.
    rewrite Nat.mul_0_r, Nat.add_0_r in H0. unfold retryable in H0.
    assert (Ha : (a <? rc)%nat = true) by (apply Nat.ltb_lt; lia).
    assert (Hnext : run w (auth_attempts (seq (S a) (S j) ++ rest) rc)
                        (slept a (posted m))
                    = (token,
                       {| st := set_authToken token (st m);
                          outs := outs m;
                          clock := clock m + waited a (S j);
                          issued := issued m ++ auth_schedule a (S j)
                                    ++ [ReqAuth WrappedCredentials] |})).
    { rewrite (IH (S a) (slept a (posted m))).
      - f_equal. rewrite auth_schedule_cons, waited_cons.
        cbn [slept posted st outs clock issued elapse issue request_of].
        f_equal; [lia|]. rewrite <- !app_assoc. reflexivity.
      - lia.
      - intros i Hi. specialize (Hfail (S i) ltac:(lia)).
        cbn [slept posted issued elapse issue request_of].
        rewrite !length_app. cbn [length].
        replace (length (issued m) + 1 + 1 + 2 * i)%nat
          with (length (issued m) + 2 * S i)%nat by lia.
        exact Hfail.
      - cbn [slept posted issued elapse issue request_of].
        rewrite !length_app. cbn [length].
        replace (length (issued m) + 1 + 1 + 2 * j)%nat
          with (length (issued m) + 2 * S j)%nat by lia.
        exact Hgrant. }
    destruct (classify (auth_reply w (length (issued m)) WrappedCredentials));
      try discriminate; rewrite Ha; exact Hnext.
Qed.

(** X1. Whatever the upstream answers, [getIDLCAuthToken] either fails,
    returning null and leaving every variable as it was (a token stored
    earlier is kept), or stores exactly the token it returns. *)
Theorem getIDLCAuthToken_stores_what_it_returns (w : world) (rc : nat) m :
  (st (snd (run w (getIDLCAuthToken rc) m)) = st m /\
   fst (run w (getIDLCAuthToken rc) m) = VNull) \/
  st (snd (run w (getIDLCAuthToken rc) m))
  = set_authToken (fst (run w (getIDLCAuthToken rc) m)) (st m).
Proof. apply auth_attempts_outcome. Qed.

Lemma waited_le (k n : nat) : (k <= n)%nat -> 0 <= waited 1 k <= waited 1 n.
Proof. intros H. unfold waited. nia. Qed.

(** X2. The time [getIDLCAuthToken] spends waiting between attempts is
    bounded whatever the upstream answers: with a retry count of [S n] it is
    at most [5000 * (1 + ... + n)] ms, that is 50 seconds for the 5 attempts
    the server asks for. *)
Theorem getIDLCAuthToken_waits_at_most (w : world) (n : nat) m :
  clock m <= clock (snd (run w (getIDLCAuthToken (S n)) m))
  <= clock m + 2500 * Z.of_nat n * (Z.of_nat n + 1).
Proof.
  unfold getIDLCAuthToken.
  destruct (auth_attempts_timing w (S n) (S n) 1 m) as (k & Hk & _ & ->);
    [lia|lia|].
  pose proof (waited_le k n ltac:(lia)) as H. unfold waited in *. lia.
Qed.

Lemma seq_split (a j n : nat) :
  (j <= n)%nat -> seq a (S n) = seq a (S j) ++ seq (a + S j) (n - j).
Proof.
  intros H. replace (S n) with (S j + (n - j))%nat by lia.
  rewrite seq_app. reflexivity.
Qed.

(** X3. When the first [j] attempts fail in a way that is retried and the
    next one is granted (with [j] below the retry count), the function
    returns the granted token and stores it; it has issued [j + 1]
    authentication requests and waited [5000 * (1 + ... + j)] ms in all. *)
Theorem getIDLCAuthToken_recovers (w : world) (n j : nat) token m :
  (j <= n)%nat ->
  (forall i, (i < j)%nat ->
     retryable (auth_reply w (length (issued m) + 2 * i) WrappedCredentials)
     = true) ->
  classify (auth_reply w (length (issued m) + 2 * j) WrappedCredentials)
  = Granted token ->
  run w (getIDLCAuthToken (S n)) m
  = (token,
     {| st := set_authToken token (st m);
        outs := outs m;
        clock := clock m + 2500 * Z.of_nat j * (Z.of_nat j + 1);
        issued := issued m ++ auth_schedule 1 j
                           ++ [ReqAuth WrappedCredentials] |}).
Proof.
  intros Hj Hfail Hgrant. unfold getIDLCAuthToken.
  rewrite (seq_split 1 j n Hj).
  rewrite (auth_attempts_recovers w (S n) token j 1 m); [|lia|exact Hfail|exact Hgrant].
  unfold waited. repeat f_equal. lia.
Qed.

Lemma getIDLCAuthToken_recovers_witness :
  run (flaky 2) (getIDLCAuthToken 5) ws0
  = (VStr "fresh",
     {| st := set_authToken (VStr "fresh") (st ws0);
        outs := outs ws0;
        clock := clock ws0 + 2500 * Z.of_nat 2 * (Z.of_nat 2 + 1);
        issued := issued ws0 ++ auth_schedule 1 2
                             ++ [ReqAuth WrappedCredentials] |}).
Proof.
  apply (getIDLCAuthToken_recovers (flaky 2) 4 2 (VStr "fresh") ws0).
  - lia.
  - intros i Hi. destruct i as [|[|i]]; [reflexivity|reflexivity|lia].
  - reflexivity.
Defined.

End WsAuthMore.

Section WsFetchMore.
Import WsServer.
Implicit Types m : machine state output.

Lemma stock_schedule_cons token (a k : nat) :
  stock_schedule token a (S k) =
  ReqStock token :: ReqSleep (backoff a) :: stock_schedule token (S a) k.
Proof. reflexivity. Qed.

(** With every stock request failing on a transient error, the loop makes
    all its attempts with the token it was given, waiting after each but the
    last. *)
Lemma stock_attempts_all_timed_out (w : world) (rc : nat) token :
  (forall i t, timed_out (stock_reply w i t) = true) ->
  forall (len a : nat) m,
    (a + S len = S rc)%nat ->
    run w (stock_attempts (seq a (S len)) rc token) m
    = (None,
       {| st := st m; outs := outs m;
          clock := clock m + waited a len;
          issued := issued m ++ stock_schedule token a len
                             ++ [ReqStock token] |}).
Proof.
  intros Hall. induction len as [|len IH]; intros a m Hsum;
    cbn [seq]; rewrite run_stock_attempts_cons;
    specialize (Hall (length (issued m)) token) as Hr;
    destruct (stock_reply w (length (issued m)) token) as [response|error];
    try discriminate; cbn [timed_out] in Hr;
    apply andb_true_iff in Hr; destruct Hr as [Ht Hn];
    apply negb_true_iff in Hn; rewrite Ht; cbn [orb]; cbv zeta;
    unfold reauthenticated; rewrite Hn.
  - assert ((a <? rc)%nat = false) as -> by (apply Nat.ltb_ge; lia).
    unfold got, elapse, issue, waited. cbn. repeat f_equal; lia.
  - assert ((a <? rc)%nat = true) as -> by (apply Nat.ltb_lt; lia).
    rewrite (IH (S a)) by lia.
    rewrite stock_schedule_cons, waited_cons.
    unfold slept, got, elapse, issue. cbn [st outs clock issued request_of].
    f_equal. f_equal; [lia|]. rewrite <- !app_assoc. reflexivity.
Qed.

(** With every stock response empty, the loop makes all its attempts one
    after the other, without waiting. *)
Lemma stock_attempts_all_empty (w : world) (rc : nat) token :
  (forall i t, empty_body (stock_reply w i t) = true) ->
  forall (len a : nat) m,
    (a + len = S rc)%nat ->
    run w (stock_attempts (seq a len) rc token) m
    = (None,
       {| st := st m; outs := outs m; clock := clock m;
          issued := issued m ++ repeat (ReqStock token) len |}).
Proof.
  intros Hall. induction len as [|len IH]; intros a m Hsum.
  { cbn. rewrite app_nil_r. destruct m; reflexivity. }
  cbn [seq]. rewrite run_stock_attempts_cons.
  specialize (Hall (length (issued m)) token) as Hr.
  destruct (stock_reply w (length (issued m)) token) as [response|error];
    [|discriminate].
  cbn [empty_body] in Hr.
  destruct (as_array (stock_data response)); [discriminate|].
  destruct (a <? rc)%nat eqn:Ha.
  - rewrite (IH (S a)) by lia.
    unfold got, elapse, issue. cbn [st outs clock issued request_of repeat].
    f_equal. f_equal; [lia|]. rewrite <- app_assoc. reflexivity.
  - apply Nat.ltb_ge in Ha. assert (len = 0)%nat as -> by lia.
    unfold got, elapse, issue. cbn. repeat f_equal; lia.
Qed.

(** X4. When every stock request fails on a timeout, a reset or an abort,
    [getAllStockCompanies] makes exactly [retryCount] requests, all with the
    token it was given and with no authentication in between, waits
    [5000 * attempt] ms after each but the last, and returns null; the
    server's variables are untouched and nothing is sent. *)
Theorem getAllStockCompanies_gives_up_on_timeouts
    (w : world) (n : nat) token m :
  truthy token = true ->
  (forall i t, timed_out (stock_reply w i t) = true) ->
  run w (getAllStockCompanies token (S n)) m
  = (None,
     {| st := st m; outs := outs m;
        clock := clock m + 2500 * Z.of_nat n * (Z.of_nat n + 1);
        issued := issued m ++ stock_schedule token 1 n
                           ++ [ReqStock token] |}).
Proof.
  intros Htok Hall. unfold getAllStockCompanies. rewrite Htok.
  rewrite (stock_attempts_all_timed_out w (S n) token Hall n 1 m) by lia.
  unfold waited. repeat f_equal. lia.
Qed.

Lemma getAllStockCompanies_gives_up_on_timeouts_witness :
  run always_timeout (getAllStockCompanies (VStr "tok") 5) ws_with_token
  = (None,
     {| st := st ws_with_token; outs := outs ws_with_token;
        clock := clock ws_with_token
                 + 2500 * Z.of_nat 4 * (Z.of_nat 4 + 1);
        issued := issued ws_with_token
                  ++ stock_schedule (VStr "tok") 1 4
                  ++ [ReqStock (VStr "tok")] |}).
Proof.
  apply (getAllStockCompanies_gives_up_on_timeouts
           always_timeout 4 (VStr "tok") ws_with_token).
  - reflexivity.
  - intros i t. reflexivity.
Defined.

(** X5. When every stock response comes back with an empty body,
    [getAllStockCompanies] asks again at once, [retryCount] times in all
    with no wait between the requests, and returns null. *)
Theorem getAllStockCompanies_retries_empty_bodies_at_once
    (w : world) (rc : nat) token m :
  truthy token = true ->
  (forall i t, empty_body (stock_reply w i t) = true) ->
  run w (getAllStockCompanies token rc) m
  = (None,
     {| st := st m; outs := outs m; clock := clock m;
        issued := issued m ++ repeat (ReqStock token) rc |}).
Proof.
  intros Htok Hall. unfold getAllStockCompanies. rewrite Htok.
  apply (stock_attempts_all_empty w rc token Hall rc 1 m). lia.
Qed.

Lemma getAllStockCompanies_retries_empty_bodies_at_once_witness :
  run no_data (getAllStockCompanies (VStr "tok") 5) ws_with_token
  = (None,
     {| st := st ws_with_token; outs := outs ws_with_token;
        clock := clock ws_with_token;
        issued := issued ws_with_token ++ repeat (ReqStock (VStr "tok")) 5 |}).
Proof.
  apply (getAllStockCompanies_retries_empty_bodies_at_once
           no_data 5 (VStr "tok") ws_with_token).
  - reflexivity.
  - intros i t. reflexivity.
Defined.

End WsFetchMore.

Section WsMapFacts.
Import WsServer.
Implicit Types m : machine state output.
Implicit Types latest acc : jsmap mapped_item.

Lemma strict_eq_true (a b : value) : strict_eq a b = true <-> a = b.
Proof. unfold strict_eq. apply bool_decide_eq_true. Qed.

Lemma strict_eq_false (a b : value) : strict_eq a b = false <-> a <> b.
Proof. unfold strict_eq. apply bool_decide_eq_false. Qed.

Lemma strict_neq_refl (a : value) : strict_neq a a = false.
Proof.
  unfold strict_neq. apply negb_false_iff, strict_eq_true. reflexivity.
Qed.

Lemma map_get_set_eq {V} (k : value) (v : V) (acc : jsmap V) :
  map_get k (map_set k v acc) = Some v.
Proof.
  induction acc as [|[k' v'] acc IH]; cbn.
  - rewrite (proj2 (strict_eq_true k k) eq_refl). reflexivity.
  - destruct (strict_eq k' k) eqn:E; cbn.
    + rewrite (proj2 (strict_eq_true k k) eq_refl). reflexivity.
    + rewrite E. exact IH.
Qed.

Lemma map_get_set_ne {V} (k k' : value) (v : V) (acc : jsmap V) :
  k <> k' -> map_get k' (map_set k v acc) = map_get k' acc.
Proof.
  intros Hne. induction acc as [|[k0 v0] acc IH]; cbn.
  - rewrite (proj2 (strict_eq_false k k') Hne). reflexivity.
  - destruct (strict_eq k0 k) eqn:E; cbn.
    + apply strict_eq_true in E. subst k0.
      rewrite (proj2 (strict_eq_false k k') Hne). reflexivity.
    + destruct (strict_eq k0 k'); [reflexivity|exact IH].
Qed.

Lemma map_set_keys {V} (k : value) (v : V) (acc : jsmap V) :
  map fst (map_set k v acc)
  = if existsb (fun k' => strict_eq k' k) (map fst acc)
    then map fst acc else map fst acc ++ [k].
Proof.
  induction acc as [|[k0 v0] acc IH]; cbn; [reflexivity|].
  destruct (strict_eq k0 k) eqn:E; cbn.
  - apply strict_eq_true in E. subst. reflexivity.
  - rewrite IH. destruct (existsb _ (map fst acc)); reflexivity.
Qed.

Lemma existsb_strict_eq (k : value) (ks : list value) :
  existsb (fun k' => strict_eq k' k) ks = true <-> In k ks.
Proof.
  rewrite existsb_exists. split.
  - intros (x & Hx & E). apply strict_eq_true in E. subst. exact Hx.
  - intros H. exists k. split; [exact H|]. apply strict_eq_true. reflexivity.
Qed.

Lemma map_set_fresh {V} (k : value) (v : V) (acc : jsmap V) :
  ~ In k (map fst acc) -> map_set k v acc = acc ++ [(k, v)].
Proof.
  induction acc as [|[k0 v0] acc IH]; cbn; intros Hnot; [reflexivity|].
  destruct (strict_eq k0 k) eqn:E.
  - apply strict_eq_true in E. subst. tauto.
  - rewrite IH by tauto. reflexivity.
Qed.

Lemma put_well_keyed acc item : well_keyed acc -> well_keyed (put acc item).
Proof.
  intros [Hnd Hall]. unfold put. split.
  - rewrite map_set_keys.
    destruct (existsb _ (map fst acc)) eqn:E; [exact Hnd|].
    apply NoDup_app. split; [exact Hnd|]. split.
    + intros x Hx Hx'. apply list_elem_of_In in Hx'. cbn in Hx'.
      destruct Hx' as [<-|[]].
      apply list_elem_of_In in Hx.
      apply (proj2 (existsb_strict_eq _ _)) in Hx.
      unfold mapItem in E. cbn [trading_code] in E.
      rewrite Hx in E. discriminate.
    + apply NoDup_singleton.
  - clear Hnd. induction acc as [|[k0 v0] acc IH]; cbn.
    + constructor; [reflexivity|constructor].
    + inversion Hall as [|? ? H1 H2]; subst.
      destruct (strict_eq k0 _); constructor; auto.
Qed.

Lemma fold_put_well_keyed stockData acc :
  well_keyed acc -> well_keyed (fold_left put stockData acc).
Proof.
  revert acc. induction stockData as [|item rest IH]; intros acc H; [exact H|].
  cbn. apply IH, put_well_keyed, H.
Qed.

Lemma fresh_map_well_keyed stockData : well_keyed (fresh_map stockData).
Proof.
  apply fold_put_well_keyed. split; [constructor|constructor].
Qed.

Lemma fold_put_get (k : value) stockData acc :
  map_get k (fold_left put stockData acc)
  = match last_with k stockData with
    | Some item => Some (mapItem item)
    | None => map_get k acc
    end.
Proof.
  revert acc. induction stockData as [|item rest IH]; intros acc;
    [reflexivity|].
  cbn [fold_left last_with]. rewrite IH.
  destruct (last_with k rest); [reflexivity|].
  unfold put. fold (code_of item).
  destruct (strict_eq (code_of item) k) eqn:E.
  - apply strict_eq_true in E. subst. apply map_get_set_eq.
  - apply strict_eq_false in E. apply map_get_set_ne. exact E.
Qed.

Lemma fold_put_values stockData acc :
  NoDup (map fst acc ++ codes stockData) ->
  fold_left put stockData acc
  = acc ++ map (fun item => (code_of item, mapItem item)) stockData.
Proof.
  revert acc. induction stockData as [|item rest IH]; intros acc Hnd.
  - cbn. rewrite app_nil_r. reflexivity.
  - cbn [fold_left map]. unfold put at 2. fold (code_of item).
    rewrite map_set_fresh.
    + rewrite IH.
      * rewrite <- app_assoc. reflexivity.
      * rewrite map_app. cbn. rewrite <- app_assoc. exact Hnd.
    + intros Hin. apply NoDup_app in Hnd. destruct Hnd as (_ & Hdis & _).
      apply (Hdis (code_of item)); [apply list_elem_of_In; exact Hin|].
      cbn. left.
Qed.

Lemma last_with_some (k : value) stockData item :
  last_with k stockData = Some item -> In item stockData /\ code_of item = k.
Proof.
  induction stockData as [|x rest IH]; [discriminate|].
  cbn [last_with]. destruct (last_with k rest) as [later|].
  - intros [= <-]. destruct (IH eq_refl). split; [right|]; assumption.
  - destruct (strict_eq (code_of x) k) eqn:E; [|discriminate].
    intros [= <-]. apply strict_eq_true in E. split; [left; reflexivity|exact E].
Qed.

Lemma last_with_in stockData item :
  NoDup (codes stockData) -> In item stockData ->
  last_with (code_of item) stockData = Some item.
Proof.
  induction stockData as [|x rest IH]; intros Hnd Hin; [destruct Hin|].
  cbn in Hnd. apply NoDup_cons in Hnd. destruct Hnd as [Hx Hnd].
  cbn [last_with]. destruct Hin as [->|Hin].
  - destruct (last_with (code_of item) rest) as [later|] eqn:E.
    + exfalso. apply Hx. apply last_with_some in E. destruct E as [Hin Hc].
      apply list_elem_of_In. change (In (code_of item) (map code_of rest)).
      rewrite <- Hc. apply in_map. exact Hin.
    + rewrite (proj2 (strict_eq_true _ _) eq_refl). reflexivity.
  - rewrite (IH Hnd Hin). reflexivity.
Qed.

End WsMapFacts.

Section WsStoreMore.
Import WsServer.
Implicit Types m : machine state output.

Lemma cycle_stores_fresh_map (w : world) (isInitial : bool) m stockData :
  cycle_fetch w m = Some stockData ->
  latestStockMap
    (st (snd (run w (fetchAndBroadcastStockData isInitial) m)))
  = fresh_map stockData.
Proof.
  intros H. rewrite run_cycle_fetch, H, run_publish. reflexivity.
Qed.

(** X6. Whatever events the WebSocket server has handled since it started,
    [latestStockMap] holds at most one record per code, and each record
    sits under its own [trading_code]. *)
Theorem latestStockMap_is_well_keyed
    (w : world) ready t0 (evs : list event) :
  well_keyed (latestStockMap (st (mach (exec w (boot ready t0) evs)))).
Proof.
  set (inv := fun s : state => well_keyed (latestStockMap s)).
  assert (Htok : forall s token, inv s -> inv (set_authToken token s))
    by (intros s token H; exact H).
  assert (Hmap : forall s stockData,
            inv s -> inv (set_latestStockMap (fresh_map stockData) s))
    by (intros s stockData _; apply fresh_map_well_keyed).
  assert (Hsend : forall s c msg, inv s -> In c (clients s) ->
                                  (fun _ : output => True) (Send c msg))
    by (intros; exact I).
  assert (Hok : Forall (event_ok inv) evs).
  { apply Forall_forall. intros e _. destruct e; cbn; auto. }
  destruct (exec_kept _ _ Htok Hmap Hsend w evs (boot ready t0) Hok)
    as [_ Hkept].
  apply Hkept; [constructor|]. split; constructor.
Qed.

(** X7. After a cycle whose fetch succeeded, looking a code up in
    [latestStockMap] gives the mapped record of the last fetched item with
    that code, and nothing for a code that no fetched item carries: records
    stored by earlier cycles are gone. *)
Theorem lookup_after_cycle_is_last_fetched
    (w : world) (isInitial : bool) m stockData (k : value) :
  cycle_fetch w m = Some stockData ->
  map_get k (latestStockMap
               (st (snd (run w (fetchAndBroadcastStockData isInitial) m))))
  = option_map mapItem (last_with k stockData).
Proof.
  intros H. rewrite (cycle_stores_fresh_map w isInitial m stockData H).
  unfold fresh_map. rewrite fold_put_get.
  destruct (last_with k stockData); reflexivity.
Qed.

Lemma lookup_after_cycle_is_last_fetched_witness :
  map_get (VStr "AAA")
    (latestStockMap
       (st (snd (run (serving [item "AAA" 10 0 0; item "AAA" 11 1 10])
                     (fetchAndBroadcastStockData false)
                     (ws_serving [item "BBB" 5 0 0])))))
  = option_map mapItem
      (last_with (VStr "AAA") [item "AAA" 10 0 0; item "AAA" 11 1 10]).
Proof.
  apply (lookup_after_cycle_is_last_fetched
           (serving [item "AAA" 10 0 0; item "AAA" 11 1 10]) false
           (ws_serving [item "BBB" 5 0 0])).
  reflexivity.
Defined.

(** X8. When the fetched items carry distinct codes, the stored map lists
    their mapped records in the order received: this is the array a full
    snapshot carries. *)
Theorem snapshot_keeps_upstream_order
    (w : world) (isInitial : bool) m stockData :
  cycle_fetch w m = Some stockData ->
  NoDup (codes stockData) ->
  map_values
    (latestStockMap
       (st (snd (run w (fetchAndBroadcastStockData isInitial) m))))
  = map mapItem stockData.
Proof.
  intros H Hnd. rewrite (cycle_stores_fresh_map w isInitial m stockData H).
  unfold fresh_map. rewrite fold_put_values by exact Hnd.
  unfold map_values. cbn [app]. rewrite map_map. reflexivity.
Qed.

Lemma snapshot_keeps_upstream_order_witness :
  map_values
    (latestStockMap
       (st (snd (run (serving [item "BBB" 5 0 0; item "AAA" 10 0 0])
                     (fetchAndBroadcastStockData true) ws_with_token))))
  = map mapItem [item "BBB" 5 0 0; item "AAA" 10 0 0].
Proof.
  apply (snapshot_keeps_upstream_order
           (serving [item "BBB" 5 0 0; item "AAA" 10 0 0]) true
           ws_with_token).
  - reflexivity.
  - apply (bool_decide_unpack _). vm_compute. exact I.
Defined.

Lemma differs_refl r : differs r r = false.
Proof. unfold differs. rewrite !strict_neq_refl. reflexivity. Qed.

Lemma scan_same_is_empty stockData :
  NoDup (codes stockData) ->
  snd (scan false (fresh_map stockData) stockData) = [].
Proof.
  intros Hnd. rewrite scan_updates.
  assert (H : forall items,
    (forall item, In item items -> In item stockData) ->
    List.filter (hasUpdate false (fresh_map stockData)) (map mapItem items)
    = []).
  { induction items as [|item rest IH]; intros Hsub; [reflexivity|].
    cbn [map List.filter]. unfold hasUpdate at 1. cbn [orb].
    change (trading_code (mapItem item)) with (code_of item).
    unfold fresh_map at 1. rewrite fold_put_get.
    rewrite (last_with_in stockData item Hnd (Hsub item (or_introl eq_refl))).
    rewrite differs_refl. apply IH. intros x Hx. apply Hsub. right. exact Hx. }
  apply H. auto.
Qed.

(** X9. Fetching again the array that is stored changes nothing and is
    silent: when the fetched items carry distinct codes and the stored map
    is the one built from them, an ordinary cycle finds no update, sends no
    message, and stores the same map again. *)
Theorem refetching_the_same_data_is_silent (w : world) m stockData :
  cycle_fetch w m = Some stockData ->
  NoDup (codes stockData) ->
  latestStockMap (st m) = fresh_map stockData ->
  outs (snd (run w (fetchAndBroadcastStockData false) m)) = outs m /\
  latestStockMap (st (snd (run w (fetchAndBroadcastStockData false) m)))
  = latestStockMap (st m).
Proof.
  intros H Hnd Hsame. split.
  - rewrite run_cycle_fetch, H, run_publish. cbn [snd outs].
    destruct (before_publish_frame w m) as (Houts & Hmap & _).
    rewrite Hmap, Hsame, scan_same_is_empty by exact Hnd.
    cbn. rewrite app_nil_r. exact Houts.
  - rewrite (cycle_stores_fresh_map w false m stockData H). symmetry.
    exact Hsame.
Qed.

Lemma refetching_the_same_data_is_silent_witness :
  outs (snd (run (serving [item "AAA" 10 0 0; item "BBB" 5 (-1) 0])
                 (fetchAndBroadcastStockData false)
                 (ws_serving [item "AAA" 10 0 0; item "BBB" 5 (-1) 0])))
  = outs (ws_serving [item "AAA" 10 0 0; item "BBB" 5 (-1) 0]) /\
  latestStockMap
    (st (snd (run (serving [item "AAA" 10 0 0; item "BBB" 5 (-1) 0])
                  (fetchAndBroadcastStockData false)
                  (ws_serving [item "AAA" 10 0 0; item "BBB" 5 (-1) 0]))))
  = latestStockMap (st (ws_serving [item "AAA" 10 0 0; item "BBB" 5 (-1) 0])).
Proof.
  apply (refetching_the_same_data_is_silent
           (serving [item "AAA" 10 0 0; item "BBB" 5 (-1) 0])
           (ws_serving [item "AAA" 10 0 0; item "BBB" 5 (-1) 0])
           [item "AAA" 10 0 0; item "BBB" 5 (-1) 0]).
  - reflexivity.
  - apply (bool_decide_unpack _). vm_compute. exact I.
  - reflexivity.
Defined.

(** X10. The indicator of a mapped record is "Up" or "Down". For a numeric
    [mktValueChange] it is "Up" exactly when the change is at least 0; a
    missing [mktValueChange] gives "Down" and a null one gives "Up". *)
Theorem indicator_follows_the_sign (it : obj) :
  (indicator (mapItem it) = "Up" \/ indicator (mapItem it) = "Down") /\
  (forall n, it !! "mktValueChange" = Some (VNum n) ->
             (indicator (mapItem it) = "Up" <-> 0 <= n)) /\
  (it !! "mktValueChange" = None -> indicator (mapItem it) = "Down") /\
  (it !! "mktValueChange" = Some VNull -> indicator (mapItem it) = "Up").
Proof.
  unfold mapItem, prop. cbn [indicator].
  split; [destruct (ge_zero _); auto|]. split; [|split].
  - intros n ->. cbn. destruct (0 <=? n) eqn:E.
    + apply Z.leb_le in E. tauto.
    + apply Z.leb_gt in E. split; [discriminate|lia].
  - intros ->. reflexivity.
  - intros ->. reflexivity.
Qed.

Lemma indicator_follows_the_sign_witness :
  indicator (mapItem (item "BBB" 5 (-1) (-20))) = "Up" <-> 0 <= -1.
Proof.
  apply (proj1 (proj2 (indicator_follows_the_sign (item "BBB" 5 (-1) (-20))))).
  reflexivity.
Defined.

End WsStoreMore.

Section WsHubMore.
Import WsServer.
Implicit Types m : machine state output.

Lemma set_add_NoDup ws cs : NoDup cs -> NoDup (set_add ws cs).
Proof.
  intros H. unfold set_add. destruct (existsb (Nat.eqb ws) cs) eqn:E;
    [exact H|].
  apply NoDup_app. split; [exact H|]. split; [|apply NoDup_singleton].
  intros x Hx Hx'. apply list_elem_of_In in Hx, Hx'. destruct Hx' as [<-|[]].
  assert (existsb (Nat.eqb ws) cs = true); [|congruence].
  apply existsb_exists. exists ws. split; [exact Hx|apply Nat.eqb_refl].
Qed.

Lemma filter_NoDup {T} (f : T -> bool) (l : list T) :
  NoDup l -> NoDup (List.filter f l).
Proof.
  induction l as [|x l IH]; intros H; [exact H|].
  apply NoDup_cons in H. destruct H as [Hx H]. cbn.
  destruct (f x); [|auto]. apply NoDup_cons. split; [|auto].
  intros Hin. apply Hx. apply list_elem_of_In in Hin.
  apply filter_In in Hin. apply list_elem_of_In. tauto.
Qed.

(** X11. Whatever events the server has handled since it started, the
    sockets a broadcast goes to are pairwise distinct: a socket is sent each
    broadcast at most once, however often its connection was announced. *)
Theorem no_socket_is_sent_a_broadcast_twice
    (w : world) ready t0 (evs : list event) :
  NoDup (clients (st (mach (exec w (boot ready t0) evs)))) /\
  NoDup (recipients (st (mach (exec w (boot ready t0) evs)))).
Proof.
  set (inv := fun s : state => NoDup (clients s)).
  assert (Htok : forall s token, inv s -> inv (set_authToken token s))
    by (intros s token H; exact H).
  assert (Hmap : forall s stockData,
            inv s -> inv (set_latestStockMap (fresh_map stockData) s))
    by (intros s stockData H; exact H).
  assert (Hsend : forall s c msg, inv s -> In c (clients s) ->
                                  (fun _ : output => True) (Send c msg))
    by (intros; exact I).
  assert (Hok : Forall (event_ok inv) evs).
  { apply Forall_forall. intros e _. destruct e; cbn; auto; intros s Hs.
    - apply set_add_NoDup, Hs.
    - apply filter_NoDup, Hs.
    - apply filter_NoDup, Hs. }
  destruct (exec_kept _ _ Htok Hmap Hsend w evs (boot ready t0) Hok)
    as [_ Hkept].
  destruct (Hkept ltac:(constructor) ltac:(constructor)) as [Hinv _].
  split; [exact Hinv|]. apply filter_NoDup, Hinv.
Qed.

(** X12. The server never sends to a socket it was not told about: a socket
    that was sent a message at some point had connected before. *)
Theorem only_connected_sockets_are_sent_to
    (w : world) ready t0 (evs : list event) (c : nat) :
  sent_to c (outs (mach (exec w (boot ready t0) evs))) ->
  In (Connect c) evs.
Proof.
  set (inv := fun s : state => forall x, In x (clients s) -> In (Connect x) evs).
  set (good := fun o : output =>
                 match o with Send x _ => In (Connect x) evs end).
  assert (Htok : forall s token, inv s -> inv (set_authToken token s))
    by (intros s token H; exact H).
  assert (Hmap : forall s stockData,
            inv s -> inv (set_latestStockMap (fresh_map stockData) s))
    by (intros s stockData H; exact H).
  assert (Hsend : forall s x msg, inv s -> In x (clients s) -> good (Send x msg))
    by (intros s x msg Hs Hx; exact (Hs x Hx)).
  assert (Hok : Forall (event_ok inv) evs).
  { apply Forall_forall. intros e He. apply list_elem_of_In in He.
    destruct e; cbn; auto; intros s Hs x Hx; cbn in Hx.
    - apply In_set_add in Hx. destruct Hx as [->|Hx]; [exact He|auto].
    - apply In_set_delete in Hx. apply Hs. tauto.
    - apply In_set_delete in Hx. apply Hs. tauto. }
  destruct (exec_kept _ _ Htok Hmap Hsend w evs (boot ready t0) Hok)
    as [_ Hkept].
  destruct (Hkept ltac:(constructor) ltac:(intros x [])) as (_ & sent & Hs & Hg).
  intros [msg Hin]. rewrite Hs in Hin. cbn in Hin.
  rewrite Forall_forall in Hg. apply (Hg (Send c msg)).
  apply list_elem_of_In. exact Hin.
Qed.

Lemma only_connected_sockets_are_sent_to_witness :
  In (Connect 2)
     [Connect 1; Connect 2; Close 1; Settle 0; Settle 0; Settle 0].
Proof.
  apply (only_connected_sockets_are_sent_to
           (serving [item "AAA" 10 0 0]) (fun _ => OPEN) 0
           [Connect 1; Connect 2; Close 1; Settle 0; Settle 0; Settle 0] 2).
  eexists. vm_compute. left. reflexivity.
Defined.

(** X13. A socket that connects while nothing is stored is registered and
    sent nothing at once; its connection starts an initial fetch, which
    issues its first request (for stock with the stored token, or for a
    token when there is none) before the handler returns. *)
Theorem connecting_with_no_data_starts_a_fetch
    (w : world) (l : server) (ws : nat) :
  latestStockMap (st (mach l)) = [] ->
  In ws (clients (st (mach (step w l (Connect ws))))) /\
  outs (mach (step w l (Connect ws))) = outs (mach l) /\
  issued (mach (step w l (Connect ws)))
  = issued (mach l)
    ++ [if truthy (authToken (st (mach l)))
        then ReqStock (authToken (st (mach l)))
        else ReqAuth WrappedCredentials] /\
  exists call, waiting (step w l (Connect ws)) = waiting l ++ [call].
Proof.
  intros Hempty. cbn [step]. unfold spawn, on_connection, send_initial,
    fetchAndBroadcastStockData, ensure_token.
  cbn [bind modify read advance set_st st].
  cbn [latestStockMap set_clients]. rewrite Hempty. cbn [map_size length Nat.ltb Nat.leb].
  cbn [bind read advance st set_st authToken set_clients].
  destruct (truthy (authToken (st (mach l)))) eqn:Htok.
  - cbn [bind advance read st set_st authToken set_clients].
    unfold getAllStockCompanies. rewrite Htok. cbn.
    split; [apply In_set_add; left; reflexivity|eauto].
  - cbn. split; [apply In_set_add; left; reflexivity|eauto].
Qed.

Lemma connecting_with_no_data_starts_a_fetch_witness :
  In 7%nat (clients (st (mach (step always_timeout (idle ws_with_token)
                                    (Connect 7))))).
Proof.
  apply (connecting_with_no_data_starts_a_fetch
           always_timeout (idle ws_with_token) 7).
  reflexivity.
Defined.

End WsHubMore.

Section WsRouteFacts.
Import WsServer WsRoutes.
Implicit Types m : machine state output.

Lemma run_get_api_latest_stock (w : world) m :
  run w get_api_latest_stock m
  = (match latestStockMap (st m) with
     | [] => NoStockData
     | _ :: _ => StockSuccess (map_values (latestStockMap (st m))) (clock m)
     end, m).
Proof.
  unfold get_api_latest_stock. rewrite run_bind. cbn [read run fst snd].
  destruct (latestStockMap (st m)); reflexivity.
Qed.

(** X14. GET /api/latest-stock answers from the stored map alone: it issues
    no request and changes nothing. After a cycle whose fetch succeeded it
    answers the mapped records of that fetch, one per code; when that fetch
    returned an empty array the store is empty again and the route answers
    404 as before the first fetch. *)
Theorem latest_stock_answers_from_the_last_fetch
    (w w' : world) (isInitial : bool) m stockData :
  cycle_fetch w m = Some stockData ->
  let m' := snd (run w (fetchAndBroadcastStockData isInitial) m) in
  snd (run w' get_api_latest_stock m') = m' /\
  fst (run w' get_api_latest_stock m')
  = match stockData with
    | [] => NoStockData
    | _ :: _ => StockSuccess (map_values (fresh_map stockData)) (clock m')
    end.
Proof.
  intros H m'. rewrite run_get_api_latest_stock. cbn [fst snd].
  split; [reflexivity|]. subst m'.
  rewrite (cycle_stores_fresh_map w isInitial m stockData H).
  destruct stockData as [|item rest]; [reflexivity|].
  destruct (fresh_map (item :: rest)) eqn:E; [|reflexivity].
  exfalso. unfold fresh_map in E. cbn [fold_left] in E.
  assert (Hget : map_get (code_of item) (fold_left put rest (put [] item))
                 <> None).
  { rewrite fold_put_get. destruct (last_with (code_of item) rest);
      [discriminate|]. unfold put. fold (code_of item).
    rewrite map_get_set_eq. discriminate. }
  rewrite E in Hget. apply Hget. reflexivity.
Qed.

Lemma latest_stock_answers_from_the_last_fetch_witness :
  let m' := snd (run (serving []) (fetchAndBroadcastStockData false)
                     (ws_serving [item "AAA" 10 0 0])) in
  snd (run always_timeout get_api_latest_stock m') = m' /\
  fst (run always_timeout get_api_latest_stock m') = NoStockData.
Proof.
  apply (latest_stock_answers_from_the_last_fetch
           (serving []) always_timeout false
           (ws_serving [item "AAA" 10 0 0]) []).
  reflexivity.
Defined.

(** X15. GET /api/stock fetches on its own account: it sends nothing to any
    socket and leaves the stored map and the registry as they were. It
    requests a token first when none is stored, then calls
    [getAllStockCompanies] with the token that is stored. It answers 500
    "Failed to fetch stock data" when that call returns null, 500 "Internal
    server error" when the fetched array holds a null element, and otherwise
    one record per fetched item, in order, with the time of the answer. *)
Theorem api_stock_leaves_the_cache_alone (w : world) m :
  same_hub m (snd (run w get_api_stock m)) /\
  snd (run w get_api_stock m) = snd (route_fetch w m) /\
  fst (run w get_api_stock m)
  = match fst (route_fetch w m) with
    | None => StockFailure
    | Some (Records stockData) =>
        StockSuccess (map mapRouteItem stockData)
                     (clock (snd (route_fetch w m)))
    | Some (RecordsThenNull _) =>
        InternalError
          "Cannot read properties of null (reading 'dseCompanyCode')"
    end.
Proof.
  assert (Hrun : run w get_api_stock m
    = (match fst (route_fetch w m) with
       | None => StockFailure
       | Some (Records stockData) =>
           StockSuccess (map mapRouteItem stockData)
                        (clock (snd (route_fetch w m)))
       | Some (RecordsThenNull _) =>
           InternalError
             "Cannot read properties of null (reading 'dseCompanyCode')"
       end, snd (route_fetch w m))).
  { unfold get_api_stock, route_fetch. rewrite run_bind. cbn [read run fst snd].
    rewrite run_bind.
    assert (H1 : snd (run w (if truthy (authToken (st m)) then Ret tt
                             else getIDLCAuthToken 5;;; Ret tt) m)
                 = route_authenticated w m).
    { unfold route_authenticated. destruct (truthy (authToken (st m)));
        [reflexivity|]. rewrite run_bind. reflexivity. }
    rewrite H1. rewrite run_bind. cbn [read run fst snd]. rewrite run_bind.
    destruct (fst (run w (getAllStockCompanies
                            (authToken (st (route_authenticated w m))) 5)
                       (route_authenticated w m)))
      as [[stockData|before]|]; reflexivity. }
  rewrite Hrun. cbn [fst snd]. split; [|split; reflexivity].
  unfold route_fetch.
  eapply same_hub_trans; [|apply getAllStockCompanies_frame].
  unfold route_authenticated. destruct (truthy (authToken (st m)));
    [apply same_hub_refl|apply auth_attempts_frame].
Qed.

(** A fetched array that holds a null element makes the route answer 500
    "Internal server error". *)
Example api_stock_fails_on_a_null_element :
  fst (run (serving_null_after [item "AAA" 10 0 0]) get_api_stock ws_with_token)
  = InternalError "Cannot read properties of null (reading 'dseCompanyCode')".
Proof. reflexivity. Qed.

(** X16. POST /api/auth answers success with exactly the token it has just
    stored, and answers 401 otherwise; either way it sends nothing to any
    socket and leaves the stored map and the registry alone. *)
Theorem api_auth_answers_the_stored_token (w : world) m :
  same_hub m (snd (run w post_api_auth m)) /\
  (fst (run w post_api_auth m) = AuthFailure \/
   exists token,
     fst (run w post_api_auth m) = AuthSuccess token /\
     truthy token = true /\
     authToken (st (snd (run w post_api_auth m))) = token).
Proof.
  unfold post_api_auth. rewrite run_bind.
  pose proof (auth_attempts_frame w (seq 1 5) 5 m) as Hframe.
  pose proof (auth_attempts_outcome w (seq 1 5) 5 m) as Hout.
  fold (getIDLCAuthToken 5) in Hframe, Hout.
  destruct (truthy (fst (run w (getIDLCAuthToken 5) m))) eqn:Htok;
    cbn [run fst snd]; (split; [exact Hframe|]).
  - right. eexists. split; [reflexivity|]. split; [exact Htok|].
    destruct Hout as [[_ Hnull]|Hst].
    + rewrite Hnull in Htok. discriminate.
    + rewrite Hst. reflexivity.
  - left. reflexivity.
Qed.

End WsRouteFacts.

Section IoAuthFacts.
Import IoServer.
Implicit Types m : machine state output.

Lemma tried_next (w : world) format rest m r k :
  grants (auth_reply w (length (issued m)) format) = false ->
  tried w rest (elapse 0 (issue (AuthPost format) m)) r k ->
  tried w (format :: rest) m r (S k).
Proof.
  intros Hno (Hk & Hiss & Hclock & Hgr & Hcase).
  cbn [elapse issue issued clock st outs request_of] in *.
  rewrite Z.add_0_r in *.
  split; [cbn; lia|].
  split; [rewrite Hiss, <- app_assoc; reflexivity|].
  split; [exact Hclock|].
  split.
  - intros [|j] fmt Hj Hnth.
    + cbn in Hnth. injection Hnth as <-. rewrite Nat.add_0_r, Hno.
      destruct Hcase as [(A & B & _)|(A & _)].
      * destruct k; [lia|]. cbn. rewrite andb_false_r. reflexivity.
      * rewrite A. reflexivity.
    + cbn in Hnth. specialize (Hgr j fmt ltac:(lia) Hnth).
      rewrite length_app in Hgr. cbn [length] in Hgr.
      replace (length (issued m) + S j)%nat
        with (length (issued m) + 1 + j)%nat by lia.
      rewrite Hgr. reflexivity.
  - destruct Hcase as [(A & B & C & D)|(A & B & C & D)].
    + left. repeat split; [exact A|lia|exact C|exact D].
    + right. repeat split; [exact A|cbn; lia|exact C|exact D].
Qed.

(** The loop over the payload formats: what it asks, and what it leaves. *)
Lemma try_payloads_trace (w : world) formats :
  forall lastError m,
    exists k, tried w formats m (run w (try_payloads formats lastError) m) k.
Proof.
  induction formats as [|format rest IH]; intros lastError m.
  - exists 0%nat. cbn. unfold tried. cbn. rewrite app_nil_r.
    split; [lia|]. split; [reflexivity|]. split; [reflexivity|].
    split; [intros; lia|].
    right. split; [reflexivity|]. split; [reflexivity|].
    split; [reflexivity|]. eauto.
  - cbn [try_payloads]. rewrite run_bind. cbn [await run fst snd answer].
    destruct (auth_reply w (length (issued m)) format) as [response|error] eqn:Hr.
    + destruct ((auth_status response =? 200) && truthy (find_token response))
        eqn:Hgrant.
      * exists 1%nat. unfold tried. cbn. rewrite Z.add_0_r.
        apply andb_true_iff in Hgrant as Hg. destruct Hg as [_ Htok].
        split; [lia|]. split; [reflexivity|]. split; [reflexivity|].
        split.
        { intros [|j] fmt Hj Hnth; [|lia]. injection Hnth as <-.
          rewrite Nat.add_0_r, Hr. cbn. rewrite Hgrant, Htok. reflexivity. }
        left. repeat split; [exact Htok|lia].
      * destruct (IH lastError (elapse 0 (issue (AuthPost format) m))) as [k Hk].
        exists (S k). apply tried_next; [|exact Hk].
        rewrite Hr. exact Hgrant.
    + destruct (IH (Some error) (elapse 0 (issue (AuthPost format) m))) as [k Hk].
      exists (S k). apply tried_next; [|exact Hk].
      rewrite Hr. reflexivity.
Qed.

Lemma run_getAuthToken (w : world) forceRefresh m :
  run w (getAuthToken forceRefresh) m =
  if cached forceRefresh (st m) (clock m) then (authToken (st m), m)
  else run w (try_payloads payloadFormats None) m.
Proof.
  unfold getAuthToken. rewrite run_bind. cbn [read run fst snd].
  rewrite run_bind. cbn [now run fst snd].
  destruct (cached forceRefresh (st m) (clock m)); reflexivity.
Qed.

(** X17. A call of [getAuthToken] that does not answer from the cached token
    posts the payload formats in their order, one request each and with no
    wait between them, and stops at the first that grants a token: between
    one and four requests, of which only the last can have granted. *)
Theorem getAuthToken_tries_each_format_once (w : world) forceRefresh m :
  cached forceRefresh (st m) (clock m) = false ->
  exists k, (1 <= k <= 4)%nat /\
    issued (snd (run w (getAuthToken forceRefresh) m))
    = issued m ++ map ReqAuth (firstn k payloadFormats) /\
    clock (snd (run w (getAuthToken forceRefresh) m)) = clock m /\
    (forall j format,
       (S j < k)%nat -> nth_error payloadFormats j = Some format ->
       grants (auth_reply w (length (issued m) + j) format) = false) /\
    (truthy (fst (run w (getAuthToken forceRefresh) m)) = false -> k = 4%nat).
Proof.
  intros Hc. rewrite run_getAuthToken, Hc.
  destruct (try_payloads_trace w payloadFormats None m)
    as (k & Hk & Hiss & Hclock & Hgr & Hcase).
  exists k. cbn [length payloadFormats] in Hk.
  split.
  { destruct Hcase as [(_ & B & _)|(_ & B & _)]; [lia|].
    rewrite B. cbn. lia. }
  split; [exact Hiss|]. split; [exact Hclock|]. split.
  - intros j format Hj Hnth. rewrite (Hgr j format ltac:(lia) Hnth).
    replace (k =? S j)%nat with false; [apply andb_false_r|].
    symmetry. apply Nat.eqb_neq. lia.
  - intros Hf. destruct Hcase as [(A & _)|(_ & B & _)]; [congruence|exact B].
Qed.

Lemma getAuthToken_tries_each_format_once_witness :
  exists k, (1 <= k <= 4)%nat /\
    issued (snd (run always_timeout (getAuthToken false) (io_at 0)))
    = issued (io_at 0) ++ map ReqAuth (firstn k payloadFormats) /\
    clock (snd (run always_timeout (getAuthToken false) (io_at 0)))
    = clock (io_at 0) /\
    (forall j format,
       (S j < k)%nat -> nth_error payloadFormats j = Some format ->
       grants (auth_reply always_timeout (length (issued (io_at 0)) + j) format)
       = false) /\
    (truthy (fst (run always_timeout (getAuthToken false) (io_at 0))) = false ->
     k = 4%nat).
Proof.
  apply (getAuthToken_tries_each_format_once always_timeout false (io_at 0)).
  reflexivity.
Defined.

(** X18. What a call of [getAuthToken] leaves behind. Either it returns a
    token, which is then the stored one: the cached token with nothing
    changed, or a new one stored to expire 55 minutes from now and
    announced by one 'auth-status' "authenticated". Or it returns null:
    the token and its expiry are what they were, and one 'auth-status'
    "error" is emitted. *)
Theorem getAuthToken_session (w : world) forceRefresh m :
  (truthy (fst (run w (getAuthToken forceRefresh) m)) = true /\
   authToken (st (snd (run w (getAuthToken forceRefresh) m)))
   = fst (run w (getAuthToken forceRefresh) m) /\
   (snd (run w (getAuthToken forceRefresh) m) = m \/
    (tokenExpiryTime (st (snd (run w (getAuthToken forceRefresh) m)))
     = Some (clock (snd (run w (getAuthToken forceRefresh) m)) + token_lifetime) /\
     outs (snd (run w (getAuthToken forceRefresh) m))
     = outs m ++ [authenticated_at (clock m)]))) \/
  (fst (run w (getAuthToken forceRefresh) m) = VNull /\
   st (snd (run w (getAuthToken forceRefresh) m)) = st m /\
   exists message,
     outs (snd (run w (getAuthToken forceRefresh) m))
     = outs m ++ [auth_error_at message (clock m)]).
Proof.
  rewrite run_getAuthToken.
  destruct (cached forceRefresh (st m) (clock m)) eqn:Hc.
  - left. cbn [fst snd]. unfold cached in Hc.
    apply andb_true_iff in Hc as [Hc _]. apply andb_true_iff in Hc as [Hc _].
    split; [exact Hc|]. split; [reflexivity|]. left. reflexivity.
  - destruct (try_payloads_trace w payloadFormats None m)
      as (k & _ & _ & Hclock & _ & [(A & _ & C & D)|(A & _ & C & D)]).
    + left. split; [exact A|]. rewrite C, Hclock. cbn.
      split; [reflexivity|]. right. split; [reflexivity|exact D].
    + right. split; [exact A|]. split; [exact C|exact D].
Qed.

(** X19. A token obtained from upstream is reused for 55 minutes: a call of
    [getAuthToken()] made less than 55 minutes later returns it without a
    request, and a call made 55 minutes later or more asks upstream
    again. *)
Theorem token_is_reused_for_55_minutes (w w' : world) forceRefresh m dt :
  cached forceRefresh (st m) (clock m) = false ->
  truthy (fst (run w (getAuthToken forceRefresh) m)) = true ->
  0 <= clock m -> 0 <= dt ->
  let later := elapse dt (snd (run w (getAuthToken forceRefresh) m)) in
  (dt < token_lifetime ->
   run w' (getAuthToken false) later
   = (fst (run w (getAuthToken forceRefresh) m), later)) /\
  (token_lifetime <= dt ->
   exists k, (1 <= k)%nat /\
     issued (snd (run w' (getAuthToken false) later))
     = issued later ++ map ReqAuth (firstn k payloadFormats)).
Proof.
  intros Hc Ht Hclock Hdt later. subst later.
  rewrite (run_getAuthToken w) in *. rewrite Hc in *.
  destruct (try_payloads_trace w payloadFormats None m)
    as (k & _ & _ & Hcl & _ & [(A & _ & C & D)|(A & _)]);
    [|rewrite A in Ht; discriminate].
  set (r := run w (try_payloads payloadFormats None) m) in *.
  assert (Hcached : cached false (st (elapse dt (snd r))) (clock (elapse dt (snd r)))
                    = (dt <? token_lifetime)).
  { unfold cached. cbn [elapse st clock]. rewrite C, Hcl. cbn [set_session authToken tokenExpiryTime].
    rewrite A. cbn [negb andb].
    replace (clock m + token_lifetime =? 0) with false
      by (symmetry; apply Z.eqb_neq; unfold token_lifetime; lia).
    cbn [negb andb].
    destruct (Z.ltb_spec dt token_lifetime);
      [apply Z.ltb_lt|apply Z.ltb_ge]; lia. }
  split.
  - intros Hlt. rewrite run_getAuthToken, Hcached.
    apply Z.ltb_lt in Hlt. rewrite Hlt. cbn [elapse st]. rewrite C. reflexivity.
  - intros Hge. rewrite run_getAuthToken, Hcached.
    apply Z.ltb_ge in Hge. rewrite Hge.
    destruct (try_payloads_trace w' payloadFormats None (elapse dt (snd r)))
      as (k' & _ & Hiss & _ & _ & Hcase).
    exists k'. split; [|exact Hiss].
    destruct Hcase as [(_ & B & _)|(_ & B & _)]; [lia|]. rewrite B. cbn. lia.
Qed.

Lemma token_is_reused_for_55_minutes_witness :
  run always_timeout (getAuthToken false)
      (elapse 60000 (snd (run grant_first (getAuthToken false) (io_at 1000))))
  = (fst (run grant_first (getAuthToken false) (io_at 1000)),
     elapse 60000 (snd (run grant_first (getAuthToken false) (io_at 1000)))).
Proof.
  apply (token_is_reused_for_55_minutes grant_first always_timeout false
           (io_at 1000) 60000).
  - reflexivity.
  - reflexivity.
  - cbn. lia.
  - lia.
  - unfold token_lifetime. lia.
Defined.

End IoAuthFacts.

Section IoStoreFacts.
Import IoServer.
Implicit Types m : machine state output.

(** X20. [fetchStockData] never removes a code from [previousStockData]:
    whatever upstream answers, every code stored before the call is stored
    after it. *)
Theorem fetchStockData_never_forgets_a_code (w : world) depth m :
  dom (previousStockData (st m))
  ⊆ dom (previousStockData (st (snd (run w (fetchStockData depth) m)))).
Proof.
  apply (fetchStockData_keeps
           (fun store => dom (previousStockData (st m)) ⊆ dom store)
           (fun _ => True) w).
  - intros s stockData H. etransitivity; [exact H|apply io_scan_dom].
  - intros; exact I.
  - intros; exact I.
  - intros; exact I.
  - reflexivity.
  - apply Forall_forall. intros; exact I.
Qed.

(** X21. Every record that [fetchStockData] stores is stored under the
    property name of its own code ([dseCompanyCode], or [trading_code] when
    that is missing): the property holds of the empty store of the start
    and every call keeps it. *)
Theorem records_are_stored_under_their_code (w : world) depth m :
  own_keys (previousStockData (st m)) ->
  own_keys (previousStockData (st (snd (run w (fetchStockData depth) m)))).
Proof.
  intros H.
  apply (fetchStockData_keeps own_keys (fun _ => True) w).
  - intros s stockData. apply io_scan_keeps. reflexivity.
  - intros; exact I.
  - intros; exact I.
  - intros; exact I.
  - exact H.
  - apply Forall_forall. intros; exact I.
Qed.

Lemma records_are_stored_under_their_code_witness :
  own_keys (previousStockData
              (st (snd (run (serving [quote "AAA" 10 1 1; quote "BBB" 20 2 2])
                            (fetchStockData 2) (io_at 0))))).
Proof.
  apply (records_are_stored_under_their_code
           (serving [quote "AAA" 10 1 1; quote "BBB" 20 2 2]) 2 (io_at 0)).
  apply map_Forall_empty.
Defined.

(** X22. No 'stock-updates' event is ever emitted with an empty array:
    [fetchStockData] emits it only when there are updates, and the
    connection handler only when records are stored. *)
Theorem stock_updates_are_never_empty (w : world) depth socket m :
  Forall carries_records (outs m) ->
  Forall carries_records (outs (snd (run w (fetchStockData depth) m))) /\
  Forall carries_records (outs (snd (run w (on_connection socket) m))).
Proof.
  intros H. split.
  - apply (fetchStockData_keeps (fun _ => True) carries_records w).
    + intros; exact I.
    + intros; exact I.
    + intros; exact I.
    + intros s stockData _ Hlen. cbn. intros E. rewrite E in Hlen.
      discriminate.
    + exact I.
    + exact H.
  - unfold on_connection. rewrite run_bind. cbn [read run fst snd].
    rewrite run_bind.
    destruct (0 <? length _)%nat eqn:Hlen; cbn [emit run fst snd add_out outs].
    + rewrite <- app_assoc. apply Forall_app. split; [exact H|].
      constructor; [|repeat constructor].
      cbn. intros E. rewrite E in Hlen. discriminate.
    + apply Forall_app. split; [exact H|]. repeat constructor.
Qed.

Lemma stock_updates_are_never_empty_witness :
  Forall carries_records
    (outs (snd (run (serving [quote "AAA" 10 1 1]) (fetchStockData 2) (io_at 0)))) /\
  Forall carries_records
    (outs (snd (run (serving [quote "AAA" 10 1 1]) (on_connection 7) (io_at 0)))).
Proof.
  apply (stock_updates_are_never_empty (serving [quote "AAA" 10 1 1]) 2 7 (io_at 0)).
  constructor.
Defined.

End IoStoreFacts.

Section IoFetchFacts.
Import IoServer.
Implicit Types m : machine state output.

Lemma hasUpdate_same (stock : obj) : hasUpdate (ARecord stock) stock = false.
Proof.
  unfold hasUpdate, differs_from. rewrite !strict_neq_refl. reflexivity.
Qed.

(** Records that agree with the store leave it as it is. *)
Lemma settled_scan stockData :
  forall s updates,
    settled s stockData -> io_scan s stockData updates = (s, updates).
Proof.
  induction stockData as [|stock rest IH]; intros s updates H.
  - reflexivity.
  - rewrite io_scan_cons.
    assert (Hrest : settled s rest).
    { intros r Hin. apply H. right. exact Hin. }
    destruct (keyed stock) eqn:Hk; cbn [negb]; [|apply IH, Hrest].
    rewrite (H stock (or_introl eq_refl) Hk). apply IH, Hrest.
Qed.

(** With one record per code and no code [__proto__], the store agrees with
    the records once the loop has passed over them. *)
Lemma scan_settles stockData :
  forall s updates,
    NoDup (map key_of (List.filter keyed stockData)) ->
    (forall stock, In stock stockData -> keyed stock = true ->
                   key_of stock <> "__proto__") ->
    settled (fst (io_scan s stockData updates)) stockData.
Proof.
  induction stockData as [|stock rest IH]; intros s updates Hnd Hproto.
  - intros r [].
  - assert (Hrest : NoDup (map key_of (List.filter keyed rest))).
    { cbn [List.filter] in Hnd. destruct (keyed stock); [|exact Hnd].
      cbn [map] in Hnd. apply NoDup_cons in Hnd. apply Hnd. }
    assert (Hproto' : forall r, In r rest -> keyed r = true ->
                                key_of r <> "__proto__").
    { intros r Hin. apply Hproto. right. exact Hin. }
    assert (Hother : keyed stock = true ->
      forall r, In r rest -> keyed r = true ->
                key_of r <> "__proto__" /\ key_of r <> key_of stock).
    { intros Hk r Hin Hkr. split; [apply Hproto'; assumption|]. intros E.
      cbn [List.filter] in Hnd. rewrite Hk in Hnd.
      cbn [map] in Hnd. apply NoDup_cons in Hnd. destruct Hnd as [Hnotin _].
      apply Hnotin. apply list_elem_of_In. rewrite <- E. apply in_map.
      apply filter_In. split; assumption. }
    rewrite io_scan_cons. intros r [<-|Hin] Hkr.
    + rewrite Hkr. cbn [negb].
      destruct (hasUpdate (lookup s (key_of stock)) stock) eqn:Hup.
      * rewrite io_scan_lookup by (apply Hother; exact Hkr).
        rewrite assign_lookup_same
          by (apply Hproto; [left; reflexivity|exact Hkr]).
        apply hasUpdate_same.
      * rewrite io_scan_lookup by (apply Hother; exact Hkr). exact Hup.
    + destruct (negb (keyed stock)); [apply IH; assumption|].
      destruct (hasUpdate (lookup s (key_of stock)) stock);
        apply IH; assumption.
Qed.

(** A token returned by [getAuthToken] is the stored one, and the call
    takes no time of its own. *)
Lemma getAuthToken_returns_stored (w : world) forceRefresh m :
  clock (snd (run w (getAuthToken forceRefresh) m)) = clock m /\
  (truthy (fst (run w (getAuthToken forceRefresh) m)) = true ->
   authToken (st (snd (run w (getAuthToken forceRefresh) m)))
   = fst (run w (getAuthToken forceRefresh) m)).
Proof.
  rewrite run_getAuthToken.
  destruct (cached forceRefresh (st m) (clock m)).
  - split; reflexivity.
  - destruct (try_payloads_trace w payloadFormats None m)
      as (k & _ & _ & Hclock & _ & [(A & _ & C & D)|(A & _)]).
    + split; [exact Hclock|]. intros _. rewrite C. reflexivity.
    + split; [exact Hclock|]. rewrite A. discriminate.
Qed.

(** X23. When every code occurs once in the fetched rows and none of them is
    [__proto__], passing the same rows through the [forEach] of
    [fetchStockData] a second time reports no update and leaves the store
    as the first pass left it. *)
Theorem same_rows_again_report_nothing (w w' : world) stockData m :
  NoDup (map key_of (List.filter keyed stockData)) ->
  (forall stock, In stock stockData -> keyed stock = true ->
                 key_of stock <> "__proto__") ->
  run w' (for_each stockData []) (snd (run w (for_each stockData []) m))
  = ([], snd (run w (for_each stockData []) m)).
Proof.
  intros Hnd Hproto. rewrite (run_for_each w). cbn [snd].
  rewrite run_for_each. cbn [st set_st].
  rewrite settled_scan by (apply scan_settles; assumption).
  cbn [fst snd]. reflexivity.
Qed.

Lemma same_rows_again_report_nothing_witness :
  run always_timeout (for_each [quote "AAA" 10 1 1; quote "BBB" 20 2 2] [])
      (snd (run always_timeout
                (for_each [quote "AAA" 10 1 1; quote "BBB" 20 2 2] [])
                (io_at 0)))
  = ([], snd (run always_timeout
                  (for_each [quote "AAA" 10 1 1; quote "BBB" 20 2 2] [])
                  (io_at 0))).
Proof.
  apply (same_rows_again_report_nothing always_timeout always_timeout
           [quote "AAA" 10 1 1; quote "BBB" 20 2 2] (io_at 0)).
  - apply (bool_decide_unpack _). vm_compute. exact I.
  - intros stock [<-|[<-|[]]] _; vm_compute; discriminate.
Defined.

(** With a record whose code is [__proto__] the second pass can report a
    record the first pass did not: the first pass made that record the
    prototype of the store, and the field it holds under the name
    "constructor" is read in place of the inherited method. *)
Example proto_code_unsettles_the_store :
  fst (run always_timeout
         (for_each [ {[ "trading_code" := VStr "constructor" ]};
                     {[ "trading_code" := VStr "__proto__";
                        "change" := VNum 1; "constructor" := VNum 0 ]} ] [])
         (io_at 0))
  = [ {[ "trading_code" := VStr "__proto__";
         "change" := VNum 1; "constructor" := VNum 0 ]} ] /\
  fst (run always_timeout
         (for_each [ {[ "trading_code" := VStr "constructor" ]};
                     {[ "trading_code" := VStr "__proto__";
                        "change" := VNum 1; "constructor" := VNum 0 ]} ] [])
         (snd (run always_timeout
                 (for_each [ {[ "trading_code" := VStr "constructor" ]};
                             {[ "trading_code" := VStr "__proto__";
                                "change" := VNum 1;
                                "constructor" := VNum 0 ]} ] [])
                 (io_at 0))))
  = [ {[ "trading_code" := VStr "constructor" ]} ].
Proof. split; reflexivity. Qed.

(** X24. A call of [fetchStockData] that returns rows leaves
    [lastFetchTime] at the time of its return and a token in [authToken]. *)
Theorem fetch_that_returns_rows_is_stamped (w : world) depth :
  forall m stockData,
    fst (run w (fetchStockData depth) m) = Fetched stockData ->
    lastFetchTime (st (snd (run w (fetchStockData depth) m)))
    = Some (clock (snd (run w (fetchStockData depth) m))) /\
    truthy (authToken (st (snd (run w (fetchStockData depth) m)))) = true.
Proof.
  induction depth as [|depth IH]; intros m stockData.
  { cbn. discriminate. }
  rewrite run_fetchStockData_S. cbv zeta.
  destruct (getAuthToken_returns_stored w false m) as [_ Hst].
  destruct (truthy (fst (run w (getAuthToken false) m))) eqn:Htok; cbn [negb];
    [|rewrite run_fetch_failed; discriminate].
  specialize (Hst eq_refl).
  destruct (stock_reply w _ _) as [response|error];
    [|rewrite run_fetch_failed; discriminate].
  destruct (stock_status response =? 401); [apply IH|].
  destruct (negb (stock_status response =? 200));
    [rewrite run_fetch_failed; discriminate|].
  destruct (rows (stock_data response)) as [[data|before]|];
    [|rewrite run_store_then_throw; discriminate
     |rewrite run_fetch_failed; discriminate].
  rewrite run_store_rows.
  cbn [fst snd st clock lastFetchTime set_lastFetchTime authToken].
  intros _. split; [reflexivity|].
  match goal with |- context [io_scan ?s0 data []] =>
    destruct (io_scan_session data s0 []) as (-> & _) end.
  cbn [st elapse issue]. rewrite Hst. exact Htok.
Qed.

Lemma fetch_that_returns_rows_is_stamped_witness :
  lastFetchTime
    (st (snd (run (serving [quote "AAA" 10 1 1]) (fetchStockData 1) (io_at 5))))
  = Some (clock (snd (run (serving [quote "AAA" 10 1 1]) (fetchStockData 1)
                          (io_at 5)))) /\
  truthy (authToken
            (st (snd (run (serving [quote "AAA" 10 1 1]) (fetchStockData 1)
                          (io_at 5))))) = true.
Proof.
  apply (fetch_that_returns_rows_is_stamped (serving [quote "AAA" 10 1 1]) 1
           (io_at 5) [quote "AAA" 10 1 1]).
  reflexivity.
Defined.

End IoFetchFacts.

Section IoRouteFacts.
Import IoServer IoRoutes.
Implicit Types m : machine state output.

Lemma substring_length (n : nat) (s : string) :
  (String.length (String.substring 0 n s) <= n)%nat.
Proof.
  revert s. induction n as [|n IH]; intros [|c s]; cbn; try lia.
  specialize (IH s). lia.
Qed.

Lemma append_length (s t : string) :
  String.length (s ++ t) = (String.length s + String.length t)%nat.
Proof.
  induction s as [|c s IH]; [reflexivity|].
  change (S (String.length (s ++ t)) = S (String.length s + String.length t)).
  rewrite IH. reflexivity.
Qed.

(** X25. POST /auth asks upstream for a token whatever is cached: it always
    issues at least one authentication request. An answer of success shows
    a prefix of the token now stored, of at most 20 characters, followed
    by three dots. *)
Theorem auth_route_always_refreshes (w : world) m :
  (exists k, (1 <= k <= 4)%nat /\
     issued (snd (run w post_auth m))
     = issued m ++ map ReqAuth (firstn k payloadFormats)) /\
  match fst (run w post_auth m) with
  | AuthSuccess preview =>
      exists token,
        authToken (st (snd (run w post_auth m))) = VStr token /\
        preview = (String.substring 0 20 token ++ "...")%string /\
        (String.length preview <= 23)%nat
  | ServerError _ => True
  end.
Proof.
  unfold post_auth. rewrite run_bind.
  destruct (getAuthToken_returns_stored w true m) as [_ Hst].
  assert (Hreq : exists k, (1 <= k <= 4)%nat /\
     issued (snd (run w (getAuthToken true) m))
     = issued m ++ map ReqAuth (firstn k payloadFormats)).
  { rewrite run_getAuthToken.
    replace (cached true (st m) (clock m)) with false
      by (unfold cached; rewrite andb_false_r; reflexivity).
    destruct (try_payloads_trace w payloadFormats None m)
      as (k & Hk & Hiss & _ & _ & Hcase).
    exists k. split; [|exact Hiss]. cbn in Hk.
    destruct Hcase as [(_ & B & _)|(_ & B & _)]; [lia|]. rewrite B. cbn. lia. }
  destruct (truthy (fst (run w (getAuthToken true) m))) eqn:Htok.
  - specialize (Hst eq_refl).
    destruct (fst (run w (getAuthToken true) m)) as [| | | |s] eqn:Hv;
      cbn [run fst snd]; (split; [exact Hreq|]); try exact I.
    exists s. split; [exact Hst|]. split; [reflexivity|].
    rewrite append_length. pose proof (substring_length 20 s). cbn. lia.
  - cbn [run fst snd]. split; [exact Hreq|]. exact I.
Qed.

End IoRouteFacts.

Section LegacyFacts.
Import Legacy.
Implicit Types m : machine state WsServer.output.

Lemma legacy_hub_refl m : legacy_hub m m.
Proof. repeat split. Qed.

Lemma legacy_hub_trans m1 m2 m3 :
  legacy_hub m1 m2 -> legacy_hub m2 m3 -> legacy_hub m1 m3.
Proof.
  intros (A1 & A2 & A3 & A4) (B1 & B2 & B3 & B4).
  repeat split; congruence.
Qed.

(** The time a loop of attempts numbered from [a] may wait when [k] of its
    attempts are followed by a wait. *)
Lemma legacy_wait_sum (a k : nat) :
  1000 * Z.of_nat (S k) * (2 * Z.of_nat a + Z.of_nat (S k) - 1)
  = backoff a + 1000 * Z.of_nat k * (2 * Z.of_nat (S a) + Z.of_nat k - 1).
Proof. unfold backoff. rewrite !Nat2Z.inj_succ. ring. Qed.

(** The authentication loop touches the token alone, issues at most one
    request per attempt, and waits no longer than the waits between its
    attempts. *)
Lemma legacy_auth_attempts_frame (w : world) (rc : nat) :
  forall (len a : nat) m,
    (a + len = S rc)%nat -> (1 <= a)%nat ->
    legacy_hub m (snd (run w (auth_attempts (seq a len) rc) m)) /\
    clock m <= clock (snd (run w (auth_attempts (seq a len) rc) m))
    <= clock m + 1000 * Z.of_nat (len - 1)
                 * (2 * Z.of_nat a + Z.of_nat (len - 1) - 1) /\
    (auth_requests (issued (snd (run w (auth_attempts (seq a len) rc) m)))
     <= auth_requests (issued m) + len)%nat.
Proof.
  induction len as [|len IH]; intros a m Hsum Ha.
  { cbn. split; [apply legacy_hub_refl|]. split; lia. }
  cbn [seq auth_attempts]. rewrite run_bind. cbn [await run fst snd answer].
  set (m1 := elapse 0 (issue (AuthPost WrappedCredentials) m)).
  assert (H1 : legacy_hub m m1) by (repeat split).
  assert (C1 : clock m1 = clock m) by (cbn; lia).
  assert (R1 : auth_requests (issued m1) = S (auth_requests (issued m))).
  { subst m1. cbn [issued elapse issue request_of].
    rewrite auth_requests_app. cbn. lia. }
  replace (S len - 1)%nat with len by lia.
  assert (Hpos : 0 <= 1000 * Z.of_nat len * (2 * Z.of_nat a + Z.of_nat len - 1))
    by nia.
  assert (Hstay : legacy_hub m m1 /\
    clock m <= clock m1
    <= clock m + 1000 * Z.of_nat len * (2 * Z.of_nat a + Z.of_nat len - 1) /\
    (auth_requests (issued m1) <= auth_requests (issued m) + S len)%nat).
  { split; [exact H1|]. split; lia. }
  assert (Hsleep : (a <? rc)%nat = true ->
    legacy_hub m
      (snd (run w (auth_attempts (seq (S a) len) rc)
                (elapse (backoff a) (issue (Sleep (backoff a)) m1)))) /\
    clock m
    <= clock (snd (run w (auth_attempts (seq (S a) len) rc)
                       (elapse (backoff a) (issue (Sleep (backoff a)) m1))))
    <= clock m + 1000 * Z.of_nat len * (2 * Z.of_nat a + Z.of_nat len - 1) /\
    (auth_requests
       (issued (snd (run w (auth_attempts (seq (S a) len) rc)
                         (elapse (backoff a) (issue (Sleep (backoff a)) m1)))))
     <= auth_requests (issued m) + S len)%nat).
  { intros Hlt. apply Nat.ltb_lt in Hlt.
    destruct len as [|len']; [lia|].
    destruct (IH (S a) (elapse (backoff a) (issue (Sleep (backoff a)) m1)))
      as (A & B & C); [lia|lia|].
    split; [eapply legacy_hub_trans; [|exact A]; repeat split|].
    replace (S len' - 1)%nat with len' in B by lia.
    rewrite (legacy_wait_sum a len').
    cbn [clock elapse issue] in B. unfold backoff in *.
    subst m1. cbn [issued elapse issue request_of] in C.
    rewrite !auth_requests_app in C.
    cbn [auth_requests List.filter is_auth length] in C.
    split; lia. }
  assert (Hlast : (a <? rc)%nat = false -> len = 0%nat).
  { intros Hge. apply Nat.ltb_ge in Hge. lia. }
  destruct (auth_reply w (length (issued m)) WrappedCredentials)
    as [response|error].
  - destruct (result_code response) as [code|]; [|exact Hstay].
    destruct (strict_eq code (VStr "200")).
    + destruct (result_token response) as [token|]; [|exact Hstay].
      cbn [modify bind run fst snd]. unfold set_st.
      cbn [st outs clock issued].
      destruct Hstay as (_ & B & C).
      split; [repeat split|]. split; [exact B|exact C].
    + rewrite run_bind.
      destruct (a <? rc)%nat eqn:Hlt; cbn [await run fst snd answer].
      * exact (Hsleep eq_refl).
      * rewrite (Hlast eq_refl). cbn [seq auth_attempts run snd].
        rewrite (Hlast eq_refl) in Hstay. exact Hstay.
  - destruct (transient error && (a <? rc)%nat) eqn:Hgo; [|exact Hstay].
    apply andb_true_iff in Hgo as [_ Hlt].
    rewrite run_bind. cbn [await run fst snd answer].
    exact (Hsleep Hlt).
Qed.

Lemma legacy_getIDLCAuthToken_frame (w : world) (n : nat) m :
  legacy_hub m (snd (run w (getIDLCAuthToken (S n)) m)).
Proof.
  unfold getIDLCAuthToken.
  apply (legacy_auth_attempts_frame w (S n) (S n) 1 m); lia.
Qed.

Lemma legacy_stock_attempts_frame (w : world) attempts rc :
  forall token m,
    legacy_hub m (snd (run w (stock_attempts attempts rc token) m)).
Proof.
  induction attempts as [|a rest IH]; intros token m.
  { apply legacy_hub_refl. }
  cbn [stock_attempts]. rewrite run_bind. cbn [await run fst snd answer].
  set (m1 := elapse 0 (issue (StockGet token) m)).
  assert (H1 : legacy_hub m m1) by (repeat split).
  destruct (stock_reply w (length (issued m)) token) as [response|error].
  - destruct (WsServer.as_array (stock_data response)); [exact H1|].
    destruct (a <? rc)%nat; [|exact H1].
    eapply legacy_hub_trans; [exact H1|apply IH].
  - destruct (transient error || WsServer.is_401 error); [|exact H1].
    rewrite run_bind.
    destruct (WsServer.is_401 error).
    + rewrite run_bind. cbn [read bind run fst snd].
      pose proof (legacy_getIDLCAuthToken_frame w 2 m1) as H2.
      destruct (a <? rc)%nat.
      * rewrite run_bind. cbn [await run fst snd answer].
        eapply legacy_hub_trans; [exact H1|].
        eapply legacy_hub_trans; [exact H2|].
        eapply legacy_hub_trans; [|apply IH]. repeat split.
      * cbn [run snd]. eapply legacy_hub_trans; [exact H1|exact H2].
    + cbn [run fst snd]. destruct (a <? rc)%nat; [|exact H1].
      rewrite run_bind. cbn [await run fst snd answer].
      eapply legacy_hub_trans; [exact H1|].
      eapply legacy_hub_trans; [|apply IH]. repeat split.
Qed.

Lemma legacy_getAllStockCompanies_frame (w : world) token rc m :
  legacy_hub m (snd (run w (getAllStockCompanies token rc) m)).
Proof.
  unfold getAllStockCompanies.
  destruct (truthy token);
    [apply legacy_stock_attempts_frame|apply legacy_hub_refl].
Qed.

Lemma legacy_ensure_token_frame (w : world) m :
  legacy_hub m (snd (run w ensure_token m)).
Proof.
  unfold ensure_token. rewrite run_bind. cbn [read run fst snd].
  destruct (truthy (authToken (st m))); [apply legacy_hub_refl|].
  rewrite run_bind. cbn [run fst snd].
  apply (legacy_getIDLCAuthToken_frame w 2 m).
Qed.

Lemma legacy_fetched_frame (w : world) m : legacy_hub m (legacy_fetched w m).
Proof.
  unfold legacy_fetched. cbv zeta.
  pose proof (legacy_ensure_token_frame w m) as H.
  destruct (fst (run w ensure_token m)); [|exact H].
  eapply legacy_hub_trans; [exact H|apply legacy_getAllStockCompanies_frame].
Qed.

Lemma legacy_run_send_each (w : world) cs ready msg m :
  run w (send_each cs ready msg) m =
  (tt, {| st := st m;
          outs := outs m ++ map (fun c => WsServer.Send c msg)
                                (List.filter (fun c => WsServer.is_open (ready c)) cs);
          clock := clock m; issued := issued m |}).
Proof.
  revert m. induction cs as [|c rest IH]; intros m.
  - cbn. rewrite app_nil_r. destruct m; reflexivity.
  - cbn [send_each List.filter]. rewrite run_bind.
    destruct (WsServer.is_open (ready c)); cbn [emit run fst snd]; rewrite IH.
    + cbn. rewrite <- app_assoc. reflexivity.
    + reflexivity.
Qed.

(** A cycle is its fetch, then the publication of what was fetched. *)
Lemma legacy_run_cycle (w : world) m :
  run w fetchAndBroadcastStockData m =
  match legacy_fetch w m with
  | Some stockData =>
      (Some (map WsServer.mapItem stockData),
       {| st := set_latestStockData (Some (map WsServer.mapItem stockData))
                  (st (legacy_fetched w m));
          outs := outs (legacy_fetched w m)
                  ++ map (fun c => WsServer.Send c
                            {| WsServer.msg_type := "stock_data";
                               WsServer.msg_data := map WsServer.mapItem stockData;
                               WsServer.msg_timestamp := clock (legacy_fetched w m) |})
                         (legacy_recipients (st (legacy_fetched w m)));
          clock := clock (legacy_fetched w m);
          issued := issued (legacy_fetched w m) |})
  | None => (None, legacy_fetched w m)
  end.
Proof.
  unfold fetchAndBroadcastStockData, legacy_fetch, legacy_fetched.
  rewrite run_bind.
  destruct (fst (run w ensure_token m)); [|reflexivity].
  rewrite run_bind. cbn [read run fst snd]. rewrite run_bind.
  destruct (fst (run w (getAllStockCompanies _ 3) _)) as [[stockData|before]|];
    [|reflexivity|reflexivity].
  cbn [records_of]. rewrite run_bind. unfold publish. rewrite run_bind.
  cbn [modify run fst snd]. rewrite run_bind. cbn [now run fst snd].
  rewrite run_bind. cbn [read run fst snd]. rewrite run_bind.
  rewrite legacy_run_send_each. reflexivity.
Qed.

(** X26. A cycle of the earlier server whose fetch succeeded compares
    nothing: it stores the mapped records of every fetched item and sends
    them all, in one "stock_data" message, to each registered socket that
    is open. *)
Theorem legacy_cycle_sends_the_whole_array (w : world) m stockData :
  legacy_fetch w m = Some stockData ->
  fst (run w fetchAndBroadcastStockData m)
  = Some (map WsServer.mapItem stockData) /\
  latestStockData (st (snd (run w fetchAndBroadcastStockData m)))
  = Some (map WsServer.mapItem stockData) /\
  outs (snd (run w fetchAndBroadcastStockData m))
  = outs m
    ++ map (fun c => WsServer.Send c
              {| WsServer.msg_type := "stock_data";
                 WsServer.msg_data := map WsServer.mapItem stockData;
                 WsServer.msg_timestamp :=
                   clock (snd (run w fetchAndBroadcastStockData m)) |})
           (legacy_recipients (st m)).
Proof.
  intros Hf. rewrite legacy_run_cycle, Hf. cbn [fst snd st outs clock].
  destruct (legacy_fetched_frame w m) as (A & B & C & D).
  split; [reflexivity|]. split; [reflexivity|].
  rewrite A. unfold legacy_recipients. rewrite C, D. reflexivity.
Qed.

Lemma legacy_cycle_sends_the_whole_array_witness :
  outs (snd (run (serving [item "AAA" 10 0 0]) fetchAndBroadcastStockData
                 (legacy_with (Some [WsServer.mapItem (item "AAA" 10 0 0)]))))
  = [WsServer.Send 1
       {| WsServer.msg_type := "stock_data";
          WsServer.msg_data := [WsServer.mapItem (item "AAA" 10 0 0)];
          WsServer.msg_timestamp := 0 |}].
Proof.
  apply (legacy_cycle_sends_the_whole_array (serving [item "AAA" 10 0 0])
           (legacy_with (Some [WsServer.mapItem (item "AAA" 10 0 0)]))
           [item "AAA" 10 0 0]).
  reflexivity.
Defined.

(** X27. In the earlier server stored data is never cleared: once
    [latestStockData] holds an array it holds one after every cycle. From
    then on GET /api/latest-stock answers success and a connecting socket
    is sent the stored array at once, with no request to upstream, also
    when the array is empty. *)
Theorem legacy_data_is_never_cleared (w w' : world) (ws : nat) m :
  latestStockData (st m) <> None ->
  let m' := snd (run w fetchAndBroadcastStockData m) in
  (exists data,
     latestStockData (st m') = Some data /\
     fst (run w' get_api_latest_stock m')
     = WsRoutes.StockSuccess data (clock m') /\
     outs (snd (run w' (on_connection ws) m'))
     = outs m' ++ [WsServer.Send ws {| WsServer.msg_type := "stock_data";
                                       WsServer.msg_data := data;
                                       WsServer.msg_timestamp := clock m' |}]) /\
  issued (snd (run w' (on_connection ws) m')) = issued m'.
Proof.
  intros H m'.
  assert (H' : latestStockData (st m') <> None).
  { subst m'. rewrite legacy_run_cycle.
    destruct (legacy_fetch w m); [discriminate|].
    cbn [snd]. destruct (legacy_fetched_frame w m) as (_ & B & _).
    rewrite B. exact H. }
  clearbody m'. clear H.
  unfold get_api_latest_stock, on_connection.
  rewrite !run_bind. cbn [read modify run fst snd]. rewrite ?run_bind.
  cbn [read run fst snd set_st st set_clients latestStockData].
  destruct (latestStockData (st m')) as [data|]; [|contradiction].
  rewrite ?run_bind. cbn [now emit run fst snd]. split; [|reflexivity].
  exists data. repeat split.
Qed.

Lemma legacy_data_is_never_cleared_witness :
  issued (snd (run always_timeout (on_connection 2)
                   (snd (run (serving []) fetchAndBroadcastStockData
                             (legacy_with (Some []))))))
  = issued (snd (run (serving []) fetchAndBroadcastStockData
                     (legacy_with (Some [])))).
Proof.
  apply (legacy_data_is_never_cleared (serving []) always_timeout 2
           (legacy_with (Some []))).
  discriminate.
Defined.

(** X28. The earlier [getIDLCAuthToken] makes at most [retryCount]
    authentication requests and waits at most [2000 * (1 + ... + n)] ms
    for a retry count of [S n] (6 seconds for its own 3 attempts),
    whatever the upstream answers; it sends nothing and touches neither
    the stored data nor the sockets. *)
Theorem legacy_getIDLCAuthToken_is_bounded (w : world) (n : nat) m :
  legacy_hub m (snd (run w (getIDLCAuthToken (S n)) m)) /\
  clock m <= clock (snd (run w (getIDLCAuthToken (S n)) m))
  <= clock m + 1000 * Z.of_nat n * (Z.of_nat n + 1) /\
  (auth_requests (issued (snd (run w (getIDLCAuthToken (S n)) m)))
   <= auth_requests (issued m) + S n)%nat.
Proof.
  unfold getIDLCAuthToken.
  destruct (legacy_auth_attempts_frame w (S n) (S n) 1 m) as (A & B & C);
    [lia|lia|].
  split; [exact A|]. split; [|exact C].
  replace (S n - 1)%nat with n in B by lia. lia.
Qed.

(** X29. The earlier [getIDLCAuthToken] gives up at once on an error that is
    neither ETIMEDOUT nor ECONNRESET (a request aborted by the client's own
    timeout, ECONNABORTED, is such an error): one request, no wait, null,
    and the variables as they were. *)
Theorem legacy_gives_up_on_other_errors (w : world) (rc : nat) m error :
  auth_reply w (length (issued m)) WrappedCredentials = Rejected error ->
  transient error = false ->
  run w (getIDLCAuthToken (S rc)) m
  = (VNull, elapse 0 (issue (AuthPost WrappedCredentials) m)).
Proof.
  intros Hr Ht. unfold getIDLCAuthToken. cbn [seq auth_attempts].
  rewrite run_bind. cbn [await run fst snd answer]. rewrite Hr, Ht.
  reflexivity.
Qed.

Lemma legacy_gives_up_on_other_errors_witness :
  run always_aborted (getIDLCAuthToken 3) (boot (fun _ => WsServer.OPEN) 0)
  = (VNull, elapse 0 (issue (AuthPost WrappedCredentials)
                            (boot (fun _ => WsServer.OPEN) 0))).
Proof.
  apply (legacy_gives_up_on_other_errors always_aborted 2
           (boot (fun _ => WsServer.OPEN) 0) aborted_error); reflexivity.
Defined.

End LegacyFacts.
